(** * Command sets and the command parser of Evennia, verified

    A shallow embedding of [src/commands/cmdset.py] (the command-set merge
    algebra) and [src/commands/cmdparser.py] (the command tokenizer),
    followed by the properties the specification states about them and
    by further properties of the methods of a set, of the merge and of
    the parser.

    Python objects live in an explicit store: a [CmdSet] instance and the
    list object bound to its [commands] attribute are two cells, so that
    aliasing, in-place [append]/[extend] and rebinding are visible.  Python
    exceptions are modelled by failure ([None] in the store monad, a
    dedicated [IndexError] outcome in the parser). *)

From Stdlib Require Import ZArith String Ascii List Bool Lia.
From stdpp Require Import base option list gmap strings.
Import ListNotations.
Open Scope string_scope.
Open Scope list_scope.

(* ================================================================== *)
(** * Part I: the model                                                 *)
(* ================================================================== *)

(** A reference to a Python object is its index in the store. *)
Abbreviation ref := nat (only parsing).

Module cmdset.

(** ** Command descriptors *)

(** Modelled from the spec: the Command descriptor class.  Its module
    (src/commands/command.py) is not among the sources; the spec asks of a
    descriptor a [key] and equality by key.  [cmd_id] is the identity of
    the Python object (what [is] compares) and tells one set's descriptor
    from another set's descriptor with the same key.  [cmd_hash] is the
    value of [hash(cmd)]: the class that fixes it is absent, so it is
    carried as data, and the general statements below quantify over it. *)
Record Command := mkCommand {
  cmd_key : string;
  cmd_id : nat;
  cmd_hash : Z
}.

(** [Command.__eq__]: equality by key. *)
Definition cmd_eq (a b : Command) : bool := String.eqb (cmd_key a) (cmd_key b).

(** What [add] and [get] accept: a ready descriptor, or something callable
    that yields one (a Command class). *)
Inductive addable :=
| Instance (cmd : Command)
| Factory (mk : unit -> Command).

(** [instantiate(cmd)], cmdset.py lines 74-85. *)
Definition instantiate (cmd : addable) : Command :=
  match cmd with
  | Instance c => c
  | Factory mk => mk tt
  end.

(** [list(set(commands))] as [add] uses it.  A Python set keeps the first
    of several elements that hash alike and compare equal.  The order in
    which Python reads the set back is that of its hash table, which the
    source does not fix; the order of insertion taken here stands for
    it.  Which elements are kept is as in Python, and every statement
    below about a list that has gone through a set is about its members
    and their keys, never about their order. *)
Definition same_elem (x y : Command) : bool :=
  (cmd_hash x =? cmd_hash y)%Z && cmd_eq x y.

Definition set_insert (seen : list Command) (x : Command) : list Command :=
  if existsb (same_elem x) seen then seen else seen ++ [x].

Definition list_of_set (l : list Command) : list Command :=
  fold_left set_insert l [].

(** ** CmdSet objects and the store *)

(** The attributes of a [CmdSet] instance.  [commands] is a reference to
    the list object, [cmdsetobj] a database object or [None]. *)
Record CmdSet := mkCmdSet {
  key : string;
  mergetype : string;
  priority : Z;
  duplicates : bool;
  key_mergetypes : gmap string string;
  no_exits : bool;
  no_objs : bool;
  no_channels : bool;
  cmdsetobj : option ref;
  actual_mergetype : string;
  commands : ref
}.

Definition with_commands (s : CmdSet) (r : ref) : CmdSet :=
  mkCmdSet (key s) (mergetype s) (priority s) (duplicates s)
           (key_mergetypes s) (no_exits s) (no_objs s) (no_channels s)
           (cmdsetobj s) (actual_mergetype s) r.

Definition with_actual_mergetype (s : CmdSet) (m : string) : CmdSet :=
  mkCmdSet (key s) (mergetype s) (priority s) (duplicates s)
           (key_mergetypes s) (no_exits s) (no_objs s) (no_channels s)
           (cmdsetobj s) m (commands s).

Inductive Cell :=
| PyList (items : list Command)
| PyCmdSet (s : CmdSet).

(** [cells]: the list and CmdSet objects, a reference being an index.
    [cmd_obj]: the [obj] attribute of the descriptor objects that have
    one, by [cmd_id] (the only attribute of a descriptor the module ever
    assigns). *)
Record Store := mkStore {
  cells : list Cell;
  cmd_obj : gmap nat (option ref)
}.

(** ** The store monad *)

Definition M (A : Type) : Type := Store -> option (A * Store).

Definition ret {A} (x : A) : M A := fun st => Some (x, st).

Definition bind {A B} (m : M A) (f : A -> M B) : M B :=
  fun st => match m st with
            | Some (x, st') => f x st'
            | None => None
            end.

Notation "x <- m ;; k" := (bind m (fun x => k))
  (at level 100, m at next level, right associativity).
Notation "m ;;; k" := (bind m (fun _ => k))
  (at level 100, right associativity).

Definition alloc (c : Cell) : M ref :=
  fun st => Some (length (cells st), mkStore (cells st ++ [c]) (cmd_obj st)).

Definition read_set (r : ref) : M CmdSet :=
  fun st => match cells st !! r with
            | Some (PyCmdSet s) => Some (s, st)
            | _ => None
            end.

Definition read_list (r : ref) : M (list Command) :=
  fun st => match cells st !! r with
            | Some (PyList l) => Some (l, st)
            | _ => None
            end.

Definition write (r : ref) (c : Cell) : M unit :=
  fun st => match cells st !! r with
            | Some _ => Some (tt, mkStore (<[r := c]> (cells st)) (cmd_obj st))
            | None => None
            end.

(** [if not hasattr(cmd, 'obj'): cmd.obj = v] *)
Definition default_obj (cmd : Command) (v : option ref) : M unit :=
  fun st => match cmd_obj st !! cmd_id cmd with
            | Some _ => Some (tt, st)
            | None => Some (tt, mkStore (cells st) (<[cmd_id cmd := v]> (cmd_obj st)))
            end.

Fixpoint for_each {A} (l : list A) (body : A -> M unit) : M unit :=
  match l with
  | [] => ret tt
  | x :: l' => body x ;;; for_each l' body
  end.

(** ** The class CmdSet *)

(** [CmdSet()]: [__init__] with no argument binds a new empty list to
    [commands]; every other attribute is the class's ([key] is the class
    name, set by the metaclass); the creation hook does nothing. *)
Definition CmdSet_init : M ref :=
  l <- alloc (PyList []) ;;
  alloc (PyCmdSet (mkCmdSet "CmdSet" "Union" 0 false ∅ false false false
                            None "Union" l)).

(** [copy_this], lines 245-260: a new set with the settings of this one,
    no command copied. *)
Definition copy_this (self : ref) : M ref :=
  cmdset <- CmdSet_init ;;
  s <- read_set self ;;
  c <- read_set cmdset ;;
  write cmdset
    (PyCmdSet (mkCmdSet (key s) (mergetype s) (priority s) (duplicates s)
                        (key_mergetypes s) (no_exits s) (no_objs s)
                        (no_channels s) (cmdsetobj s) (actual_mergetype c)
                        (commands c))) ;;;
  ret cmdset.

(** Reading [self.commands] (also what [__iter__] walks). *)
Definition commands_of (self : ref) : M (list Command) :=
  s <- read_set self ;;
  read_list (commands s).

(** [self.commands = l] for a list [l] built afresh (a slice copy or a
    comprehension): a new list object, then the attribute is rebound. *)
Definition set_commands (self : ref) (l : list Command) : M unit :=
  r <- alloc (PyList l) ;;
  s <- read_set self ;;
  write self (PyCmdSet (with_commands s r)).

(** [self.commands.extend(xs)]: in place. *)
Definition extend_commands (self : ref) (xs : list Command) : M unit :=
  s <- read_set self ;;
  l <- read_list (commands s) ;;
  write (commands s) (PyList (l ++ xs)).

(** [any(cmd == othercmd for cmd in self.commands)] on the commands read. *)
Definition contains_cmd (cmds : list Command) (othercmd : Command) : bool :=
  existsb (fun cmd => cmd_eq cmd othercmd) cmds.

(** [__contains__], lines 275-280. *)
Definition __contains__ (self : ref) (othercmd : Command) : M bool :=
  l <- commands_of self ;;
  ret (contains_cmd l othercmd).

(** [add], lines 202-213.  [None] (what [get] returns when nothing
    matches) is falsy and adds nothing; a descriptor is truthy. *)
Definition add (self : ref) (arg : option addable) : M unit :=
  match arg with
  | None => ret tt
  | Some x =>
      let cmd := instantiate x in
      s <- read_set self ;;
      default_obj cmd (cmdsetobj s) ;;;
      l <- read_list (commands s) ;;
      write (commands s) (PyList (l ++ [cmd])) ;;;
      l' <- read_list (commands s) ;;
      r <- alloc (PyList (list_of_set l')) ;;
      s' <- read_set self ;;
      write self (PyCmdSet (with_commands s' r))
  end.

(** [get], lines 224-234: the first stored command equal to the given one. *)
Definition get (self : ref) (arg : addable) : M (option Command) :=
  let cmd := instantiate arg in
  l <- commands_of self ;;
  ret (find (fun thiscmd => cmd_eq thiscmd cmd) l).

(** [remove] (the method), lines 215-222.  What [oldcmd != cmd] yields is
    decided by the descriptor class, which is not among the sources and
    of which only equality is known: [cmd_ne] stands for it. *)
Section RemoveMethod.

Variable cmd_ne : Command -> Command -> bool.

Definition CmdSet_remove (self : ref) (arg : addable) : M unit :=
  let cmd := instantiate arg in
  l <- commands_of self ;;
  set_commands self (List.filter (fun oldcmd => cmd_ne oldcmd cmd) l).

End RemoveMethod.

(** A key longer than two characters that starts with two underscores. *)
Definition is_system_key (k : string) : bool :=
  (2 <? String.length k)%nat && String.eqb (substring 0 2 k) "__".

Definition is_system (cmd : Command) : bool := is_system_key (cmd_key cmd).

(** [get_system_cmds], lines 236-243. *)
Definition get_system_cmds (self : ref) : M (list Command) :=
  l <- commands_of self ;;
  ret (List.filter is_system l).

(** ** The four merge operations, lines 39-72 *)

Definition union (cmdset_a cmdset_b : ref) (dup : bool) : M ref :=
  cmdset_c <- copy_this cmdset_a ;;
  la <- commands_of cmdset_a ;;
  set_commands cmdset_c la ;;;
  a <- read_set cmdset_a ;;
  b <- read_set cmdset_b ;;
  (if dup && (priority a =? priority b)%Z then
     lb <- commands_of cmdset_b ;;
     extend_commands cmdset_c lb
   else
     lb <- commands_of cmdset_b ;;
     la' <- commands_of cmdset_a ;;
     extend_commands cmdset_c
       (List.filter (fun cmd => negb (contains_cmd la' cmd)) lb)) ;;;
  ret cmdset_c.

Definition intersect (cmdset_a cmdset_b : ref) (dup : bool) : M ref :=
  cmdset_c <- copy_this cmdset_a ;;
  a <- read_set cmdset_a ;;
  b <- read_set cmdset_b ;;
  (if dup && (priority a =? priority b)%Z then
     la <- commands_of cmdset_a ;;
     lb <- commands_of cmdset_b ;;
     for_each (List.filter (fun cmd => contains_cmd lb cmd) la)
       (fun cmd =>
          add cmdset_c (Some (Instance cmd)) ;;;
          found <- get cmdset_b (Instance cmd) ;;
          add cmdset_c (option_map Instance found))
   else
     la <- commands_of cmdset_a ;;
     lb <- commands_of cmdset_b ;;
     set_commands cmdset_c (List.filter (fun cmd => contains_cmd lb cmd) la)) ;;;
  ret cmdset_c.

(** The third parameter of [replace] and [remove] is overwritten at once
    in the source; the callers pass a duplicates flag there. *)
Definition replace (cmdset_a cmdset_b : ref) (_ : bool) : M ref :=
  cmdset_c <- copy_this cmdset_a ;;
  la <- commands_of cmdset_a ;;
  set_commands cmdset_c la ;;;
  ret cmdset_c.

Definition remove (cmdset_a cmdset_b : ref) (_ : bool) : M ref :=
  cmdset_c <- copy_this cmdset_a ;;
  lb <- commands_of cmdset_b ;;
  la <- commands_of cmdset_a ;;
  set_commands cmdset_c (List.filter (fun cmd => negb (contains_cmd la cmd)) lb) ;;;
  ret cmdset_c.

(** ** The merge operator, lines 282-338 *)

(** Lines 304-327: which operand's merge type applies, and the call of
    the operation it names.  Returns the new set and that merge type. *)
Definition merge_by_priority (self cmdset_b : ref) : M (ref * string) :=
  a <- read_set self ;;
  b <- read_set cmdset_b ;;
  if (priority b <=? priority a)%Z then
    let mt := default (mergetype a) (key_mergetypes a !! key b) in
    cmdset_c <-
      (if String.eqb mt "Intersect" then intersect self cmdset_b (duplicates b)
       else if String.eqb mt "Replace" then replace self cmdset_b (duplicates b)
       else if String.eqb mt "Remove" then remove self cmdset_b (duplicates b)
       else union self cmdset_b (duplicates b)) ;;
    ret (cmdset_c, mt)
  else
    let mt := default (mergetype b) (key_mergetypes b !! key a) in
    cmdset_c <-
      (if String.eqb mt "Intersect" then intersect cmdset_b self (duplicates a)
       else if String.eqb mt "Replace" then replace cmdset_b self (duplicates a)
       else if String.eqb mt "Remove" then remove self cmdset_b (duplicates a)
       else union cmdset_b self (duplicates a)) ;;
    ret (cmdset_c, mt).

Definition set_actual_mergetype (self : ref) (m : string) : M unit :=
  s <- read_set self ;;
  write self (PyCmdSet (with_actual_mergetype s m)).

(** [__add__]: [None] stands for every falsy right operand; a CmdSet
    instance is always truthy (the class defines neither [__nonzero__] nor
    [__len__]), also when it holds no command. *)
Definition __add__ (self : ref) (cmdset_b : option ref) : M ref :=
  match cmdset_b with
  | None => ret self
  | Some cmdset_b =>
      sa <- get_system_cmds self ;;
      sb <- get_system_cmds cmdset_b ;;
      let sys_commands := sa ++ sb in
      res <- merge_by_priority self cmdset_b ;;
      set_actual_mergetype (fst res) (snd res) ;;;
      for_each sys_commands (fun cmd => add (fst res) (Some (Instance cmd))) ;;;
      ret (fst res)
  end.

(** ** The command sequences the operations build

    The same computations read as functions of the command sequences of
    the operands: [la] is the sequence of the first argument, [lb] of the
    second, [tie] says the priorities are equal.  The program above is
    shown to build exactly these sequences ([merge_by_priority_spec],
    [add_operator_spec]). *)

(** The sequence after [add(cmd)]. *)
Definition add_cmd (l : list Command) (cmd : Command) : list Command :=
  list_of_set (l ++ [cmd]).

Definition union_cmds (la lb : list Command) (dup tie : bool) : list Command :=
  la ++ (if dup && tie then lb
         else List.filter (fun cmd => negb (contains_cmd la cmd)) lb).

(** One turn of the loop of [intersect] for equal priorities. *)
Definition intersect_step (lb acc : list Command) (cmd : Command)
  : list Command :=
  match find (fun thiscmd => cmd_eq thiscmd cmd) lb with
  | Some found => add_cmd (add_cmd acc cmd) found
  | None => add_cmd acc cmd
  end.

Definition intersect_cmds (la lb : list Command) (dup tie : bool)
  : list Command :=
  if dup && tie then
    fold_left (intersect_step lb) (List.filter (fun cmd => contains_cmd lb cmd) la) []
  else List.filter (fun cmd => contains_cmd lb cmd) la.

Definition remove_cmds (la lb : list Command) : list Command :=
  List.filter (fun cmd => negb (contains_cmd la cmd)) lb.

(** The merge type in force when [h] is merged onto [l]. *)
Definition effective_mergetype (h l : CmdSet) : string :=
  default (mergetype h) (key_mergetypes h !! key l).

(** The merge type [__add__] looks up for [self = a] and [cmdset_b = b]. *)
Definition applied_mergetype (a b : CmdSet) : string :=
  if (priority b <=? priority a)%Z then effective_mergetype a b
  else effective_mergetype b a.

(** The commands of the set lines 304-327 build. *)
Definition policy_cmds (a b : CmdSet) (la lb : list Command) : list Command :=
  let mt := applied_mergetype a b in
  if (priority b <=? priority a)%Z then
    if String.eqb mt "Intersect" then
      intersect_cmds la lb (duplicates b) (priority a =? priority b)%Z
    else if String.eqb mt "Replace" then la
    else if String.eqb mt "Remove" then remove_cmds la lb
    else union_cmds la lb (duplicates b) (priority a =? priority b)%Z
  else
    if String.eqb mt "Intersect" then
      intersect_cmds lb la (duplicates a) (priority b =? priority a)%Z
    else if String.eqb mt "Replace" then lb
    else if String.eqb mt "Remove" then remove_cmds la lb
    else union_cmds lb la (duplicates a) (priority b =? priority a)%Z.

(** The operand whose settings [copy_this] hands to that set. *)
Definition settings_from (a b : CmdSet) : CmdSet :=
  if (priority b <=? priority a)%Z then a
  else if String.eqb (applied_mergetype a b) "Remove" then a
  else b.

(** The commands of the set [__add__] returns. *)
Definition merged_cmds (a b : CmdSet) (la lb : list Command) : list Command :=
  fold_left add_cmd (List.filter is_system la ++ List.filter is_system lb)
            (policy_cmds a b la lb).

(** ** Vocabulary of the statements *)

(** Running [m] in [st] returns [x] and leaves [st']. *)
Definition runs {A} (m : M A) (st : Store) (x : A) (st' : Store) : Prop :=
  m st = Some (x, st').

(** [r] is a CmdSet object with attributes [s] whose [commands] list
    object holds [l]. *)
Definition holds (st : Store) (r : ref) (s : CmdSet) (l : list Command) : Prop :=
  cells st !! r = Some (PyCmdSet s) /\ cells st !! commands s = Some (PyList l).

(** The keys of a command sequence. *)
Definition keys (l : list Command) : list string := map cmd_key l.

(** The four merge policies, and the one a merge type string selects in
    the chain of comparisons of [__add__]: whatever is not one of the
    three names tested is treated as a union. *)
Inductive policy := PolicyUnion | PolicyIntersect | PolicyReplace | PolicyRemove.

Definition policy_of (mt : string) : policy :=
  if String.eqb mt "Intersect" then PolicyIntersect
  else if String.eqb mt "Replace" then PolicyReplace
  else if String.eqb mt "Remove" then PolicyRemove
  else PolicyUnion.

(** Equal priorities and the duplicates flag of the operand that loses
    the tie (the right one). *)
Definition dup_tie (a b : CmdSet) : bool :=
  (priority a =? priority b)%Z && duplicates b.

(** The descriptors of [lh] prevail in [l]: all of them are there, and a
    descriptor of [l] whose key [lh] has is one of [lh]. *)
Definition wins_on_overlap (lh l : list Command) : Prop :=
  (forall cmd, In cmd lh -> In cmd l) /\
  (forall cmd, In cmd l -> In (cmd_key cmd) (keys lh) -> In cmd lh).

(** "The merge of [a] with [b] returns [a]'s contents": it yields a set
    whose keys are those of [a]. *)
Definition merge_keeps_contents (st : Store) (a b : ref) : Prop :=
  exists A la c st' C lc,
    holds st a A la /\ runs (__add__ a (Some b)) st c st' /\
    holds st' c C lc /\ forall k, In k (keys lc) <-> In k (keys la).

(** What is said of an intersecting merge of [A] (commands [la]) with [B]
    (commands [lb]) yielding the commands [l]: the keys are the common
    ones, there are at most as many commands as in the smaller operand,
    and on a tie with duplicates allowed both operands' descriptors of
    every shared key are there. *)
Definition intersect_as_stated (A B : CmdSet) (la lb l : list Command) : Prop :=
  (forall k, In k (keys l) <-> In k (keys la) /\ In k (keys lb)) /\
  length l <= Nat.min (length la) (length lb) /\
  (dup_tie A B = true ->
   forall ca cb, In ca la -> In cb lb -> cmd_key ca = cmd_key cb ->
                 In ca l /\ In cb l).

(** What is said of a union merge of [A] (commands [la]) with [B]
    (commands [lb]) yielding the commands [l]: with unequal priorities
    and duplicates off, the keys are those of both operands and the
    descriptors of the higher-priority operand prevail on the keys both
    have; with equal priorities and duplicates allowed, all commands of
    both operands are there. *)
Definition union_as_stated (A B : CmdSet) (la lb l : list Command) : Prop :=
  ((priority B < priority A)%Z -> duplicates A = false -> duplicates B = false ->
   (forall k, In k (keys l) <-> In k (keys la) \/ In k (keys lb)) /\
   wins_on_overlap la l) /\
  ((priority A < priority B)%Z -> duplicates A = false -> duplicates B = false ->
   (forall k, In k (keys l) <-> In k (keys la) \/ In k (keys lb)) /\
   wins_on_overlap lb l) /\
  (priority A = priority B -> duplicates B = true ->
   forall cmd, In cmd la \/ In cmd lb -> In cmd l).

(** Membership of a key in the policy step's result, from its membership
    in the operands. *)
Definition policy_keys (A B : CmdSet) (ina inb : Prop) : Prop :=
  match policy_of (applied_mergetype A B) with
  | PolicyUnion => ina \/ inb
  | PolicyIntersect => ina /\ inb
  | PolicyReplace => if (priority B <=? priority A)%Z then ina else inb
  | PolicyRemove => inb /\ ~ ina
  end.

(** A command sequence without its system commands. *)
Definition strip_system (l : list Command) : list Command :=
  List.filter (fun cmd => negb (is_system cmd)) l.

(** The attributes of a set apart from the reference to its list. *)
Definition meta (s : CmdSet) : CmdSet := with_commands s 0.

(** The set [c] under construction since [st0]: it and its list are
    objects created after [st0], every object of [st0] is as it was, and
    descriptors have only gained [obj] attributes. *)
Record owns (st0 st : Store) (c : ref) (s : CmdSet) (l : list Command) : Prop := {
  owns_frame : forall r, r < length (cells st0) -> cells st !! r = cells st0 !! r;
  owns_set_fresh : length (cells st0) <= c;
  owns_set : cells st !! c = Some (PyCmdSet s);
  owns_list_fresh : length (cells st0) <= commands s;
  owns_list : cells st !! commands s = Some (PyList l);
  owns_obj : forall i v, cmd_obj st0 !! i = Some v -> cmd_obj st !! i = Some v
}.
Arguments owns_frame {st0 st c s l} _ _ _.
Arguments owns_set_fresh {st0 st c s l} _.
Arguments owns_set {st0 st c s l} _.
Arguments owns_list_fresh {st0 st c s l} _.
Arguments owns_list {st0 st c s l} _.
Arguments owns_obj {st0 st c s l} _ _ _ _.

(** The settings of a set: the attributes [copy_this] hands over. *)
Definition settings (s : CmdSet) :=
  (key s, mergetype s, priority s, duplicates s, key_mergetypes s,
   no_exits s, no_objs s, no_channels s, cmdsetobj s).

(** Descriptors of [l] with the same key hash alike (what Python asks of
    [__hash__] where [__eq__] is defined). *)
Definition hash_by_key (l : list Command) : Prop :=
  forall x y, In x l -> In y l -> cmd_key x = cmd_key y -> cmd_hash x = cmd_hash y.

(** No two entries of [l] would be one element of a Python set. *)
Fixpoint distinct_elems (l : list Command) : Prop :=
  match l with
  | [] => True
  | x :: l' => (forall y, In y l' -> same_elem y x = false) /\ distinct_elems l'
  end.

End cmdset.

(** ** Example sets

    Small stores used to run the merge on concrete operands.  In each,
    cell 1 is the left operand (its list is cell 0) and cell 3 the right
    one (its list is cell 2). *)
Module samples.
Import cmdset.

Definition look_a : Command := mkCommand "look" 1 101.
Definition look_b : Command := mkCommand "look" 2 101.
Definition get_b : Command := mkCommand "get" 3 103.
Definition noinput_a : Command := mkCommand "__noinput" 4 104.
Definition nomatch_b : Command := mkCommand "__nomatch" 5 105.

Definition plain_set (k mt : string) (p : Z) (dup : bool) (l : ref) : CmdSet :=
  mkCmdSet k mt p dup ∅ false false false None mt l.

Definition two_sets (A : CmdSet) (la : list Command) (B : CmdSet)
    (lb : list Command) : Store :=
  mkStore [PyList la; PyCmdSet A; PyList lb; PyCmdSet B] ∅.

(** A low-priority set under a higher-priority set that removes. *)
Definition low_A : CmdSet := plain_set "A" "Union" 0 false 0.
Definition high_remove_B : CmdSet := plain_set "B" "Remove" 1 false 2.
Definition st_remove : Store := two_sets low_A [look_a] high_remove_B [get_b].

(** An intersecting set against a set without commands. *)
Definition intersect_A : CmdSet := plain_set "A" "Intersect" 0 false 0.
Definition empty_E : CmdSet := plain_set "E" "Union" 0 false 2.
Definition st_empty : Store := two_sets intersect_A [look_a] empty_E [].

(** An intersecting set tied with a set that allows duplicates. *)
Definition dup_B : CmdSet := plain_set "B" "Union" 0 true 2.
Definition st_tie : Store := two_sets intersect_A [look_a] dup_B [look_b].

(** A union of a higher set holding a system command with a lower set. *)
Definition union_A : CmdSet := plain_set "A" "Union" 1 false 0.
Definition union_B : CmdSet := plain_set "B" "Union" 0 false 2.
Definition st_union : Store :=
  two_sets union_A [look_a; noinput_a] union_B [look_b; get_b; nomatch_b].

(** A replacing set over a lower set. *)
Definition replace_A : CmdSet := plain_set "A" "Replace" 1 false 0.
Definition st_replace : Store :=
  two_sets replace_A [look_a] union_B [look_b; get_b; nomatch_b].

(** A union of two sets that each hold a system command of the same key,
    the two descriptors hashing apart. *)
Definition noinput_b : Command := mkCommand "__noinput" 6 106.
Definition st_union_sys : Store :=
  two_sets union_A [noinput_a] union_B [noinput_b].

(** A union of two sets of equal priority, the right one allowing
    duplicates, the left one holding a system command; the two "look"
    descriptors hash alike. *)
Definition st_union_tie : Store :=
  two_sets low_A [look_a; noinput_a] dup_B [look_b].

End samples.

Module cmdparser.

(** ** Python strings *)

(** A Python 2 [str] is a sequence of one-byte characters. *)
Definition str := list ascii.

(** A literal: [lit "look"] is the [str] of the characters of "look". *)
Definition lit (s : string) : str := list_ascii_of_string s.

(** The characters [str.strip] and [str.split(None)] treat as blank:
    tab, line feed, vertical tab, form feed, carriage return, space. *)
Definition is_space (c : ascii) : bool :=
  let n := nat_of_ascii c in
  ((9 <=? n)%nat && (n <=? 13)%nat) || (n =? 32)%nat.

Fixpoint lstrip (s : str) : str :=
  match s with
  | [] => []
  | c :: s' => if is_space c then lstrip s' else s
  end.

Definition rstrip (s : str) : str := rev (lstrip (rev s)).

(** [s.strip()] *)
Definition strip (s : str) : str := rstrip (lstrip s).

(** [s.lower()] on the ASCII letters. *)
Definition lower_char (c : ascii) : ascii :=
  let n := nat_of_ascii c in
  if (65 <=? n)%nat && (n <=? 90)%nat then ascii_of_nat (n + 32) else c.

Definition lower (s : str) : str := map lower_char s.

(** [s.split(" ")]: cut at every single space, empty pieces kept. *)
Fixpoint split_sp (s : str) : list str :=
  match s with
  | [] => [[]]
  | c :: s' =>
      if Ascii.eqb c " " then [] :: split_sp s'
      else match split_sp s' with
           | w :: ws => (c :: w) :: ws
           | [] => [[c]]
           end
  end.

(** [s.split(None)]: the maximal runs of characters that are not blank. *)
Fixpoint split_ws (s : str) : list str :=
  match s with
  | [] => []
  | c :: s' =>
      if is_space c then split_ws s'
      else match s' with
           | [] => [[c]]
           | c' :: _ =>
               if is_space c' then [c] :: split_ws s'
               else match split_ws s' with
                    | w :: ws => (c :: w) :: ws
                    | [] => [[c]]
                    end
           end
  end.

(** [a == b] on strings. *)
Fixpoint str_eqb (a b : str) : bool :=
  match a, b with
  | [], [] => true
  | x :: a', y :: b' => Ascii.eqb x y && str_eqb a' b'
  | _, _ => false
  end.

(** [sep.join(words)] *)
Fixpoint join (sep : str) (words : list str) : str :=
  match words with
  | [] => []
  | [w] => w
  | w :: ws => w ++ sep ++ join sep ws
  end.

(** ** The pattern of special characters, lines 17-20 *)

Definition dquote : ascii := "034"%char.
Definition backslash : ascii := "092"%char.

(** The ten entries of [SPECIAL_CHARS] as Python reads them: the second
    is one backslash, the seventh a backslash and a hyphen (an unknown
    escape stays as written). *)
Definition SPECIAL_CHARS : list str :=
  [ lit "/"; [backslash]; lit "'"; [dquote]; lit ":"; lit ";";
    [backslash; "-"%char]; lit "#"; lit "="; lit "!" ].

(** The text handed to [re.compile]: a bracket, a quote, the entries
    joined, a quote, a bracket. *)
Definition REGEX_pattern : str :=
  lit "[" ++ [dquote] ++ concat SPECIAL_CHARS ++ [dquote] ++ lit "]".

(** The members of a character class whose body holds plain characters
    and backslash escapes of punctuation, which is all the pattern above
    holds: a backslash makes the next character stand for itself, the
    first unescaped closing bracket ends the class. *)
Fixpoint class_members (body : str) : list ascii :=
  match body with
  | [] => []
  | c :: rest =>
      if Ascii.eqb c backslash then
        match rest with
        | [] => []
        | e :: rest' => e :: class_members rest'
        end
      else if Ascii.eqb c "]" then []
      else c :: class_members rest
  end.

Definition REGEX_class : list ascii :=
  match REGEX_pattern with
  | _ :: body => class_members body
  | [] => []
  end.

(** A character the compiled pattern matches. *)
Definition is_special (c : ascii) : bool :=
  existsb (Ascii.eqb c) REGEX_class.

(** [REGEX.search(s)]: where the first match starts, if any. *)
Fixpoint regex_search (s : str) : option nat :=
  match s with
  | [] => None
  | c :: s' => if is_special c then Some O
               else option_map S (regex_search s')
  end.

(** ** Candidates *)

Record CommandCandidate := mkCandidate {
  cmdname : str;
  args : str;
  priority : Z;
  obj_key : option str
}.

Definition set_obj_key (k : str) (c : CommandCandidate) : CommandCandidate :=
  mkCandidate (cmdname c) (args c) (priority c) (Some k).

(** What a call yields: a value, or the [IndexError] of [pop] on an empty
    list; [OutOfFuel] belongs to the model only and is shown unreachable. *)
Inductive outcome (A : Type) :=
| Ok (a : A)
| IndexError
| OutOfFuel.
Arguments Ok {A} a.
Arguments IndexError {A}.
Arguments OutOfFuel {A}.

Definition obind {A B} (o : outcome A) (f : A -> outcome B) : outcome B :=
  match o with
  | Ok a => f a
  | IndexError => IndexError
  | OutOfFuel => OutOfFuel
  end.

(** ** [produce_candidates], lines 97-116 *)

(** One step of the inner loop: [args += word] or [args += " %s" % word]. *)
Definition add_arg (args word : str) : str :=
  let glued :=
    match args with
    | [] => true
    | _ => match word with
           | c :: _ => is_special c
           | [] => false
           end
    end in
  if glued then args ++ word else args ++ lit " " ++ word.

Definition build_args (wordlist : list str) : str :=
  fold_left add_arg wordlist [].

(** The outer loop over [range(nr_candidates)], with the three lists the
    source updates in place. *)
Fixpoint produce_loop (ns : list nat) (cmdwords_list wordlist : list str)
    (candidates : list CommandCandidate) : outcome (list CommandCandidate) :=
  match ns with
  | [] => Ok candidates
  | n_words :: ns' =>
      match wordlist with
      | [] => IndexError
      | w :: wordlist' =>
          let cmdwords_list' := cmdwords_list ++ [w] in
          let cmdwords :=
            join (lit " ") (map (fun word => lower (strip word)) cmdwords_list') in
          produce_loop ns' cmdwords_list' wordlist'
            (candidates ++
             [mkCandidate cmdwords (build_args wordlist') (Z.of_nat n_words) None])
      end
  end.

Definition produce_candidates (nr_candidates : Z) (wordlist : list str)
  : outcome (list CommandCandidate) :=
  produce_loop (seq 0 (Z.to_nat nr_candidates)) [] wordlist [].

(** The candidate number [i] of [produce_candidates]: the first [i+1]
    words, each stripped and lowercased, joined by single spaces; the
    rest as argument text; [i] as priority; no object key. *)
Definition nth_candidate (wordlist : list str) (i : nat) : CommandCandidate :=
  mkCandidate
    (join (lit " ") (map (fun word => lower (strip word)) (firstn (S i) wordlist)))
    (build_args (skipn (S i) wordlist))
    (Z.of_nat i) None.

(** ** [cmdparser], lines 40-174 *)

Section Parser.

(** [settings.COMMAND_MAXLEN]: the settings module is not among the
    sources, the value is a parameter. *)
Variable COMMAND_MAXLEN : Z.

(** Lines 168-174: no special character, or none within the allowed
    number of words.  [candidates] is what was collected before. *)
Definition run_normally (candidates : list CommandCandidate) (raw_string : str)
  : outcome (list CommandCandidate) :=
  let nr_candidates :=
    Z.min COMMAND_MAXLEN (Z.of_nat (length (split_ws raw_string))) in
  let wordlist := split_sp raw_string in
  obind (produce_candidates nr_candidates wordlist)
        (fun produced => Ok (candidates ++ produced)).

(** Lines 159-166 and then 168-174: the command finder run up to the
    special character at [end_index]. *)
Definition run_to_end_char (candidates : list CommandCandidate)
    (raw_string : str) (end_index : nat) : outcome (list CommandCandidate) :=
  let nr_candidates := Z.of_nat (length (split_ws (firstn end_index raw_string))) in
  if (nr_candidates <=? COMMAND_MAXLEN)%Z then
    let wordlist :=
      split_sp (firstn end_index raw_string) ++ split_sp (skipn end_index raw_string) in
    obind (produce_candidates nr_candidates wordlist)
          (fun produced => Ok (candidates ++ produced))
  else run_normally candidates raw_string.

(** The test of lines 143-145 for the form [<word>'s <rest>]. *)
Definition is_obj_form (raw_string : str) (end_index : nat) (end_char : ascii)
  : bool :=
  Ascii.eqb end_char "'"
  && (end_index + 1 <? length raw_string)%nat
  && str_eqb (firstn 2 (skipn (end_index + 1) raw_string)) (lit "s ").

(** The body of [cmdparser]; [self] stands for the recursive call. *)
Definition cmdparser_body (self : str -> outcome (list CommandCandidate))
    (raw_string : str) : outcome (list CommandCandidate) :=
  let raw_string := strip raw_string in
  match regex_search raw_string with
  | None => run_normally [] raw_string
  | Some end_index =>
      match nth_error raw_string end_index with
      | None => IndexError
      | Some end_char =>
          if (end_index =? 0)%nat then
            let args :=
              if (1 <? length raw_string)%nat then skipn 1 raw_string
              else [] in
            Ok [mkCandidate [end_char] args 0 None]
          else
            obind
              (if is_obj_form raw_string end_index end_char then
                 let obj_key := firstn end_index raw_string in
                 let alt_string := skipn (end_index + 2) raw_string in
                 obind (self alt_string)
                       (fun alt_candidates =>
                          Ok (map (set_obj_key obj_key) alt_candidates))
               else Ok [])
              (fun candidates =>
                 run_to_end_char candidates raw_string end_index)
      end
  end.

(** The recursion is on a strictly shorter string; [fuel] bounds its
    depth. *)
Fixpoint cmdparser_fuel (fuel : nat) (raw_string : str)
  : outcome (list CommandCandidate) :=
  match fuel with
  | O => OutOfFuel
  | S fuel' => cmdparser_body (cmdparser_fuel fuel') raw_string
  end.

Definition cmdparser (raw_string : str) : outcome (list CommandCandidate) :=
  cmdparser_fuel (S (length raw_string)) raw_string.

End Parser.

(** ** Vocabulary of the statements *)

(** No character of [s] is one the pattern matches. *)
Definition clean (s : str) : Prop := forall c, In c s -> is_special c = false.

(** The only blank characters of [s] are spaces. *)
Definition plain_spaces (s : str) : Prop :=
  forall c, In c s -> is_space c = true -> c = " "%char.

(** A candidate's name is free of special characters, or is one special
    character alone (the name a leading special character gives). *)
Definition name_ok (cand : CommandCandidate) : Prop :=
  clean (cmdname cand) \/
  exists c, cmdname cand = [c] /\ is_special c = true.

(** The characters the source lists as special, the backslash among
    them. *)
Definition listed_special (c : ascii) : bool :=
  existsb (Ascii.eqb c) (concat SPECIAL_CHARS).

(** No character of [s] is a listed special character. *)
Definition unlisted (s : str) : Prop :=
  forall c, In c s -> listed_special c = false.

(** "No candidate's name holds a listed special character." *)
Definition names_without_special (o : outcome (list CommandCandidate)) : Prop :=
  forall cs, o = Ok cs ->
  forall cand, In cand cs ->
  forall c, In c (cmdname cand) -> listed_special c = false.

(** The tab character. *)
Definition tab : ascii := "009"%char.

(** No character of [w] is blank. *)
Definition no_blank (w : str) : Prop := forall c, In c w -> is_space c = false.

(** The number of spaces in [s]. *)
Definition spaces (s : str) : nat :=
  length (List.filter (fun c => Ascii.eqb c " ") s).

(** A candidate without object key. *)
Definition unkeyed (cand : CommandCandidate) : bool :=
  match obj_key cand with
  | None => true
  | Some _ => false
  end.

(** [s] without its leading spaces. *)
Fixpoint drop_spaces (s : str) : str :=
  match s with
  | [] => []
  | c :: s' => if Ascii.eqb c " " then drop_spaces s' else s
  end.

(** What the loop of lines 107-113 appends for [word] once the argument
    text is no longer empty. *)
Definition glue (word : str) : str :=
  match word with
  | c :: _ => if is_special c then word else " "%char :: word
  | [] => [" "%char]
  end.

(** [s] without the spaces that stand right before a special character. *)
Fixpoint squeeze (s : str) : str :=
  match s with
  | [] => []
  | c :: s' =>
      if Ascii.eqb c " " then
        match s' with
        | d :: _ => if is_special d then squeeze s' else c :: squeeze s'
        | [] => [c]
        end
      else c :: squeeze s'
  end.

End cmdparser.

(* ================================================================== *)
(** * Part II: the merge operator                                       *)
(* ================================================================== *)

(** ** Running the store monad *)

Section StoreLogic.
Import cmdset.

Lemma runs_ret {A} (x : A) st : runs (ret x) st x st.
Proof. reflexivity. Qed.

Lemma runs_bind {A B} (m : M A) (f : A -> M B) st x st1 y st2 :
  runs m st x st1 -> runs (f x) st1 y st2 -> runs (bind m f) st y st2.
Proof. unfold runs, bind. intros ->. auto. Qed.

Lemma runs_read_set st r s :
  cells st !! r = Some (PyCmdSet s) -> runs (read_set r) st s st.
Proof. unfold runs, read_set. intros ->. reflexivity. Qed.

Lemma runs_read_list st r l :
  cells st !! r = Some (PyList l) -> runs (read_list r) st l st.
Proof. unfold runs, read_list. intros ->. reflexivity. Qed.

Lemma runs_write st r c :
  r < length (cells st) ->
  runs (write r c) st tt (mkStore (<[r := c]> (cells st)) (cmd_obj st)).
Proof.
  unfold runs, write. intros Hr.
  destruct (lookup_lt_is_Some_2 (cells st) r Hr) as [x Hx]. rewrite Hx. reflexivity.
Qed.

Lemma runs_alloc st c :
  runs (alloc c) st (length (cells st)) (mkStore (cells st ++ [c]) (cmd_obj st)).
Proof. reflexivity. Qed.

Lemma runs_commands_of {st r s l} :
  holds st r s l -> runs (commands_of r) st l st.
Proof.
  intros [Hs Hl]. unfold commands_of.
  eapply runs_bind; [apply runs_read_set, Hs | apply runs_read_list, Hl].
Qed.

Lemma owns_holds {st0 st c s l} : owns st0 st c s l -> holds st c s l.
Proof. intros H. split; [apply (owns_set H) | apply (owns_list H)]. Qed.

Lemma owns_old {st0 st c s l a A la} :
  owns st0 st c s l -> holds st0 a A la -> holds st a A la.
Proof.
  intros H [Ha Hl]. split.
  - rewrite (owns_frame H); [exact Ha | eapply lookup_lt_Some, Ha].
  - rewrite (owns_frame H); [exact Hl | eapply lookup_lt_Some, Hl].
Qed.

Lemma owns_distinct {st0 st c s l} : owns st0 st c s l -> c <> commands s.
Proof.
  intros H E. pose proof (owns_set H) as H1.
  pose proof (owns_list H) as H2. rewrite E in H1. congruence.
Qed.

Lemma owns_write_set {st0 st c s l} s' :
  owns st0 st c s l -> commands s' = commands s ->
  owns st0 (mkStore (<[c := PyCmdSet s']> (cells st)) (cmd_obj st)) c s' l.
Proof.
  intros H E. pose proof (owns_distinct H) as Hd.
  destruct H as [Hf Hc Hs Hl Hll Ho]. split; simpl.
  - intros r Hr. rewrite list_lookup_insert_ne by lia. auto.
  - exact Hc.
  - apply list_lookup_insert_eq. eapply lookup_lt_Some, Hs.
  - rewrite E. exact Hl.
  - rewrite E. rewrite list_lookup_insert_ne by exact Hd. exact Hll.
  - exact Ho.
Qed.

Lemma owns_write_list {st0 st c s l} l' :
  owns st0 st c s l ->
  owns st0 (mkStore (<[commands s := PyList l']> (cells st)) (cmd_obj st)) c s l'.
Proof.
  intros H. pose proof (owns_distinct H) as Hd.
  destruct H as [Hf Hc Hs Hl Hll Ho]. split; simpl.
  - intros r Hr. rewrite list_lookup_insert_ne by lia. auto.
  - exact Hc.
  - rewrite list_lookup_insert_ne by auto. exact Hs.
  - exact Hl.
  - apply list_lookup_insert_eq. eapply lookup_lt_Some, Hll.
  - exact Ho.
Qed.

Lemma owns_alloc {st0 st c s l} x :
  owns st0 st c s l ->
  owns st0 (mkStore (cells st ++ [x]) (cmd_obj st)) c s l.
Proof.
  intros [Hf Hc Hs Hl Hll Ho]. split; simpl.
  - intros r Hr. rewrite <- (Hf r Hr). apply lookup_app_l.
    apply lookup_lt_is_Some_1. rewrite (Hf r Hr). apply lookup_lt_is_Some_2, Hr.
  - exact Hc.
  - rewrite lookup_app_l by (eapply lookup_lt_Some, Hs). exact Hs.
  - exact Hl.
  - rewrite lookup_app_l by (eapply lookup_lt_Some, Hll). exact Hll.
  - exact Ho.
Qed.

Lemma owns_length {st0 st c s l} :
  owns st0 st c s l -> length (cells st0) <= length (cells st).
Proof.
  intros H. pose proof (lookup_lt_Some _ _ _ (owns_set H)).
  pose proof (owns_set_fresh H). lia.
Qed.

(** Rebinding [commands] to a list object created on the spot. *)
Lemma owns_rebind {st0 st c s l} l' :
  owns st0 st c s l ->
  owns st0
    (mkStore (<[c := PyCmdSet (with_commands s (length (cells st)))]>
                (cells st ++ [PyList l'])) (cmd_obj st))
    c (with_commands s (length (cells st))) l'.
Proof.
  intros H. pose proof (owns_length H) as Hlen.
  pose proof (lookup_lt_Some _ _ _ (owns_set H)) as Hclt.
  destruct H as [Hf Hc Hs Hl Hll Ho]. split; simpl.
  - intros r Hr. rewrite list_lookup_insert_ne by lia.
    rewrite lookup_app_l by lia. auto.
  - exact Hc.
  - apply list_lookup_insert_eq. rewrite length_app. simpl. lia.
  - lia.
  - rewrite list_lookup_insert_ne by lia. apply list_lookup_middle. reflexivity.
  - exact Ho.
Qed.

Lemma CmdSet_init_spec st0 :
  exists c st s,
    runs CmdSet_init st0 c st /\ owns st0 st c s [] /\
    meta s = meta (mkCmdSet "CmdSet" "Union" 0 false ∅ false false false
                            None "Union" 0).
Proof.
  eexists _, _, _. split; [|split].
  - unfold CmdSet_init. eapply runs_bind; [apply runs_alloc | apply runs_alloc].
  - split; cbn [cells cmd_obj commands].
    + intros r Hr. rewrite <- app_assoc. apply lookup_app_l. exact Hr.
    + rewrite length_app. lia.
    + apply list_lookup_middle. reflexivity.
    + simpl. lia.
    + simpl. rewrite <- app_assoc. apply list_lookup_middle. reflexivity.
    + auto.
  - reflexivity.
Qed.

Lemma copy_this_spec st0 a A :
  cells st0 !! a = Some (PyCmdSet A) ->
  exists c st s,
    runs (copy_this a) st0 c st /\ owns st0 st c s [] /\
    meta s = meta (with_actual_mergetype A "Union").
Proof.
  intros Ha.
  destruct (CmdSet_init_spec st0) as (c & st1 & d & Hrun & Hown & Hd).
  eexists c, _, _. split; [|split].
  - unfold copy_this. eapply runs_bind; [exact Hrun|].
    eapply runs_bind.
    { apply runs_read_set. rewrite (owns_frame Hown); [exact Ha|].
      eapply lookup_lt_Some, Ha. }
    eapply runs_bind; [apply runs_read_set, (owns_set Hown)|].
    eapply runs_bind; [|apply runs_ret].
    apply runs_write. eapply lookup_lt_Some, (owns_set Hown).
  - apply (owns_write_set _ Hown). reflexivity.
  - unfold meta, with_commands, with_actual_mergetype. simpl.
    unfold meta, with_commands in Hd. simpl in Hd. congruence.
Qed.


Lemma set_commands_spec {st0 st c s l} xs :
  owns st0 st c s l ->
  exists st' s',
    runs (set_commands c xs) st tt st' /\ owns st0 st' c s' xs /\
    meta s' = meta s.
Proof.
  intros H. eexists _, _. split; [|split].
  - unfold set_commands. eapply runs_bind; [apply runs_alloc|].
    eapply runs_bind.
    { apply runs_read_set. simpl.
      rewrite lookup_app_l by (eapply lookup_lt_Some, (owns_set H)).
      apply (owns_set H). }
    apply runs_write. simpl. rewrite length_app.
    pose proof (lookup_lt_Some _ _ _ (owns_set H)). lia.
  - simpl. apply (owns_rebind _ H).
  - reflexivity.
Qed.

Lemma extend_commands_spec {st0 st c s l} xs :
  owns st0 st c s l ->
  exists st',
    runs (extend_commands c xs) st tt st' /\ owns st0 st' c s (l ++ xs).
Proof.
  intros H. eexists. split.
  - unfold extend_commands.
    eapply runs_bind; [apply runs_read_set, (owns_set H)|].
    eapply runs_bind; [apply runs_read_list, (owns_list H)|].
    apply runs_write. eapply lookup_lt_Some, (owns_list H).
  - apply (owns_write_list _ H).
Qed.

Lemma default_obj_spec {st0 st c s l} cmd v :
  owns st0 st c s l ->
  exists st', runs (default_obj cmd v) st tt st' /\ owns st0 st' c s l.
Proof.
  intros H. unfold runs, default_obj.
  destruct (cmd_obj st !! cmd_id cmd) eqn:E.
  - eexists. split; [reflexivity | exact H].
  - eexists. split; [reflexivity|].
    destruct H as [Hf Hc Hs Hl Hll Ho]. split; simpl; auto.
    intros i w Hi. specialize (Ho i w Hi).
    destruct (decide (cmd_id cmd = i)) as [<-|Hne]; [congruence|].
    rewrite lookup_insert_ne by exact Hne. exact Ho.
Qed.

Lemma add_spec {st0 st c s l} x :
  owns st0 st c s l ->
  exists st' s',
    runs (add c (Some x)) st tt st' /\
    owns st0 st' c s' (add_cmd l (instantiate x)) /\
    meta s' = meta s.
Proof.
  intros H. unfold add.
  destruct (default_obj_spec (instantiate x) (cmdsetobj s) H)
    as (st1 & Hr1 & H1).
  pose proof (owns_write_list (l ++ [instantiate x]) H1) as H2.
  eexists _, _. split; [|split].
  - eapply runs_bind; [apply runs_read_set, (owns_set H)|].
    eapply runs_bind; [exact Hr1|].
    eapply runs_bind; [apply runs_read_list, (owns_list H1)|].
    eapply runs_bind.
    { apply runs_write. eapply lookup_lt_Some, (owns_list H1). }
    eapply runs_bind; [apply runs_read_list, (owns_list H2)|].
    eapply runs_bind; [apply runs_alloc|].
    eapply runs_bind.
    { apply runs_read_set. simpl.
      rewrite lookup_app_l
        by (eapply lookup_lt_Some, (owns_set H2)).
      apply (owns_set H2). }
    apply runs_write. simpl. rewrite length_app.
    pose proof (lookup_lt_Some _ _ _ (owns_set H2)). simpl in *. lia.
  - simpl. apply (owns_rebind _ H2).
  - reflexivity.
Qed.

Lemma set_actual_mergetype_spec {st0 st c s l} m :
  owns st0 st c s l ->
  exists st',
    runs (set_actual_mergetype c m) st tt st' /\
    owns st0 st' c (with_actual_mergetype s m) l.
Proof.
  intros H. eexists. split.
  - unfold set_actual_mergetype.
    eapply runs_bind; [apply runs_read_set, (owns_set H)|].
    apply runs_write. eapply lookup_lt_Some, (owns_set H).
  - apply (owns_write_set _ H). reflexivity.
Qed.

Lemma add_all_spec st0 c cmds : forall st s l,
  owns st0 st c s l ->
  exists st' s',
    runs (for_each cmds (fun cmd => add c (Some (Instance cmd)))) st tt st' /\
    owns st0 st' c s' (fold_left add_cmd cmds l) /\
    meta s' = meta s.
Proof.
  induction cmds as [|cmd cmds IH]; intros st s l H.
  - exists st, s. split; [apply runs_ret | split; [exact H | reflexivity]].
  - destruct (add_spec (Instance cmd) H) as (st1 & s1 & Hr1 & H1 & Hm1).
    destruct (IH _ _ _ H1) as (st2 & s2 & Hr2 & H2 & Hm2).
    exists st2, s2. split; [|split].
    + simpl. eapply runs_bind; [exact Hr1 | exact Hr2].
    + exact H2.
    + congruence.
Qed.

Lemma get_spec st b B lb cmd :
  holds st b B lb ->
  runs (get b (Instance cmd)) st
       (find (fun thiscmd => cmd_eq thiscmd cmd) lb) st.
Proof.
  intros Hb. unfold get.
  eapply runs_bind; [apply (runs_commands_of Hb) | apply runs_ret].
Qed.

Lemma intersect_loop_spec st0 c b B lb cmds : forall st s l,
  holds st0 b B lb ->
  owns st0 st c s l ->
  exists st' s',
    runs (for_each cmds
            (fun cmd =>
               add c (Some (Instance cmd)) ;;;
               found <- get b (Instance cmd) ;;
               add c (option_map Instance found))) st tt st' /\
    owns st0 st' c s' (fold_left (intersect_step lb) cmds l) /\
    meta s' = meta s.
Proof.
  induction cmds as [|cmd cmds IH]; intros st s l Hb H.
  - exists st, s. split; [apply runs_ret | split; [exact H | reflexivity]].
  - destruct (add_spec (Instance cmd) H) as (st1 & s1 & Hr1 & H1 & Hm1).
    pose proof (get_spec _ _ _ _ cmd (owns_old H1 Hb)) as Hg.
    simpl in H1.
    assert (exists st2 s2,
      runs (add c (option_map Instance
                     (find (fun thiscmd => cmd_eq thiscmd cmd) lb))) st1 tt st2 /\
      owns st0 st2 c s2 (intersect_step lb l cmd) /\ meta s2 = meta s1)
      as (st2 & s2 & Hr2 & H2 & Hm2).
    { unfold intersect_step.
      destruct (find (fun thiscmd => cmd_eq thiscmd cmd) lb) as [y|]; simpl.
      - apply (add_spec (Instance y) H1).
      - exists st1, s1. split; [apply runs_ret | split; [exact H1 | reflexivity]]. }
    destruct (IH _ _ _ Hb H2) as (st3 & s3 & Hr3 & H3 & Hm3).
    exists st3, s3. split; [|split].
    + simpl. eapply runs_bind; [|exact Hr3].
      eapply runs_bind; [exact Hr1|].
      eapply runs_bind; [exact Hg | exact Hr2].
    + exact H3.
    + congruence.
Qed.


Lemma runs_old_commands {st0 st c s l a A la} :
  owns st0 st c s l -> holds st0 a A la -> runs (commands_of a) st la st.
Proof.
  intros H Ha. apply (runs_commands_of (owns_old H Ha)).
Qed.

Lemma runs_old_set {st0 st c s l a A la} :
  owns st0 st c s l -> holds st0 a A la -> runs (read_set a) st A st.
Proof.
  intros H Ha. apply runs_read_set, (owns_old H Ha).
Qed.

Lemma union_spec st0 a b A B la lb dup :
  holds st0 a A la -> holds st0 b B lb ->
  exists c st s,
    runs (union a b dup) st0 c st /\
    owns st0 st c s (union_cmds la lb dup (priority A =? priority B)%Z) /\
    meta s = meta (with_actual_mergetype A "Union").
Proof.
  intros Ha Hb.
  destruct (copy_this_spec st0 a A (proj1 Ha)) as (c & st1 & s1 & Hr1 & H1 & Hm1).
  destruct (set_commands_spec la H1) as (st2 & s2 & Hr2 & H2 & Hm2).
  destruct (extend_commands_spec (if dup && (priority A =? priority B)%Z then lb
               else List.filter (fun cmd => negb (contains_cmd la cmd)) lb) H2)
    as (st3 & Hr3 & H3).
  exists c, st3, s2. split; [|split].
  - unfold union. eapply runs_bind; [exact Hr1|].
    eapply runs_bind; [apply (runs_old_commands H1 Ha)|].
    eapply runs_bind; [exact Hr2|].
    eapply runs_bind; [apply (runs_old_set H2 Ha)|].
    eapply runs_bind; [apply (runs_old_set H2 Hb)|].
    eapply runs_bind; [|apply runs_ret].
    destruct (dup && (priority A =? priority B)%Z).
    + eapply runs_bind; [apply (runs_old_commands H2 Hb)|].
      exact Hr3.
    + eapply runs_bind; [apply (runs_old_commands H2 Hb)|].
      eapply runs_bind; [apply (runs_old_commands H2 Ha)|].
      exact Hr3.
  - exact H3.
  - congruence.
Qed.

Lemma intersect_spec st0 a b A B la lb dup :
  holds st0 a A la -> holds st0 b B lb ->
  exists c st s,
    runs (intersect a b dup) st0 c st /\
    owns st0 st c s (intersect_cmds la lb dup (priority A =? priority B)%Z) /\
    meta s = meta (with_actual_mergetype A "Union").
Proof.
  intros Ha Hb.
  destruct (copy_this_spec st0 a A (proj1 Ha)) as (c & st1 & s1 & Hr1 & H1 & Hm1).
  unfold intersect, intersect_cmds.
  destruct (dup && (priority A =? priority B)%Z) eqn:E.
  - destruct (intersect_loop_spec st0 c b B lb
                (List.filter (fun cmd => contains_cmd lb cmd) la) _ _ _ Hb H1)
      as (st2 & s2 & Hr2 & H2 & Hm2).
    exists c, st2, s2. split; [|split; [exact H2 | congruence]].
    eapply runs_bind; [exact Hr1|].
    eapply runs_bind; [apply (runs_old_set H1 Ha)|].
    eapply runs_bind; [apply (runs_old_set H1 Hb)|].
    eapply runs_bind; [|apply runs_ret].
    rewrite E.
    eapply runs_bind; [apply (runs_old_commands H1 Ha)|].
    eapply runs_bind; [apply (runs_old_commands H1 Hb)|].
    exact Hr2.
  - destruct (set_commands_spec
                (List.filter (fun cmd => contains_cmd lb cmd) la) H1)
      as (st2 & s2 & Hr2 & H2 & Hm2).
    exists c, st2, s2. split; [|split; [exact H2 | congruence]].
    eapply runs_bind; [exact Hr1|].
    eapply runs_bind; [apply (runs_old_set H1 Ha)|].
    eapply runs_bind; [apply (runs_old_set H1 Hb)|].
    eapply runs_bind; [|apply runs_ret].
    rewrite E.
    eapply runs_bind; [apply (runs_old_commands H1 Ha)|].
    eapply runs_bind; [apply (runs_old_commands H1 Hb)|].
    exact Hr2.
Qed.

Lemma replace_spec st0 a b A la dup :
  holds st0 a A la ->
  exists c st s,
    runs (replace a b dup) st0 c st /\ owns st0 st c s la /\
    meta s = meta (with_actual_mergetype A "Union").
Proof.
  intros Ha.
  destruct (copy_this_spec st0 a A (proj1 Ha)) as (c & st1 & s1 & Hr1 & H1 & Hm1).
  destruct (set_commands_spec la H1) as (st2 & s2 & Hr2 & H2 & Hm2).
  exists c, st2, s2. split; [|split; [exact H2 | congruence]].
  unfold replace. eapply runs_bind; [exact Hr1|].
  eapply runs_bind; [apply (runs_old_commands H1 Ha)|].
  eapply runs_bind; [exact Hr2 | apply runs_ret].
Qed.

Lemma remove_spec st0 a b A B la lb dup :
  holds st0 a A la -> holds st0 b B lb ->
  exists c st s,
    runs (remove a b dup) st0 c st /\ owns st0 st c s (remove_cmds la lb) /\
    meta s = meta (with_actual_mergetype A "Union").
Proof.
  intros Ha Hb.
  destruct (copy_this_spec st0 a A (proj1 Ha)) as (c & st1 & s1 & Hr1 & H1 & Hm1).
  destruct (set_commands_spec (remove_cmds la lb) H1)
    as (st2 & s2 & Hr2 & H2 & Hm2).
  exists c, st2, s2. split; [|split; [exact H2 | congruence]].
  unfold remove. eapply runs_bind; [exact Hr1|].
  eapply runs_bind; [apply (runs_old_commands H1 Hb)|].
  eapply runs_bind; [apply (runs_old_commands H1 Ha)|].
  eapply runs_bind; [exact Hr2 | apply runs_ret].
Qed.

(** Closes one case of the dispatch of lines 304-327: [spec] describes
    the operation called, [Ha] and [Hb] the operands, [Hp] the outcome
    of the comparison of priorities. *)
Ltac dispatch_case spec Ha Hb Hp :=
  let c := fresh "c" in
  let st := fresh "st" in
  let s := fresh "s" in
  let Hr := fresh "Hr" in
  let H := fresh "H" in
  let Hm := fresh "Hm" in
  destruct spec as (c & st & s & Hr & H & Hm);
  exists c, st, s; split; [|split; [exact H | exact Hm]];
  eapply runs_bind; [apply runs_read_set, (proj1 Ha)|];
  eapply runs_bind; [apply runs_read_set, (proj1 Hb)|];
  rewrite Hp;
  repeat match goal with
         | E : String.eqb ?m _ = _ |- context [String.eqb ?m' _] =>
             change m' with m; rewrite E
         end;
  eapply runs_bind; [exact Hr | apply runs_ret].

(** Lines 304-327 build a new set with the commands [policy_cmds] and the
    settings of [settings_from], and report the merge type applied. *)
Lemma merge_by_priority_spec st0 a b A B la lb :
  holds st0 a A la -> holds st0 b B lb ->
  exists c st s,
    runs (merge_by_priority a b) st0 (c, applied_mergetype A B) st /\
    owns st0 st c s (policy_cmds A B la lb) /\
    meta s = meta (with_actual_mergetype (settings_from A B) "Union").
Proof.
  intros Ha Hb.
  unfold merge_by_priority, policy_cmds, settings_from, applied_mergetype.
  destruct (priority B <=? priority A)%Z eqn:Hp.
  - fold (effective_mergetype A B).
    destruct (String.eqb (effective_mergetype A B) "Intersect") eqn:E1;
      [|destruct (String.eqb (effective_mergetype A B) "Replace") eqn:E2;
        [|destruct (String.eqb (effective_mergetype A B) "Remove") eqn:E3]].
    + dispatch_case (intersect_spec st0 a b A B la lb (duplicates B) Ha Hb)
                    Ha Hb Hp.
    + dispatch_case (replace_spec st0 a b A la (duplicates B) Ha) Ha Hb Hp.
    + dispatch_case (remove_spec st0 a b A B la lb (duplicates B) Ha Hb)
                    Ha Hb Hp.
    + dispatch_case (union_spec st0 a b A B la lb (duplicates B) Ha Hb)
                    Ha Hb Hp.
  - fold (effective_mergetype B A).
    destruct (String.eqb (effective_mergetype B A) "Intersect") eqn:E1;
      [|destruct (String.eqb (effective_mergetype B A) "Replace") eqn:E2;
        [|destruct (String.eqb (effective_mergetype B A) "Remove") eqn:E3]].
    + assert (E3 : String.eqb (effective_mergetype B A) "Remove" = false)
        by (apply String.eqb_eq in E1; rewrite E1; reflexivity).
      rewrite E3.
      dispatch_case (intersect_spec st0 b a B A lb la (duplicates A) Hb Ha)
                    Ha Hb Hp.
    + assert (E3 : String.eqb (effective_mergetype B A) "Remove" = false)
        by (apply String.eqb_eq in E2; rewrite E2; reflexivity).
      rewrite E3.
      dispatch_case (replace_spec st0 b a B lb (duplicates A) Hb) Ha Hb Hp.
    + dispatch_case (remove_spec st0 a b A B la lb (duplicates A) Ha Hb)
                    Ha Hb Hp.
    + dispatch_case (union_spec st0 b a B A lb la (duplicates A) Hb Ha)
                    Ha Hb Hp.
Qed.

(** The merge operator on a present right operand: a new set holding
    [merged_cmds], every earlier object untouched. *)
Lemma add_operator_spec st0 a b A B la lb :
  holds st0 a A la -> holds st0 b B lb ->
  exists c st s,
    runs (__add__ a (Some b)) st0 c st /\
    owns st0 st c s (merged_cmds A B la lb) /\
    meta s = meta (with_actual_mergetype (settings_from A B)
                                         (applied_mergetype A B)).
Proof.
  intros Ha Hb.
  destruct (merge_by_priority_spec st0 a b A B la lb Ha Hb)
    as (c & st1 & s1 & Hr1 & H1 & Hm1).
  destruct (set_actual_mergetype_spec (applied_mergetype A B) H1)
    as (st2 & Hr2 & H2).
  destruct (add_all_spec st0 c (List.filter is_system la ++ List.filter is_system lb)
              _ _ _ H2) as (st3 & s3 & Hr3 & H3 & Hm3).
  exists c, st3, s3. split; [|split].
  - unfold __add__.
    eapply runs_bind.
    { unfold get_system_cmds.
      eapply runs_bind; [apply (runs_commands_of Ha) | apply runs_ret]. }
    eapply runs_bind.
    { unfold get_system_cmds.
      eapply runs_bind; [apply (runs_commands_of Hb) | apply runs_ret]. }
    eapply runs_bind; [exact Hr1|]. simpl.
    eapply runs_bind; [exact Hr2|].
    eapply runs_bind; [exact Hr3 | apply runs_ret].
  - exact H3.
  - rewrite Hm3. unfold meta, with_commands, with_actual_mergetype in *.
    simpl in *. congruence.
Qed.

End StoreLogic.

(** ** Command sequences and their keys *)

Section CommandLists.
Import cmdset.

Lemma cmd_eq_iff a b : cmd_eq a b = true <-> cmd_key a = cmd_key b.
Proof. unfold cmd_eq. apply String.eqb_eq. Qed.

Lemma same_elem_key x y : same_elem x y = true -> cmd_key x = cmd_key y.
Proof.
  unfold same_elem. intros H. apply andb_true_iff in H as [_ H].
  apply cmd_eq_iff, H.
Qed.

Lemma in_keys k l : In k (keys l) <-> exists c, In c l /\ cmd_key c = k.
Proof.
  unfold keys. rewrite in_map_iff. split; intros (c & H1 & H2); exists c; auto.
Qed.

Lemma contains_cmd_iff l x :
  contains_cmd l x = true <-> In (cmd_key x) (keys l).
Proof.
  unfold contains_cmd. rewrite existsb_exists, in_keys.
  split; intros (c & Hc & E); exists c; split; auto; apply cmd_eq_iff; auto.
Qed.

Lemma contains_cmd_false l x :
  contains_cmd l x = false <-> ~ In (cmd_key x) (keys l).
Proof.
  rewrite <- contains_cmd_iff. destruct (contains_cmd l x); split; congruence.
Qed.

Lemma keys_filter_in l1 l2 k :
  In k (keys (List.filter (fun cmd => contains_cmd l2 cmd) l1)) <->
  In k (keys l1) /\ In k (keys l2).
Proof.
  split.
  - intros H. apply in_keys in H as (c & Hc & <-).
    apply filter_In in Hc as [Hc Hin]. apply contains_cmd_iff in Hin.
    split; [apply in_keys; exists c; auto | exact Hin].
  - intros [H1 H2]. apply in_keys in H1 as (c & Hc & <-).
    apply in_keys. exists c. split; [|reflexivity].
    apply filter_In. split; [exact Hc | apply contains_cmd_iff, H2].
Qed.

Lemma keys_filter_out l1 l2 k :
  In k (keys (List.filter (fun cmd => negb (contains_cmd l2 cmd)) l1)) <->
  In k (keys l1) /\ ~ In k (keys l2).
Proof.
  split.
  - intros H. apply in_keys in H as (c & Hc & <-).
    apply filter_In in Hc as [Hc Hin].
    apply negb_true_iff, contains_cmd_false in Hin.
    split; [apply in_keys; exists c; auto | exact Hin].
  - intros [H1 H2]. apply in_keys in H1 as (c & Hc & <-).
    apply in_keys. exists c. split; [|reflexivity].
    apply filter_In. split; [exact Hc |].
    apply negb_true_iff, contains_cmd_false, H2.
Qed.

Lemma keys_app l1 l2 k : In k (keys (l1 ++ l2)) <-> In k (keys l1) \/ In k (keys l2).
Proof. unfold keys. rewrite map_app. apply in_app_iff. Qed.

(** *** Reading a list back from a set *)

Lemma set_insert_in seen x y :
  In y (set_insert seen x) -> In y seen \/ y = x.
Proof.
  unfold set_insert. destruct (existsb (same_elem x) seen); [auto|].
  rewrite in_app_iff. simpl. intuition auto.
Qed.

Lemma set_insert_keys seen x k :
  In k (keys (set_insert seen x)) <-> In k (keys seen) \/ k = cmd_key x.
Proof.
  unfold set_insert. destruct (existsb (same_elem x) seen) eqn:E.
  - split; [auto|]. intros [H| ->]; [exact H|].
    apply existsb_exists in E as (y & Hy & Hs).
    apply in_keys. exists y. split; [exact Hy|].
    symmetry. apply same_elem_key, Hs.
  - rewrite keys_app. simpl. intuition auto.
Qed.

Lemma set_insert_keeps seen x y : In y seen -> In y (set_insert seen x).
Proof.
  unfold set_insert. destruct (existsb (same_elem x) seen); [auto|].
  intros H. apply in_app_iff. auto.
Qed.

Lemma fold_set_insert_in l : forall acc y,
  In y (fold_left set_insert l acc) -> In y acc \/ In y l.
Proof.
  induction l as [|x l IH]; simpl; intros acc y H; [auto|].
  apply IH in H as [H|H]; [|auto].
  apply set_insert_in in H. intuition auto.
Qed.

Lemma fold_set_insert_keys l : forall acc k,
  In k (keys (fold_left set_insert l acc)) <-> In k (keys acc) \/ In k (keys l).
Proof.
  induction l as [|x l IH]; simpl; intros acc k; [intuition auto|].
  rewrite IH, set_insert_keys. intuition auto.
Qed.

Lemma fold_set_insert_keeps l : forall acc y,
  In y acc -> In y (fold_left set_insert l acc).
Proof.
  induction l as [|x l IH]; simpl; intros acc y H; [auto|].
  apply IH, set_insert_keeps, H.
Qed.

Lemma list_of_set_in l y : In y (list_of_set l) -> In y l.
Proof.
  intros H. apply fold_set_insert_in in H as [[]|H]. exact H.
Qed.

Lemma list_of_set_keys l k : In k (keys (list_of_set l)) <-> In k (keys l).
Proof.
  unfold list_of_set. rewrite fold_set_insert_keys. simpl. intuition auto.
Qed.

Lemma add_cmd_in l x y : In y (add_cmd l x) -> In y l \/ y = x.
Proof.
  intros H. apply list_of_set_in, in_app_iff in H. simpl in H. intuition auto.
Qed.

Lemma add_cmd_keys l x k :
  In k (keys (add_cmd l x)) <-> In k (keys l) \/ k = cmd_key x.
Proof.
  unfold add_cmd. rewrite list_of_set_keys, keys_app. simpl. intuition auto.
Qed.

Lemma add_all_in cmds : forall l y,
  In y (fold_left add_cmd cmds l) -> In y l \/ In y cmds.
Proof.
  induction cmds as [|x cmds IH]; simpl; intros l y H; [auto|].
  apply IH in H as [H|H]; [|auto].
  apply add_cmd_in in H. intuition auto.
Qed.

Lemma add_all_keys cmds : forall l k,
  In k (keys (fold_left add_cmd cmds l)) <-> In k (keys l) \/ In k (keys cmds).
Proof.
  induction cmds as [|x cmds IH]; simpl; intros l k; [intuition auto|].
  rewrite IH, add_cmd_keys. intuition auto.
Qed.

(** *** The four operations on keys *)

Lemma union_cmds_keys la lb dup tie k :
  In k (keys (union_cmds la lb dup tie)) <-> In k (keys la) \/ In k (keys lb).
Proof.
  unfold union_cmds. rewrite keys_app.
  destruct (dup && tie); [reflexivity|].
  rewrite keys_filter_out.
  destruct (in_dec string_dec k (keys la)); intuition auto.
Qed.

Lemma intersect_step_keys lb acc cmd k :
  In k (keys (intersect_step lb acc cmd)) <-> In k (keys acc) \/ k = cmd_key cmd.
Proof.
  unfold intersect_step.
  destruct (find (fun thiscmd => cmd_eq thiscmd cmd) lb) as [y|] eqn:E.
  - apply find_some in E as [_ E]. apply cmd_eq_iff in E.
    rewrite !add_cmd_keys, E. intuition auto.
  - apply add_cmd_keys.
Qed.

Lemma intersect_loop_keys lb cmds : forall acc k,
  In k (keys (fold_left (intersect_step lb) cmds acc)) <->
  In k (keys acc) \/ In k (keys cmds).
Proof.
  induction cmds as [|x cmds IH]; simpl; intros acc k; [intuition auto|].
  rewrite IH, intersect_step_keys. intuition auto.
Qed.

Lemma intersect_cmds_keys la lb dup tie k :
  In k (keys (intersect_cmds la lb dup tie)) <-> In k (keys la) /\ In k (keys lb).
Proof.
  unfold intersect_cmds. destruct (dup && tie).
  - rewrite intersect_loop_keys, keys_filter_in. simpl. intuition auto.
  - apply keys_filter_in.
Qed.

Lemma remove_cmds_keys la lb k :
  In k (keys (remove_cmds la lb)) <-> In k (keys lb) /\ ~ In k (keys la).
Proof. apply keys_filter_out. Qed.

End CommandLists.

(** ** The policy step and the merge, on keys *)

Section MergeFacts.
Import cmdset.

Lemma runs_det {A} {m : M A} {st x st1 y st2} :
  runs m st x st1 -> runs m st y st2 -> x = y /\ st1 = st2.
Proof. unfold runs. intros H1 H2. rewrite H1 in H2. inversion H2. auto. Qed.

Lemma holds_det {st r s l s' l'} :
  holds st r s l -> holds st r s' l' -> s = s' /\ l = l'.
Proof.
  intros [H1 H2] [H3 H4]. rewrite H1 in H3. inversion H3; subst.
  rewrite H2 in H4. inversion H4. auto.
Qed.

Lemma policy_of_union mt :
  policy_of mt = PolicyUnion ->
  String.eqb mt "Intersect" = false /\ String.eqb mt "Replace" = false /\
  String.eqb mt "Remove" = false.
Proof.
  unfold policy_of.
  destruct (String.eqb mt "Intersect"); [discriminate|].
  destruct (String.eqb mt "Replace"); [discriminate|].
  destruct (String.eqb mt "Remove"); [discriminate|]. auto.
Qed.

Lemma policy_of_intersect mt :
  policy_of mt = PolicyIntersect -> String.eqb mt "Intersect" = true.
Proof.
  unfold policy_of.
  destruct (String.eqb mt "Intersect"); [reflexivity|].
  destruct (String.eqb mt "Replace"); [discriminate|].
  destruct (String.eqb mt "Remove"); discriminate.
Qed.

Lemma policy_of_replace mt :
  policy_of mt = PolicyReplace ->
  String.eqb mt "Intersect" = false /\ String.eqb mt "Replace" = true.
Proof.
  unfold policy_of.
  destruct (String.eqb mt "Intersect"); [discriminate|].
  destruct (String.eqb mt "Replace"); [auto|].
  destruct (String.eqb mt "Remove"); discriminate.
Qed.

Lemma policy_of_remove mt :
  policy_of mt = PolicyRemove ->
  String.eqb mt "Intersect" = false /\ String.eqb mt "Replace" = false /\
  String.eqb mt "Remove" = true.
Proof.
  unfold policy_of.
  destruct (String.eqb mt "Intersect"); [discriminate|].
  destruct (String.eqb mt "Replace"); [discriminate|].
  destruct (String.eqb mt "Remove"); [auto|discriminate].
Qed.

(** The commands of the policy step, policy by policy. *)
Lemma policy_cmds_union A B la lb :
  policy_of (applied_mergetype A B) = PolicyUnion ->
  policy_cmds A B la lb =
  if (priority B <=? priority A)%Z
  then union_cmds la lb (duplicates B) (priority A =? priority B)%Z
  else union_cmds lb la (duplicates A) (priority B =? priority A)%Z.
Proof.
  intros H. apply policy_of_union in H as (E1 & E2 & E3).
  unfold policy_cmds. rewrite E1, E2, E3. reflexivity.
Qed.

Lemma policy_cmds_intersect A B la lb :
  policy_of (applied_mergetype A B) = PolicyIntersect ->
  policy_cmds A B la lb =
  if (priority B <=? priority A)%Z
  then intersect_cmds la lb (duplicates B) (priority A =? priority B)%Z
  else intersect_cmds lb la (duplicates A) (priority B =? priority A)%Z.
Proof.
  intros H. apply policy_of_intersect in H.
  unfold policy_cmds. rewrite H. reflexivity.
Qed.

Lemma policy_cmds_replace A B la lb :
  policy_of (applied_mergetype A B) = PolicyReplace ->
  policy_cmds A B la lb = if (priority B <=? priority A)%Z then la else lb.
Proof.
  intros H. apply policy_of_replace in H as (E1 & E2).
  unfold policy_cmds. rewrite E1, E2. reflexivity.
Qed.

Lemma policy_cmds_remove A B la lb :
  policy_of (applied_mergetype A B) = PolicyRemove ->
  policy_cmds A B la lb = remove_cmds la lb.
Proof.
  intros H. apply policy_of_remove in H as (E1 & E2 & E3).
  unfold policy_cmds. rewrite E1, E2, E3.
  destruct (priority B <=? priority A)%Z; reflexivity.
Qed.

Lemma policy_cmds_keys A B la lb k :
  In k (keys (policy_cmds A B la lb)) <->
  policy_keys A B (In k (keys la)) (In k (keys lb)).
Proof.
  unfold policy_keys.
  destruct (policy_of (applied_mergetype A B)) eqn:E.
  - rewrite (policy_cmds_union _ _ _ _ E).
    destruct (priority B <=? priority A)%Z; rewrite union_cmds_keys; tauto.
  - rewrite (policy_cmds_intersect _ _ _ _ E).
    destruct (priority B <=? priority A)%Z; rewrite intersect_cmds_keys; tauto.
  - rewrite (policy_cmds_replace _ _ _ _ E).
    destruct (priority B <=? priority A)%Z; tauto.
  - rewrite (policy_cmds_remove _ _ _ _ E). apply remove_cmds_keys.
Qed.

Lemma merged_cmds_keys A B la lb k :
  In k (keys (merged_cmds A B la lb)) <->
  In k (keys (policy_cmds A B la lb)) \/
  In k (keys (List.filter is_system la)) \/
  In k (keys (List.filter is_system lb)).
Proof.
  unfold merged_cmds. rewrite add_all_keys, keys_app. tauto.
Qed.

Lemma keys_system l k :
  In k (keys (List.filter is_system l)) <->
  In k (keys l) /\ is_system_key k = true.
Proof.
  split.
  - intros H. apply in_keys in H as (c & Hc & <-).
    apply filter_In in Hc as [Hc Hs]. split; [|exact Hs].
    apply in_keys. exists c. auto.
  - intros [H Hs]. apply in_keys in H as (c & Hc & <-).
    apply in_keys. exists c. split; [|reflexivity].
    apply filter_In. auto.
Qed.

Lemma keys_strip_system l k :
  In k (keys (strip_system l)) <-> In k (keys l) /\ is_system_key k = false.
Proof.
  unfold strip_system. split.
  - intros H. apply in_keys in H as (c & Hc & <-).
    apply filter_In in Hc as [Hc Hs]. apply negb_true_iff in Hs.
    split; [|exact Hs]. apply in_keys. exists c. auto.
  - intros [H Hs]. apply in_keys in H as (c & Hc & <-).
    apply in_keys. exists c. split; [|reflexivity].
    apply filter_In. split; [exact Hc|]. apply negb_true_iff, Hs.
Qed.

(** System commands take no part in what the policies filter: the keys
    of the merge are those the policy keeps of the operands without
    their system commands, and the system keys of both. *)
Lemma merged_cmds_keys_stripped A B la lb k :
  In k (keys (merged_cmds A B la lb)) <->
  In k (keys (policy_cmds A B (strip_system la) (strip_system lb))) \/
  In k (keys (List.filter is_system la)) \/
  In k (keys (List.filter is_system lb)).
Proof.
  rewrite merged_cmds_keys, !policy_cmds_keys.
  unfold policy_keys.
  destruct (policy_of (applied_mergetype A B));
    destruct (priority B <=? priority A)%Z;
    rewrite !keys_system, !keys_strip_system;
    destruct (is_system_key k); intuition congruence.
Qed.

End MergeFacts.

(** ** Properties of the merge *)

Section MergeClaims.
Import cmdset samples.

(** C6.  For every merge [A + B] with [B] present, neither operand is
    changed: every object that existed before the merge, the two sets
    and their command lists among them, is afterwards what it was, and
    the set returned is a new object, distinct from both operands, with
    a command list of its own.  (The only write to an earlier object is
    to a descriptor that lacks an [obj] attribute and is re-added as a
    system command; the sets and their sequences are not touched.) *)
Theorem merge_leaves_operands st a b A B la lb :
  holds st a A la -> holds st b B lb ->
  exists c st',
    runs (__add__ a (Some b)) st c st' /\
    holds st' a A la /\ holds st' b B lb /\
    (forall r, r < length (cells st) -> cells st' !! r = cells st !! r) /\
    cells st !! c = None /\ c <> a /\ c <> b /\
    exists C lc, holds st' c C lc /\ cells st !! commands C = None.
Proof.
  intros Ha Hb.
  destruct (add_operator_spec st a b A B la lb Ha Hb)
    as (c & st' & C & Hrun & Hown & _).
  pose proof (owns_set_fresh Hown) as Hc.
  pose proof (lookup_lt_Some _ _ _ (proj1 Ha)) as Halt.
  pose proof (lookup_lt_Some _ _ _ (proj1 Hb)) as Hblt.
  exists c, st'. repeat split.
  - exact Hrun.
  - apply (owns_old Hown Ha).
  - apply (owns_old Hown Ha).
  - apply (owns_old Hown Hb).
  - apply (owns_old Hown Hb).
  - apply (owns_frame Hown).
  - apply lookup_ge_None. exact Hc.
  - lia.
  - lia.
  - exists C, (merged_cmds A B la lb). split.
    + apply (owns_holds Hown).
    + apply lookup_ge_None, (owns_list_fresh Hown).
Qed.

Lemma merge_leaves_operands_witness :
  exists c st', runs (__add__ 1 (Some 3)) st_union c st' /\
                holds st' 1 union_A [look_a; noinput_a] /\
                holds st' 3 union_B [look_b; get_b; nomatch_b].
Proof.
  destruct (merge_leaves_operands st_union 1 3 union_A union_B
              [look_a; noinput_a] [look_b; get_b; nomatch_b])
    as (c & st' & H1 & H2 & H3 & _).
  - split; reflexivity.
  - split; reflexivity.
  - exists c, st'. auto.
Defined.

(** C3.  For every merge [A + B], whatever policy applies, every system
    command of [A] or of [B] (key longer than two characters, starting
    with two underscores) is in the result by key; and the system
    commands take no part in what the policy filters: the keys of the
    result are the keys the policy keeps of the operands without their
    system commands, together with the system keys of both operands. *)
Theorem system_commands_survive st a b A B la lb :
  holds st a A la -> holds st b B lb ->
  exists c st' C lc,
    runs (__add__ a (Some b)) st c st' /\ holds st' c C lc /\
    (forall cmd, In cmd la \/ In cmd lb -> is_system cmd = true ->
                 In (cmd_key cmd) (keys lc)) /\
    (forall k, In k (keys lc) <->
       In k (keys (policy_cmds A B (strip_system la) (strip_system lb))) \/
       In k (keys (List.filter is_system la)) \/
       In k (keys (List.filter is_system lb))).
Proof.
  intros Ha Hb.
  destruct (add_operator_spec st a b A B la lb Ha Hb)
    as (c & st' & C & Hrun & Hown & _).
  exists c, st', C, (merged_cmds A B la lb).
  split; [exact Hrun|]. split; [apply (owns_holds Hown)|]. split.
  - intros cmd Hin Hsys. apply merged_cmds_keys. right.
    destruct Hin as [Hin|Hin]; [left|right];
      apply in_keys; exists cmd; (split; [|reflexivity]);
      apply filter_In; auto.
  - intros k. apply merged_cmds_keys_stripped.
Qed.

Lemma system_commands_survive_witness :
  exists c st' C lc,
    runs (__add__ 1 (Some 3)) st_union c st' /\ holds st' c C lc /\
    In "__noinput" (keys lc) /\ In "__nomatch" (keys lc).
Proof.
  destruct (system_commands_survive st_union 1 3 union_A union_B
              [look_a; noinput_a] [look_b; get_b; nomatch_b])
    as (c & st' & C & lc & H1 & H2 & H3 & _).
  - split; reflexivity.
  - split; reflexivity.
  - exists c, st', C, lc.
    split; [exact H1|]. split; [exact H2|]. split.
    + apply (H3 noinput_a); [left; simpl; auto | reflexivity].
    + apply (H3 nomatch_b); [right; simpl; auto | reflexivity].
Defined.


(** C1 (the code departs from the claim).  The claim: under Remove the
    result is the lower-priority operand's commands without those the
    higher-priority operand has, whichever side the higher one is on.
    Here the right operand [B] (priority 1, Remove, one command "get")
    is the higher one and the left operand [A] (priority 0, one command
    "look") the lower one: the merge returns [B]'s own command "get"
    under [A]'s settings, where the claim has "look".  With the operands
    exchanged the result is "look". *)
Theorem remove_with_higher_right_operand :
  (exists c st' C,
     runs (__add__ 1 (Some 3)) st_remove c st' /\
     holds st' c C [get_b] /\ key C = "A" /\ actual_mergetype C = "Remove") /\
  (exists c st' C,
     runs (__add__ 3 (Some 1)) st_remove c st' /\
     holds st' c C [look_a] /\ key C = "B" /\ actual_mergetype C = "Remove").
Proof.
  split.
  - destruct (add_operator_spec st_remove 1 3 low_A high_remove_B
                [look_a] [get_b]) as (c & st' & C & Hrun & Hown & Hm);
      [split; reflexivity | split; reflexivity |].
    exists c, st', C. split; [exact Hrun|]. split; [|split].
    + apply (owns_holds Hown).
    + apply (f_equal key) in Hm. exact Hm.
    + apply (f_equal actual_mergetype) in Hm. exact Hm.
  - destruct (add_operator_spec st_remove 3 1 high_remove_B low_A
                [get_b] [look_a]) as (c & st' & C & Hrun & Hown & Hm);
      [split; reflexivity | split; reflexivity |].
    exists c, st', C. split; [exact Hrun|]. split; [|split].
    + apply (owns_holds Hown).
    + apply (f_equal key) in Hm. exact Hm.
    + apply (f_equal actual_mergetype) in Hm. exact Hm.
Qed.

(** C2, as stated, fails: merged with a set that holds no command, a set
    whose merge type is Intersect yields a set without commands, not its
    own contents. *)
Lemma merge_with_empty_not_identity : ~ merge_keeps_contents st_empty 1 3.
Proof.
  intros (A & la & c & st' & C & lc & Ha & Hrun & Hc & Hk).
  destruct (holds_det Ha
              (conj eq_refl eq_refl : holds st_empty 1 intersect_A [look_a]))
    as [-> ->].
  destruct (add_operator_spec st_empty 1 3 intersect_A empty_E [look_a] [])
    as (c' & st'' & C' & Hrun' & Hown & _);
    [split; reflexivity | split; reflexivity |].
  destruct (runs_det Hrun Hrun') as [-> ->].
  destruct (holds_det Hc (owns_holds Hown)) as [_ ->].
  destruct (proj2 (Hk "look")) as []. simpl. auto.
Qed.

(** C2, amended.  [A + None] returns [A] itself and changes nothing.
    [A + E], for a set [E] that holds no command, never fails and returns
    a new set.  Its keys are those of [A] when the policy applied is
    Union, or Replace with [A]'s priority at least [E]'s.  They are only
    the keys of [A]'s system commands under Intersect, under Replace
    with [E] the higher one, and under Remove with [A]'s priority at
    least [E]'s. *)
Theorem merge_with_absent_or_empty :
  (forall st a, runs (__add__ a None) st a st) /\
  (forall st a e A E la,
     holds st a A la -> holds st e E [] ->
     exists c st' C lc,
       runs (__add__ a (Some e)) st c st' /\ holds st' c C lc /\
       cells st !! c = None /\
       match policy_of (applied_mergetype A E) with
       | PolicyUnion => forall k, In k (keys lc) <-> In k (keys la)
       | PolicyReplace =>
           if (priority E <=? priority A)%Z
           then forall k, In k (keys lc) <-> In k (keys la)
           else forall k, In k (keys lc) <->
                          In k (keys (List.filter is_system la))
       | PolicyIntersect =>
           forall k, In k (keys lc) <-> In k (keys (List.filter is_system la))
       | PolicyRemove =>
           (priority E <= priority A)%Z ->
           forall k, In k (keys lc) <-> In k (keys (List.filter is_system la))
       end).
Proof.
  split; [intros st a; reflexivity|].
  intros st a e A E la Ha He.
  destruct (add_operator_spec st a e A E la [] Ha He)
    as (c & st' & C & Hrun & Hown & _).
  exists c, st', C, (merged_cmds A E la []).
  split; [exact Hrun|]. split; [apply (owns_holds Hown)|].
  split; [apply lookup_ge_None, (owns_set_fresh Hown)|].
  pose proof (fun k => merged_cmds_keys A E la [] k) as Hk.
  pose proof (fun k => policy_cmds_keys A E la [] k) as Hp.
  unfold policy_keys in Hp.
  destruct (policy_of (applied_mergetype A E)).
  - intros k. rewrite Hk, Hp, keys_system. simpl. tauto.
  - intros k. rewrite Hk, Hp, keys_system. simpl. tauto.
  - destruct (priority E <=? priority A)%Z;
      intros k; rewrite Hk, Hp, keys_system; simpl; tauto.
  - intros _ k. rewrite Hk, Hp, keys_system. simpl. tauto.
Qed.

Lemma merge_with_absent_or_empty_witness :
  exists c st' C lc,
    runs (__add__ 1 (Some 3)) st_empty c st' /\ holds st' c C lc /\
    forall k, In k (keys lc) <-> In k (keys (List.filter is_system [look_a])).
Proof.
  destruct (proj2 merge_with_absent_or_empty st_empty 1 3
              intersect_A empty_E [look_a])
    as (c & st' & C & lc & H1 & H2 & _ & H3).
  - split; reflexivity.
  - split; reflexivity.
  - exists c, st', C, lc. split; [exact H1|]. split; [exact H2|]. exact H3.
Defined.


Lemma applied_mergetype_swap A B :
  priority A <> priority B -> applied_mergetype B A = applied_mergetype A B.
Proof.
  intros Hne. unfold applied_mergetype.
  destruct (priority B <=? priority A)%Z eqn:E1;
    destruct (priority A <=? priority B)%Z eqn:E2; try reflexivity; lia.
Qed.

Lemma wins_on_overlap_union lh ll :
  wins_on_overlap lh
    (lh ++ List.filter (fun cmd => negb (contains_cmd lh cmd)) ll).
Proof.
  split.
  - intros cmd H. apply in_app_iff. auto.
  - intros cmd H Hk. apply in_app_iff in H as [H|H]; [exact H|].
    apply filter_In in H as [_ H].
    apply negb_true_iff, contains_cmd_false in H. contradiction.
Qed.

(** C4, as stated, fails of the set the merge returns, however
    descriptors hash.  First input: the higher-priority set and the
    lower one each hold a system command of key "__noinput", the two
    descriptors hashing apart; both descriptors are in the result, so
    the higher one's does not prevail on that key.  Second input: two
    sets of equal priority, the right one allowing duplicates, each with
    a "look" descriptor, the two hashing alike, and a system command on
    the left; re-adding the system command rebuilds the list through a
    set, and the right operand's "look" is not in the result. *)
Lemma union_result_not_as_stated :
  (~ exists c st' C l,
       runs (__add__ 1 (Some 3)) st_union_sys c st' /\ holds st' c C l /\
       union_as_stated union_A union_B [noinput_a] [noinput_b] l) /\
  (~ exists c st' C l,
       runs (__add__ 1 (Some 3)) st_union_tie c st' /\ holds st' c C l /\
       union_as_stated low_A dup_B [look_a; noinput_a] [look_b] l).
Proof.
  split.
  - intros (c & st' & C & l & Hrun & Hc & Hhigh & _ & _).
    destruct (add_operator_spec st_union_sys 1 3 union_A union_B
                [noinput_a] [noinput_b])
      as (c' & st'' & C' & Hrun' & Hown & _);
      [split; reflexivity | split; reflexivity |].
    destruct (runs_det Hrun Hrun') as [-> ->].
    destruct (holds_det Hc (owns_holds Hown)) as [_ ->].
    destruct Hhigh as [_ [_ Hw]]; [simpl; lia | reflexivity | reflexivity |].
    destruct (Hw noinput_b) as [E|[]];
      [right; left; reflexivity | left; reflexivity |].
    discriminate E.
  - intros (c & st' & C & l & Hrun & Hc & _ & _ & Htie).
    destruct (add_operator_spec st_union_tie 1 3 low_A dup_B
                [look_a; noinput_a] [look_b])
      as (c' & st'' & C' & Hrun' & Hown & _);
      [split; reflexivity | split; reflexivity |].
    destruct (runs_det Hrun Hrun') as [-> ->].
    destruct (holds_det Hc (owns_holds Hown)) as [_ ->].
    specialize (Htie eq_refl eq_refl look_b (or_intror (or_introl eq_refl))).
    destruct Htie as [E|[E|[]]]; discriminate E.
Qed.

(** C4, amended.  Under the Union policy: the keys of the result, of
    the Union step (lines 304-327) and of the set the merge returns
    alike, are the keys of both operands, and every command of the set
    returned is one the step built or a system command of an operand.
    When the priorities differ, the Union step builds the commands of the
    higher-priority operand followed by those of the other whose key the
    former lacks, so the higher one's descriptor prevails on every shared
    key, and it builds the same sequence whichever operand is on the
    left; in the set returned, every command that is no system command
    and whose key the higher-priority operand has is a descriptor of
    that operand.  When the priorities are equal and the right operand
    allows duplicates, the step appends all of its commands, shared keys
    or not; they are all in the set returned when no system command has
    to be re-added. *)
Theorem union_merge st a b A B la lb :
  holds st a A la -> holds st b B lb ->
  policy_of (applied_mergetype A B) = PolicyUnion ->
  exists c1 st1 C1 l1 c2 st2 C2 l2,
    runs (merge_by_priority a b) st (c1, applied_mergetype A B) st1 /\
    holds st1 c1 C1 l1 /\
    runs (__add__ a (Some b)) st c2 st2 /\ holds st2 c2 C2 l2 /\
    (forall k, In k (keys l1) <-> In k (keys la) \/ In k (keys lb)) /\
    (forall k, In k (keys l2) <-> In k (keys la) \/ In k (keys lb)) /\
    (forall cmd, In cmd l2 ->
       In cmd l1 \/ (is_system cmd = true /\ (In cmd la \/ In cmd lb))) /\
    ((priority B < priority A)%Z ->
       l1 = la ++ List.filter (fun cmd => negb (contains_cmd la cmd)) lb /\
       wins_on_overlap la l1 /\
       (forall cmd, In cmd l2 -> is_system cmd = false ->
                    In (cmd_key cmd) (keys la) -> In cmd la)) /\
    ((priority A < priority B)%Z ->
       l1 = lb ++ List.filter (fun cmd => negb (contains_cmd lb cmd)) la /\
       wins_on_overlap lb l1 /\
       (forall cmd, In cmd l2 -> is_system cmd = false ->
                    In (cmd_key cmd) (keys lb) -> In cmd lb)) /\
    (priority A <> priority B ->
       exists c3 st3 C3,
         runs (merge_by_priority b a) st (c3, applied_mergetype A B) st3 /\
         holds st3 c3 C3 l1) /\
    (priority A = priority B -> duplicates B = true ->
       l1 = la ++ lb /\
       (List.filter is_system la = [] -> List.filter is_system lb = [] ->
        l2 = la ++ lb)).
Proof.
  intros Ha Hb Hu.
  destruct (merge_by_priority_spec st a b A B la lb Ha Hb)
    as (c1 & st1 & C1 & Hr1 & Ho1 & _).
  destruct (add_operator_spec st a b A B la lb Ha Hb)
    as (c2 & st2 & C2 & Hr2 & Ho2 & _).
  exists c1, st1, C1, (policy_cmds A B la lb),
         c2, st2, C2, (merged_cmds A B la lb).
  split; [exact Hr1|]. split; [apply (owns_holds Ho1)|].
  split; [exact Hr2|]. split; [apply (owns_holds Ho2)|].
  pose proof (policy_cmds_keys A B la lb) as Hp. unfold policy_keys in Hp.
  rewrite Hu in Hp.
  split; [exact Hp|]. split.
  { intros k. rewrite merged_cmds_keys, Hp, !keys_system. tauto. }
  assert (Hin : forall cmd, In cmd (merged_cmds A B la lb) ->
            In cmd (policy_cmds A B la lb) \/
            (is_system cmd = true /\ (In cmd la \/ In cmd lb))).
  { intros cmd H. unfold merged_cmds in H.
    apply add_all_in in H as [H|H]; [auto|].
    right. apply in_app_iff in H as [H|H];
      apply filter_In in H as [H1 H2]; auto. }
  split; [exact Hin|].
  assert (Hnon : forall cmd, In cmd (merged_cmds A B la lb) ->
            is_system cmd = false -> In cmd (policy_cmds A B la lb)).
  { intros cmd H Hs. destruct (Hin cmd H) as [H'|[H' _]];
      [exact H' | congruence]. }
  rewrite (policy_cmds_union _ _ _ _ Hu) in Hnon.
  rewrite (policy_cmds_union _ _ _ _ Hu).
  split; [|split; [|split]].
  - intros Hlt. revert Hnon.
    replace (priority B <=? priority A)%Z with true by lia.
    replace (priority A =? priority B)%Z with false by lia.
    unfold union_cmds. rewrite andb_false_r. intros Hnon.
    split; [reflexivity|]. split; [apply wins_on_overlap_union|].
    intros cmd H Hs Hk.
    apply (proj2 (wins_on_overlap_union la lb) cmd (Hnon cmd H Hs) Hk).
  - intros Hlt. revert Hnon.
    replace (priority B <=? priority A)%Z with false by lia.
    replace (priority B =? priority A)%Z with false by lia.
    unfold union_cmds. rewrite andb_false_r. intros Hnon.
    split; [reflexivity|]. split; [apply wins_on_overlap_union|].
    intros cmd H Hs Hk.
    apply (proj2 (wins_on_overlap_union lb la) cmd (Hnon cmd H Hs) Hk).
  - intros Hne.
    destruct (merge_by_priority_spec st b a B A lb la Hb Ha)
      as (c3 & st3 & C3 & Hr3 & Ho3 & _).
    rewrite (applied_mergetype_swap A B Hne) in Hr3.
    exists c3, st3, C3. split; [exact Hr3|].
    replace (if (priority B <=? priority A)%Z
             then union_cmds la lb (duplicates B) (priority A =? priority B)%Z
             else union_cmds lb la (duplicates A) (priority B =? priority A)%Z)
      with (policy_cmds B A lb la); [apply (owns_holds Ho3)|].
    rewrite policy_cmds_union
      by (rewrite (applied_mergetype_swap A B Hne); exact Hu).
    destruct (priority B <=? priority A)%Z eqn:E1;
      destruct (priority A <=? priority B)%Z eqn:E2;
      try reflexivity; lia.
  - intros Heq Hdup.
    replace (priority B <=? priority A)%Z with true by lia.
    replace (priority A =? priority B)%Z with true by lia.
    unfold union_cmds. rewrite Hdup. simpl.
    split; [reflexivity|].
    intros Hsa Hsb. unfold merged_cmds. rewrite Hsa, Hsb. simpl.
    rewrite (policy_cmds_union _ _ _ _ Hu).
    replace (priority B <=? priority A)%Z with true by lia.
    replace (priority A =? priority B)%Z with true by lia.
    unfold union_cmds. rewrite Hdup. reflexivity.
Qed.

Lemma union_merge_witness :
  exists c st' C l,
    runs (__add__ 1 (Some 3)) st_union c st' /\ holds st' c C l /\
    (forall k, In k (keys l) <->
               In k (keys [look_a; noinput_a]) \/
               In k (keys [look_b; get_b; nomatch_b])) /\
    ~ In look_b l.
Proof.
  destruct (union_merge st_union 1 3 union_A union_B
              [look_a; noinput_a] [look_b; get_b; nomatch_b])
    as (c1 & st1 & C1 & l1 & c2 & st2 & C2 & l2 &
        _ & _ & H3 & H4 & _ & H6 & _ & H8 & _).
  - split; reflexivity.
  - split; reflexivity.
  - reflexivity.
  - exists c2, st2, C2, l2. split; [exact H3|]. split; [exact H4|].
    split; [exact H6|].
    intros Hin. destruct H8 as (_ & _ & Hw); [simpl; lia|].
    specialize (Hw look_b Hin eq_refl (or_introl eq_refl)).
    simpl in Hw. destruct Hw as [E|[E|[]]]; discriminate E.
Defined.


Lemma keys_filter_NoDup (f : Command -> bool) l :
  List.NoDup (keys l) -> List.NoDup (keys (List.filter f l)).
Proof.
  induction l as [|x l IH]; simpl; intros H; [constructor|].
  inversion H as [|? ? Hx Hl]; subst.
  destruct (f x); simpl; [|auto].
  constructor; [|auto].
  intros Hin. apply Hx. apply in_keys in Hin as (c & Hc & E).
  apply filter_In in Hc as [Hc _]. apply in_keys. exists c. auto.
Qed.

Lemma filter_shared_length lh ll :
  List.NoDup (keys lh) ->
  length (List.filter (fun cmd => contains_cmd ll cmd) lh) <= length ll.
Proof.
  intros Hnd.
  rewrite <- (length_map cmd_key (List.filter _ lh)).
  rewrite <- (length_map cmd_key ll).
  apply NoDup_incl_length; [apply (keys_filter_NoDup _ _ Hnd)|].
  intros k Hk. apply keys_filter_in in Hk as [_ Hk]. exact Hk.
Qed.

(** C5, as stated, fails.  Two sets of equal priority, the right one
    allowing duplicates, each with one command of key "look": the claim
    asks for both descriptors in the result and for at most one command
    in it.  (Here the two descriptors hash alike and the code keeps the
    left one; did they hash apart it would keep both.) *)
Lemma intersect_tie_not_as_stated :
  ~ exists c st' C l,
      runs (__add__ 1 (Some 3)) st_tie c st' /\ holds st' c C l /\
      intersect_as_stated intersect_A dup_B [look_a] [look_b] l.
Proof.
  intros (c & st' & C & l & Hrun & Hc & _ & Hlen & Hdup).
  destruct (add_operator_spec st_tie 1 3 intersect_A dup_B [look_a] [look_b])
    as (c' & st'' & C' & Hrun' & Hown & _);
    [split; reflexivity | split; reflexivity |].
  destruct (runs_det Hrun Hrun') as [-> ->].
  destruct (holds_det Hc (owns_holds Hown)) as [_ ->].
  destruct (Hdup eq_refl look_a look_b) as [_ Hb]; simpl; auto.
  simpl in Hb. destruct Hb as [Hb|[]]. discriminate Hb.
Qed.

(** C5, amended.  Under the Intersect policy the keys of the set the
    Intersect step builds (lines 304-327) are exactly the keys the two
    operands share, and the keys of the set returned are those and the
    keys of the system commands of both operands.  Unless the priorities
    are equal and the right operand allows duplicates, the step keeps
    the higher-priority operand's descriptors (the left one's on a tie)
    of the shared keys and nothing else: at most as many commands as
    that operand has and, when its keys are distinct, at most as many as
    the smaller operand has. *)
Theorem intersect_merge st a b A B la lb :
  holds st a A la -> holds st b B lb ->
  policy_of (applied_mergetype A B) = PolicyIntersect ->
  exists c1 st1 C1 l1 c2 st2 C2 l2,
    runs (merge_by_priority a b) st (c1, applied_mergetype A B) st1 /\
    holds st1 c1 C1 l1 /\
    runs (__add__ a (Some b)) st c2 st2 /\ holds st2 c2 C2 l2 /\
    (forall k, In k (keys l1) <-> In k (keys la) /\ In k (keys lb)) /\
    (forall k, In k (keys l2) <->
       (In k (keys la) /\ In k (keys lb)) \/
       In k (keys (List.filter is_system la)) \/
       In k (keys (List.filter is_system lb))) /\
    (dup_tie A B = false ->
       let lh := if (priority B <=? priority A)%Z then la else lb in
       let ll := if (priority B <=? priority A)%Z then lb else la in
       l1 = List.filter (fun cmd => contains_cmd ll cmd) lh /\
       length l1 <= length lh /\
       (List.NoDup (keys lh) -> length l1 <= Nat.min (length la) (length lb))).
Proof.
  intros Ha Hb Hi.
  destruct (merge_by_priority_spec st a b A B la lb Ha Hb)
    as (c1 & st1 & C1 & Hr1 & Ho1 & _).
  destruct (add_operator_spec st a b A B la lb Ha Hb)
    as (c2 & st2 & C2 & Hr2 & Ho2 & _).
  exists c1, st1, C1, (policy_cmds A B la lb),
         c2, st2, C2, (merged_cmds A B la lb).
  split; [exact Hr1|]. split; [apply (owns_holds Ho1)|].
  split; [exact Hr2|]. split; [apply (owns_holds Ho2)|].
  pose proof (policy_cmds_keys A B la lb) as Hp. unfold policy_keys in Hp.
  rewrite Hi in Hp.
  split; [exact Hp|]. split.
  { intros k. rewrite merged_cmds_keys, Hp. tauto. }
  intros Hnt. rewrite (policy_cmds_intersect _ _ _ _ Hi).
  unfold dup_tie in Hnt.
  destruct (priority B <=? priority A)%Z eqn:E; cbv zeta.
  - assert (Hl1 : intersect_cmds la lb (duplicates B) (priority A =? priority B)%Z
                  = List.filter (fun cmd => contains_cmd lb cmd) la).
    { unfold intersect_cmds. rewrite andb_comm, Hnt. reflexivity. }
    rewrite Hl1. split; [reflexivity|]. split; [apply filter_length_le|].
    intros Hnd. apply Nat.min_glb; [apply filter_length_le|].
    apply (filter_shared_length _ _ Hnd).
  - assert (Hl1 : intersect_cmds lb la (duplicates A) (priority B =? priority A)%Z
                  = List.filter (fun cmd => contains_cmd la cmd) lb).
    { unfold intersect_cmds.
      replace (priority B =? priority A)%Z with false by lia.
      rewrite andb_false_r. reflexivity. }
    rewrite Hl1. split; [reflexivity|]. split; [apply filter_length_le|].
    intros Hnd. apply Nat.min_glb; [|apply filter_length_le].
    apply (filter_shared_length _ _ Hnd).
Qed.

Lemma intersect_merge_witness :
  exists c st' C l,
    runs (__add__ 1 (Some 3)) st_empty c st' /\ holds st' c C l /\
    forall k, In k (keys l) <->
      (In k (keys [look_a]) /\ In k (keys [])) \/
      In k (keys (List.filter is_system [look_a])) \/
      In k (keys (List.filter is_system [])).
Proof.
  destruct (intersect_merge st_empty 1 3 intersect_A empty_E [look_a] [])
    as (c1 & st1 & C1 & l1 & c2 & st2 & C2 & l2 & _ & _ & H3 & H4 & _ & H6 & _).
  - split; reflexivity.
  - split; reflexivity.
  - reflexivity.
  - exists c2, st2, C2, l2. split; [exact H3|]. split; [exact H4|]. exact H6.
Defined.

End MergeClaims.

Section MoreMergeFacts.
Import cmdset samples.

(** Remove applied by the left operand.  When the left operand has the
    higher or the same priority and its merge type for the right one is
    Remove, the Remove step keeps exactly the right operand's commands
    whose key the left operand lacks, and the set returned adds only the
    system commands of both: no command of the left operand is in it
    unless it is a system command. *)
Theorem remove_by_left_operand st a b A B la lb :
  holds st a A la -> holds st b B lb ->
  (priority B <= priority A)%Z ->
  policy_of (applied_mergetype A B) = PolicyRemove ->
  exists c1 st1 C1 l1 c2 st2 C2 l2,
    runs (merge_by_priority a b) st (c1, applied_mergetype A B) st1 /\
    holds st1 c1 C1 l1 /\
    runs (__add__ a (Some b)) st c2 st2 /\ holds st2 c2 C2 l2 /\
    l1 = List.filter (fun cmd => negb (contains_cmd la cmd)) lb /\
    (forall k, In k (keys l1) <-> In k (keys lb) /\ ~ In k (keys la)) /\
    (forall k, In k (keys l2) <->
       (In k (keys lb) /\ ~ In k (keys la)) \/
       In k (keys (List.filter is_system la)) \/
       In k (keys (List.filter is_system lb))) /\
    (forall cmd, In cmd l2 -> In cmd la -> is_system cmd = true).
Proof.
  intros Ha Hb Hle Hr.
  destruct (merge_by_priority_spec st a b A B la lb Ha Hb)
    as (c1 & st1 & C1 & Hr1 & Ho1 & _).
  destruct (add_operator_spec st a b A B la lb Ha Hb)
    as (c2 & st2 & C2 & Hr2 & Ho2 & _).
  exists c1, st1, C1, (policy_cmds A B la lb),
         c2, st2, C2, (merged_cmds A B la lb).
  split; [exact Hr1|]. split; [apply (owns_holds Ho1)|].
  split; [exact Hr2|]. split; [apply (owns_holds Ho2)|].
  pose proof (policy_cmds_remove A B la lb Hr) as Hl1.
  split; [exact Hl1|].
  split; [intros k; rewrite Hl1; apply remove_cmds_keys|].
  split.
  - intros k. rewrite merged_cmds_keys, Hl1, remove_cmds_keys. tauto.
  - intros cmd Hin Hla. unfold merged_cmds in Hin.
    apply add_all_in in Hin as [Hin|Hin].
    + rewrite Hl1 in Hin. apply filter_In in Hin as [_ Hin].
      apply negb_true_iff, contains_cmd_false in Hin.
      exfalso. apply Hin. apply in_keys. exists cmd. auto.
    + apply in_app_iff in Hin as [Hin|Hin];
        apply filter_In in Hin as [_ Hin]; exact Hin.
Qed.

Lemma remove_by_left_operand_witness :
  exists c st' C,
    runs (__add__ 3 (Some 1)) st_remove c st' /\ holds st' c C [look_a].
Proof.
  destruct (remove_by_left_operand st_remove 3 1 high_remove_B low_A
              [get_b] [look_a])
    as (c1 & st1 & C1 & l1 & c2 & st2 & C2 & l2 & _ & _ & H3 & H4 & _).
  - split; reflexivity.
  - split; reflexivity.
  - simpl. lia.
  - reflexivity.
  - exists c2, st2, C2. split; [exact H3|].
    destruct (add_operator_spec st_remove 3 1 high_remove_B low_A
                [get_b] [look_a])
      as (c & st' & C & Hrun & Hown & _); [split; reflexivity..|].
    destruct (runs_det H3 Hrun) as [-> ->].
    destruct (holds_det H4 (owns_holds Hown)) as [-> ->].
    apply (owns_holds Hown).
Defined.

(** Replace.  Under the Replace policy the Replace step builds a set
    with exactly the commands of the higher-priority operand (the left
    one on a tie), whatever the other operand holds; the set returned
    has their keys and the keys of the other operand's system
    commands. *)
Theorem replace_merge st a b A B la lb :
  holds st a A la -> holds st b B lb ->
  policy_of (applied_mergetype A B) = PolicyReplace ->
  exists c1 st1 C1 l1 c2 st2 C2 l2,
    runs (merge_by_priority a b) st (c1, applied_mergetype A B) st1 /\
    holds st1 c1 C1 l1 /\
    runs (__add__ a (Some b)) st c2 st2 /\ holds st2 c2 C2 l2 /\
    l1 = (if (priority B <=? priority A)%Z then la else lb) /\
    (forall k, In k (keys l2) <->
       In k (keys l1) \/
       In k (keys (List.filter is_system
                     (if (priority B <=? priority A)%Z then lb else la)))).
Proof.
  intros Ha Hb Hr.
  destruct (merge_by_priority_spec st a b A B la lb Ha Hb)
    as (c1 & st1 & C1 & Hr1 & Ho1 & _).
  destruct (add_operator_spec st a b A B la lb Ha Hb)
    as (c2 & st2 & C2 & Hr2 & Ho2 & _).
  exists c1, st1, C1, (policy_cmds A B la lb),
         c2, st2, C2, (merged_cmds A B la lb).
  split; [exact Hr1|]. split; [apply (owns_holds Ho1)|].
  split; [exact Hr2|]. split; [apply (owns_holds Ho2)|].
  pose proof (policy_cmds_replace A B la lb Hr) as Hl1.
  split; [exact Hl1|].
  intros k. rewrite merged_cmds_keys, Hl1.
  destruct (priority B <=? priority A)%Z; rewrite !keys_system; tauto.
Qed.

Lemma replace_merge_witness :
  exists c st' C l,
    runs (__add__ 1 (Some 3)) st_replace c st' /\ holds st' c C l /\
    forall k, In k (keys l) <-> In k ["look"; "__nomatch"].
Proof.
  destruct (replace_merge st_replace 1 3 replace_A union_B
              [look_a] [look_b; get_b; nomatch_b])
    as (c1 & st1 & C1 & l1 & c2 & st2 & C2 & l2 & _ & _ & H3 & H4 & H5 & H6).
  - split; reflexivity.
  - split; reflexivity.
  - reflexivity.
  - exists c2, st2, C2, l2. split; [exact H3|]. split; [exact H4|].
    intros k. rewrite H6, H5. simpl. tauto.
Defined.

End MoreMergeFacts.

(** ** Running the methods on any set *)

Section SetMethods.
Import cmdset.

Lemma holds_owns st c s l : holds st c s l -> owns (mkStore [] ∅) st c s l.
Proof.
  intros [Hs Hl]. split; simpl; auto.
  - intros r Hr. lia.
  - lia.
  - lia.
  - intros i v H. rewrite lookup_empty in H. discriminate.
Qed.

Lemma holds_distinct st c s l : holds st c s l -> c <> commands s.
Proof. intros [Hs Hl] E. rewrite E in Hs. congruence. Qed.

(** The store [add] leaves. *)
Lemma add_run st c s l x :
  holds st c s l ->
  exists st',
    runs (add c (Some x)) st tt st' /\
    cells st' =
      <[c := PyCmdSet (with_commands s (length (cells st)))]>
        (<[commands s := PyList (l ++ [instantiate x])]> (cells st)
         ++ [PyList (add_cmd l (instantiate x))]) /\
    cmd_obj st' =
      match cmd_obj st !! cmd_id (instantiate x) with
      | Some _ => cmd_obj st
      | None => <[cmd_id (instantiate x) := cmdsetobj s]> (cmd_obj st)
      end.
Proof.
  intros H. pose proof (holds_distinct _ _ _ _ H) as Hd. destruct H as [Hs Hl].
  pose proof (lookup_lt_Some _ _ _ Hs) as Hclt.
  pose proof (lookup_lt_Some _ _ _ Hl) as Hllt.
  set (cmd := instantiate x).
  assert (Hdo : exists st1,
    runs (default_obj cmd (cmdsetobj s)) st tt st1 /\ cells st1 = cells st /\
    cmd_obj st1 = match cmd_obj st !! cmd_id cmd with
                  | Some _ => cmd_obj st
                  | None => <[cmd_id cmd := cmdsetobj s]> (cmd_obj st)
                  end).
  { unfold runs, default_obj.
    destruct (cmd_obj st !! cmd_id cmd); eexists;
      (split; [reflexivity | split; reflexivity]). }
  destruct Hdo as (st1 & Hr1 & Hc1 & Ho1).
  eexists. split; [|split].
  - unfold add. fold cmd.
    eapply runs_bind; [apply runs_read_set, Hs|].
    eapply runs_bind; [exact Hr1|].
    eapply runs_bind; [apply runs_read_list; rewrite Hc1; exact Hl|].
    eapply runs_bind; [apply runs_write; rewrite Hc1; exact Hllt|].
    eapply runs_bind.
    { apply runs_read_list. simpl. rewrite Hc1.
      apply list_lookup_insert_eq. exact Hllt. }
    eapply runs_bind; [apply runs_alloc|].
    eapply runs_bind.
    { apply runs_read_set. simpl. rewrite Hc1.
      rewrite lookup_app_l by (rewrite length_insert; exact Hclt).
      rewrite list_lookup_insert_ne by auto. exact Hs. }
    apply runs_write. simpl. rewrite length_app, length_insert, Hc1. lia.
  - simpl. rewrite Hc1, length_insert. reflexivity.
  - simpl. exact Ho1.
Qed.

Lemma add_run_holds st c s l x st' :
  holds st c s l -> runs (add c (Some x)) st tt st' ->
  holds st' c (with_commands s (length (cells st))) (add_cmd l (instantiate x)).
Proof.
  intros H Hr. destruct (add_run _ _ _ _ x H) as (st2 & Hr2 & Hc & _).
  destruct (runs_det Hr Hr2) as [_ ->].
  destruct H as [Hs Hl].
  pose proof (lookup_lt_Some _ _ _ Hs) as Hclt.
  split; rewrite Hc; simpl.
  - apply list_lookup_insert_eq. rewrite length_app, length_insert. simpl. lia.
  - rewrite list_lookup_insert_ne by lia.
    rewrite <- (length_insert (cells st) (commands s) (PyList (l ++ [instantiate x]))).
    apply list_lookup_middle. reflexivity.
Qed.

End SetMethods.

(** ** Lists read back from a set *)

Section SetLists.
Import cmdset.

Lemma same_elem_refl x : same_elem x x = true.
Proof.
  unfold same_elem, cmd_eq. rewrite Z.eqb_refl, String.eqb_refl. reflexivity.
Qed.

Lemma same_elem_sym x y : same_elem x y = same_elem y x.
Proof.
  unfold same_elem, cmd_eq. rewrite Z.eqb_sym, String.eqb_sym. reflexivity.
Qed.

Lemma same_elem_hash x y :
  cmd_key x = cmd_key y -> cmd_hash x = cmd_hash y -> same_elem x y = true.
Proof.
  intros Hk Hh. unfold same_elem, cmd_eq. rewrite Hk, Hh.
  rewrite Z.eqb_refl, String.eqb_refl. reflexivity.
Qed.

Lemma existsb_false {A} (f : A -> bool) l :
  existsb f l = false <-> forall y, In y l -> f y = false.
Proof.
  induction l as [|x l IH]; simpl.
  - split; [intros _ y [] | reflexivity].
  - rewrite orb_false_iff, IH. split.
    + intros [H1 H2] y [<-|Hy]; auto.
    + intros H. split; [apply H; auto | intros y Hy; apply H; auto].
Qed.

Lemma distinct_elems_snoc l x :
  distinct_elems (l ++ [x]) <->
  distinct_elems l /\ forall y, In y l -> same_elem x y = false.
Proof.
  induction l as [|h l IH]; simpl.
  - split; [intros _; split; [exact I | intros y []] | intros _; split; [intros y [] | exact I]].
  - rewrite IH. split.
    + intros (H1 & H2 & H3). split; [split; [|exact H2]|].
      * intros y Hy. apply H1, in_app_iff. auto.
      * intros y [<-|Hy]; [|auto]. apply H1, in_app_iff. simpl. auto.
    + intros ((H1 & H2) & H3). split; [|split; [exact H2|]].
      * intros y Hy. apply in_app_iff in Hy as [Hy|[<-|[]]]; auto.
      * intros y Hy. apply H3. auto.
Qed.

Lemma distinct_elems_app_l l1 l2 : distinct_elems (l1 ++ l2) -> distinct_elems l1.
Proof.
  induction l1 as [|h l1 IH]; simpl; [auto|].
  intros [H1 H2]. split; [|auto].
  intros y Hy. apply H1, in_app_iff. auto.
Qed.

Lemma set_insert_distinct seen x :
  distinct_elems seen -> distinct_elems (set_insert seen x).
Proof.
  intros H. unfold set_insert.
  destruct (existsb (same_elem x) seen) eqn:E; [exact H|].
  apply distinct_elems_snoc. split; [exact H|].
  apply (proj1 (existsb_false _ _) E).
Qed.

Lemma fold_set_insert_distinct l : forall acc,
  distinct_elems acc -> distinct_elems (fold_left set_insert l acc).
Proof.
  induction l as [|x l IH]; simpl; intros acc H; [exact H|].
  apply IH, set_insert_distinct, H.
Qed.

(** A list read back from a set holds no two entries that a set would
    take for one. *)
Lemma list_of_set_distinct l : distinct_elems (list_of_set l).
Proof. apply fold_set_insert_distinct. exact I. Qed.

Lemma fold_set_insert_fixed l : forall acc,
  distinct_elems (acc ++ l) -> fold_left set_insert l acc = acc ++ l.
Proof.
  induction l as [|x l IH]; simpl; intros acc H.
  - rewrite app_nil_r. reflexivity.
  - replace (acc ++ x :: l) with ((acc ++ [x]) ++ l) in *
      by (rewrite <- app_assoc; reflexivity).
    pose proof (distinct_elems_app_l _ _ H) as Hx.
    apply distinct_elems_snoc in Hx as [_ Hx].
    unfold set_insert at 2.
    rewrite (proj2 (existsb_false _ _) Hx). apply IH, H.
Qed.

(** Such a list goes through a set unchanged. *)
Lemma list_of_set_fixed l : distinct_elems l -> list_of_set l = l.
Proof. intros H. apply (fold_set_insert_fixed l []). exact H. Qed.

Lemma add_cmd_insert l x : add_cmd l x = set_insert (list_of_set l) x.
Proof. unfold add_cmd, list_of_set. rewrite fold_left_app. reflexivity. Qed.

Lemma add_cmd_distinct l x : distinct_elems (add_cmd l x).
Proof. apply list_of_set_distinct. Qed.

Lemma add_cmd_present l x : existsb (same_elem x) (add_cmd l x) = true.
Proof.
  rewrite add_cmd_insert. unfold set_insert.
  destruct (existsb (same_elem x) (list_of_set l)) eqn:E; [exact E|].
  rewrite existsb_app. simpl. rewrite same_elem_refl, orb_true_r. reflexivity.
Qed.

Lemma add_cmd_again l x : add_cmd (add_cmd l x) x = add_cmd l x.
Proof.
  rewrite (add_cmd_insert (add_cmd l x)).
  rewrite (list_of_set_fixed _ (add_cmd_distinct l x)).
  unfold set_insert. rewrite add_cmd_present. reflexivity.
Qed.

Lemma hash_by_key_incl l l' :
  (forall x, In x l' -> In x l) -> hash_by_key l -> hash_by_key l'.
Proof. intros Hi H x y Hx Hy. apply H; auto. Qed.

Lemma distinct_keys_NoDup l :
  hash_by_key l -> distinct_elems l -> List.NoDup (keys l).
Proof.
  induction l as [|x l IH]; simpl; intros Hh Hd; [constructor|].
  destruct Hd as [H1 H2]. constructor.
  - intros Hin. apply in_keys in Hin as (y & Hy & Hk).
    pose proof (H1 y Hy) as Hf.
    rewrite (same_elem_hash y x) in Hf; [discriminate | exact Hk|].
    apply Hh; simpl; auto.
  - apply IH; [|exact H2].
    apply (hash_by_key_incl (x :: l)); [simpl; auto | exact Hh].
Qed.

Lemma NoDup_keys_distinct l : List.NoDup (keys l) -> distinct_elems l.
Proof.
  induction l as [|x l IH]; simpl; intros H; [exact I|].
  inversion H as [|? ? Hx Hl]; subst. split; [|auto].
  intros y Hy. destruct (same_elem y x) eqn:E; [|reflexivity].
  exfalso. apply Hx. apply in_keys. exists y. split; [exact Hy|].
  apply same_elem_key, E.
Qed.

Lemma add_cmd_incl l x y : In y (add_cmd l x) -> In y (l ++ [x]).
Proof. apply list_of_set_in. Qed.

Lemma add_cmd_NoDup l x :
  hash_by_key (l ++ [x]) -> List.NoDup (keys (add_cmd l x)).
Proof.
  intros H. apply distinct_keys_NoDup; [|apply add_cmd_distinct].
  apply (hash_by_key_incl (l ++ [x])); [apply add_cmd_incl | exact H].
Qed.

Lemma set_insert_length seen x : length (set_insert seen x) <= S (length seen).
Proof.
  unfold set_insert. destruct (existsb _ _); [lia|].
  rewrite length_app. simpl. lia.
Qed.

Lemma fold_set_insert_length l : forall acc,
  length (fold_left set_insert l acc) <= length acc + length l.
Proof.
  induction l as [|x l IH]; simpl; intros acc; [lia|].
  etransitivity; [apply IH|]. pose proof (set_insert_length acc x). lia.
Qed.

Lemma add_cmd_length l x : length (add_cmd l x) <= S (length l).
Proof.
  unfold add_cmd, list_of_set.
  etransitivity; [apply fold_set_insert_length|]. rewrite length_app. simpl. lia.
Qed.

End SetLists.

(** ** The methods of a set *)

Section AddMethod.
Import cmdset samples.

Lemma contains_run st c s l y :
  holds st c s l -> runs (__contains__ c y) st (contains_cmd l y) st.
Proof.
  intros H. unfold __contains__.
  eapply runs_bind; [apply (runs_commands_of H) | apply runs_ret].
Qed.

Lemma get_run st c s l x :
  holds st c s l ->
  runs (get c x) st (find (fun thiscmd => cmd_eq thiscmd (instantiate x)) l) st.
Proof.
  intros H. unfold get.
  eapply runs_bind; [apply (runs_commands_of H) | apply runs_ret].
Qed.

Lemma find_key l cmd :
  In (cmd_key cmd) (keys l) ->
  exists found, find (fun thiscmd => cmd_eq thiscmd cmd) l = Some found.
Proof.
  intros H. apply in_keys in H as (y & Hy & Hk).
  destruct (find (fun thiscmd => cmd_eq thiscmd cmd) l) as [f|] eqn:E; [eauto|].
  pose proof (find_none _ _ E y Hy) as Hn. simpl in Hn.
  apply cmd_eq_iff in Hk. congruence.
Qed.

Lemma same_elem_trans x y z :
  same_elem x y = true -> same_elem y z = true -> same_elem x z = true.
Proof.
  unfold same_elem, cmd_eq. intros H1 H2.
  apply andb_true_iff in H1 as [H1 H1']. apply andb_true_iff in H2 as [H2 H2'].
  apply Z.eqb_eq in H1, H2. apply String.eqb_eq in H1', H2'.
  rewrite H1, H2, H1', H2', Z.eqb_refl, String.eqb_refl. reflexivity.
Qed.

Lemma fold_set_insert_repr l : forall acc y,
  In y l \/ (exists y', In y' acc /\ same_elem y y' = true) ->
  exists y', In y' (fold_left set_insert l acc) /\ same_elem y y' = true.
Proof.
  induction l as [|x l IH]; simpl; intros acc y H.
  - destruct H as [[]|H]. exact H.
  - apply IH. destruct H as [[<-|H]|(y' & Hy' & Hs)].
    + right. unfold set_insert.
      destruct (existsb (same_elem x) acc) eqn:E.
      * apply existsb_exists in E as (y' & Hy' & Hs). eauto.
      * exists x. split; [apply in_app_iff; simpl; auto | apply same_elem_refl].
    + left. exact H.
    + right. exists y'. split; [apply set_insert_keeps, Hy' | exact Hs].
Qed.

Lemma list_of_set_repr l y :
  In y l -> exists y', In y' (list_of_set l) /\ same_elem y y' = true.
Proof. intros H. apply fold_set_insert_repr. auto. Qed.

Lemma add_cmd_known l x :
  (exists y, In y l /\ same_elem x y = true) -> add_cmd l x = list_of_set l.
Proof.
  intros (y & Hy & Hs). rewrite add_cmd_insert. unfold set_insert.
  destruct (list_of_set_repr l y Hy) as (y' & Hy' & Hs').
  replace (existsb (same_elem x) (list_of_set l)) with true; [reflexivity|].
  symmetry. apply existsb_exists. exists y'. split; [exact Hy'|].
  apply (same_elem_trans x y y'); assumption.
Qed.

(** Adding, then looking up.  After [add(cmd)] on any set, [cmd in set]
    is true and [get(cmd)] returns a stored descriptor with the key of
    [cmd]; every command stored before is still found by key; the keys
    are the old ones and that of [cmd]; the settings of the set are as
    they were. *)
Theorem add_then_lookup st c s l x :
  holds st c s l ->
  exists st' s' l',
    runs (add c (Some x)) st tt st' /\ holds st' c s' l' /\ meta s' = meta s /\
    runs (__contains__ c (instantiate x)) st' true st' /\
    (exists found, runs (get c x) st' (Some found) st' /\
                   cmd_key found = cmd_key (instantiate x) /\ In found l') /\
    (forall y, In y l -> runs (__contains__ c y) st' true st') /\
    (forall k, In k (keys l') <-> In k (keys l) \/ k = cmd_key (instantiate x)).
Proof.
  intros H. destruct (add_run st c s l x H) as (st' & Hr & _).
  pose proof (add_run_holds _ _ _ _ _ _ H Hr) as H'.
  exists st', (with_commands s (length (cells st))), (add_cmd l (instantiate x)).
  split; [exact Hr|]. split; [exact H'|]. split; [reflexivity|].
  assert (Hk : forall k, In k (keys (add_cmd l (instantiate x))) <->
                         In k (keys l) \/ k = cmd_key (instantiate x))
    by (intros k; apply add_cmd_keys).
  split; [|split; [|split; [|exact Hk]]].
  - replace true with (contains_cmd (add_cmd l (instantiate x)) (instantiate x));
      [apply (contains_run _ _ _ _ _ H')|].
    apply contains_cmd_iff, Hk. auto.
  - destruct (find_key (add_cmd l (instantiate x)) (instantiate x))
      as (found & Hf); [apply Hk; auto|].
    exists found. split; [|split].
    + rewrite <- Hf. apply (get_run _ _ _ _ x H').
    + apply find_some in Hf as [_ Hf]. apply cmd_eq_iff, Hf.
    + apply find_some in Hf as [Hf _]. exact Hf.
  - intros y Hy.
    replace true with (contains_cmd (add_cmd l (instantiate x)) y);
      [apply (contains_run _ _ _ _ _ H')|].
    apply contains_cmd_iff, Hk. left. apply in_keys. exists y. auto.
Qed.

Lemma add_then_lookup_witness :
  exists st',
    runs (add 1 (Some (Instance get_b))) st_union tt st' /\
    runs (__contains__ 1 get_b) st' true st'.
Proof.
  destruct (add_then_lookup st_union 1 union_A [look_a; noinput_a]
              (Instance get_b)) as (st' & s' & l' & H1 & _ & _ & H2 & _).
  - split; reflexivity.
  - exists st'. split; [exact H1 | exact H2].
Defined.

(** Adding twice.  A second [add] of the same descriptor leaves the set
    with the commands the first left, none gained and none lost.  And
    [add] does not replace: when a stored descriptor has the key and the
    hash of the one given, every command of the set after [add] was there
    before. *)
Theorem add_is_idempotent st c s l x :
  holds st c s l ->
  exists st1 s1 l1 st2 s2 l2,
    runs (add c (Some x)) st tt st1 /\ holds st1 c s1 l1 /\
    runs (add c (Some x)) st1 tt st2 /\ holds st2 c s2 l2 /\
    Permutation l2 l1 /\ meta s2 = meta s /\
    ((exists y, In y l /\ same_elem (instantiate x) y = true) ->
     forall z, In z l1 -> In z l).
Proof.
  intros H. destruct (add_run st c s l x H) as (st1 & Hr1 & _).
  pose proof (add_run_holds _ _ _ _ _ _ H Hr1) as H1.
  destruct (add_run st1 c _ _ x H1) as (st2 & Hr2 & _).
  pose proof (add_run_holds _ _ _ _ _ _ H1 Hr2) as H2.
  rewrite add_cmd_again in H2.
  eexists st1, _, _, st2, _, _.
  split; [exact Hr1|]. split; [exact H1|]. split; [exact Hr2|].
  split; [exact H2|]. split; [apply Permutation_refl|].
  split; [reflexivity|].
  intros Hy z Hz. rewrite (add_cmd_known _ _ Hy) in Hz.
  apply list_of_set_in, Hz.
Qed.

Lemma add_is_idempotent_witness :
  exists st1 s1 l1 st2 s2 l2,
    runs (add 1 (Some (Instance look_b))) st_union tt st1 /\
    holds st1 1 s1 l1 /\
    runs (add 1 (Some (Instance look_b))) st1 tt st2 /\
    holds st2 1 s2 l2 /\ Permutation l2 l1 /\
    forall z, In z l1 -> In z [look_a; noinput_a].
Proof.
  destruct (add_is_idempotent st_union 1 union_A [look_a; noinput_a]
              (Instance look_b))
    as (st1 & s1 & l1 & st2 & s2 & l2 & H1 & H2 & H3 & H4 & H5 & _ & H6).
  - split; reflexivity.
  - exists st1, s1, l1, st2, s2, l2.
    split; [exact H1|]. split; [exact H2|]. split; [exact H3|].
    split; [exact H4|]. split; [exact H5|].
    apply H6. exists look_a. split; [simpl; auto | reflexivity].
Defined.

(** The commands after [add] are those of a Python set: no two of them
    have the same key and hash, whatever the list held before; at most
    one command is gained and none is invented.  When descriptors with
    the same key hash alike, no key occurs twice. *)
Theorem add_keeps_keys_distinct st c s l x :
  holds st c s l ->
  exists st' s' l',
    runs (add c (Some x)) st tt st' /\ holds st' c s' l' /\
    distinct_elems l' /\ length l' <= S (length l) /\
    (forall y, In y l' -> In y l \/ y = instantiate x) /\
    (hash_by_key (l ++ [instantiate x]) -> List.NoDup (keys l')).
Proof.
  intros H. destruct (add_run st c s l x H) as (st' & Hr & _).
  pose proof (add_run_holds _ _ _ _ _ _ H Hr) as H'.
  eexists st', _, _. split; [exact Hr|]. split; [exact H'|].
  split; [apply add_cmd_distinct|]. split; [apply add_cmd_length|].
  split; [intros y; apply add_cmd_in | apply add_cmd_NoDup].
Qed.

Lemma add_keeps_keys_distinct_witness :
  exists st' s' l',
    runs (add 1 (Some (Instance look_b))) st_union tt st' /\
    holds st' 1 s' l' /\ List.NoDup (keys l').
Proof.
  destruct (add_keeps_keys_distinct st_union 1 union_A [look_a; noinput_a]
              (Instance look_b)) as (st' & s' & l' & H1 & H2 & _ & _ & _ & H3).
  - split; reflexivity.
  - exists st', s', l'. split; [exact H1|]. split; [exact H2|].
    apply H3. intros a b Ha Hb Hk. simpl in Ha, Hb.
    destruct Ha as [<-|[<-|[<-|[]]]]; destruct Hb as [<-|[<-|[<-|[]]]];
      try reflexivity; discriminate Hk.
Defined.

(** What [add] writes.  [add(None)] does nothing.  [add(cmd)] gives
    [cmd] the set's [cmdsetobj] as [obj] if it has none and leaves an
    [obj] it has; no other descriptor is touched.  The list object that
    was bound to [commands] gets [cmd] appended in place; [commands] is
    then bound to a new list object; the settings stay; every other
    object of the store is as it was. *)
Theorem add_footprint st c s l x :
  holds st c s l ->
  runs (add c None) st tt st /\
  exists st' s',
    runs (add c (Some x)) st tt st' /\
    cmd_obj st' !! cmd_id (instantiate x) =
      Some (default (cmdsetobj s) (cmd_obj st !! cmd_id (instantiate x))) /\
    (forall i, i <> cmd_id (instantiate x) -> cmd_obj st' !! i = cmd_obj st !! i) /\
    cells st' !! c = Some (PyCmdSet s') /\ meta s' = meta s /\
    commands s' = length (cells st) /\
    cells st' !! commands s = Some (PyList (l ++ [instantiate x])) /\
    (forall r, r <> c -> r <> commands s -> r < length (cells st) ->
               cells st' !! r = cells st !! r) /\
    length (cells st') = S (length (cells st)).
Proof.
  intros H. split; [reflexivity|].
  destruct (add_run st c s l x H) as (st' & Hr & Hc & Ho).
  pose proof (holds_distinct _ _ _ _ H) as Hd. destruct H as [Hs Hl].
  pose proof (lookup_lt_Some _ _ _ Hs) as Hclt.
  pose proof (lookup_lt_Some _ _ _ Hl) as Hllt.
  exists st', (with_commands s (length (cells st))).
  split; [exact Hr|]. rewrite Hc, Ho.
  split; [|split; [|split; [|split; [|split; [|split; [|split]]]]]].
  - destruct (cmd_obj st !! cmd_id (instantiate x)) as [v|] eqn:E; simpl.
    + exact E.
    + apply lookup_insert_eq.
  - intros i Hi. destruct (cmd_obj st !! cmd_id (instantiate x)); [reflexivity|].
    apply lookup_insert_ne. auto.
  - apply list_lookup_insert_eq. rewrite length_app, length_insert. simpl. lia.
  - reflexivity.
  - reflexivity.
  - rewrite list_lookup_insert_ne by auto.
    rewrite lookup_app_l by (rewrite length_insert; exact Hllt).
    apply list_lookup_insert_eq. exact Hllt.
  - intros r H1 H2 H3. rewrite list_lookup_insert_ne by auto.
    rewrite lookup_app_l by (rewrite length_insert; exact H3).
    apply list_lookup_insert_ne. auto.
  - rewrite length_insert, length_app, length_insert. simpl. lia.
Qed.

Lemma add_footprint_witness :
  exists st',
    runs (add 3 (Some (Instance look_a))) st_union tt st' /\
    cmd_obj st' !! 1 = Some None /\
    cells st' !! 2 = Some (PyList [look_b; get_b; nomatch_b; look_a]) /\
    cells st' !! 1 = Some (PyCmdSet union_A).
Proof.
  destruct (proj2 (add_footprint st_union 3 union_B [look_b; get_b; nomatch_b]
              (Instance look_a) (conj eq_refl eq_refl)))
    as (st' & s' & H1 & H2 & _ & _ & _ & _ & H3 & H4 & _).
  exists st'. split; [exact H1|]. split; [exact H2|]. split; [exact H3|].
  rewrite (H4 1); [reflexivity | discriminate | discriminate | simpl; lia].
Defined.

End AddMethod.

Section LookupMethods.
Import cmdset samples.

Lemma find_split {A} (f : A -> bool) l y :
  find f l = Some y ->
  exists l1 l2, l = l1 ++ y :: l2 /\ f y = true /\ forall z, In z l1 -> f z = false.
Proof.
  induction l as [|h l IH]; simpl; [discriminate|].
  destruct (f h) eqn:E.
  - intros H. inversion H; subst. exists [], l.
    split; [reflexivity|]. split; [exact E | intros z []].
  - intros H. destruct (IH H) as (l1 & l2 & -> & Hy & Hz).
    exists (h :: l1), l2. split; [reflexivity|]. split; [exact Hy|].
    intros z [<-|Hin]; auto.
Qed.

(** Looking up.  [get(cmd)] returns a descriptor exactly when [cmd in
    set] is true, which is when a stored command has the key of [cmd];
    the descriptor returned is the first stored one with that key.  When
    there is none, [get] returns [None] and raises nothing.  Neither call
    changes the store. *)
Theorem get_matches_contains st c s l x :
  holds st c s l ->
  exists r b,
    runs (get c x) st r st /\ runs (__contains__ c (instantiate x)) st b st /\
    (b = true <-> In (cmd_key (instantiate x)) (keys l)) /\
    (r = None <-> b = false) /\
    (forall found, r = Some found ->
       exists l1 l2, l = l1 ++ found :: l2 /\
         cmd_key found = cmd_key (instantiate x) /\
         ~ In (cmd_key (instantiate x)) (keys l1)).
Proof.
  intros H.
  exists (find (fun thiscmd => cmd_eq thiscmd (instantiate x)) l),
         (contains_cmd l (instantiate x)).
  split; [apply (get_run _ _ _ _ x H)|].
  split; [apply (contains_run _ _ _ _ _ H)|].
  split; [apply contains_cmd_iff|]. split.
  - split.
    + intros Hn. apply contains_cmd_false. intros Hin.
      destruct (find_key l (instantiate x) Hin) as (f & Hf). congruence.
    + intros Hc.
      destruct (find (fun thiscmd => cmd_eq thiscmd (instantiate x)) l)
        as [f|] eqn:E; [|reflexivity].
      apply find_some in E as [E1 E2]. apply cmd_eq_iff in E2.
      apply contains_cmd_false in Hc. exfalso. apply Hc.
      apply in_keys. exists f. auto.
  - intros found Hf. destruct (find_split _ _ _ Hf) as (l1 & l2 & -> & Hy & Hz).
    exists l1, l2. split; [reflexivity|].
    split; [apply cmd_eq_iff, Hy|].
    intros Hin. apply in_keys in Hin as (z & Hz1 & Hz2).
    specialize (Hz z Hz1). simpl in Hz. apply cmd_eq_iff in Hz2. congruence.
Qed.

Lemma get_matches_contains_witness :
  exists found,
    runs (get 3 (Instance look_a)) st_union (Some found) st_union /\
    cmd_key found = "look".
Proof.
  destruct (get_matches_contains st_union 3 union_B [look_b; get_b; nomatch_b]
              (Instance look_a)) as (r & b & H1 & _ & H3 & H4 & H5).
  - split; reflexivity.
  - destruct r as [found|].
    + exists found. split; [exact H1|].
      destruct (H5 found eq_refl) as (l1 & l2 & _ & Hk & _). exact Hk.
    + exfalso. pose proof (proj1 H4 eq_refl) as Hb.
      pose proof (proj2 H3) as Hin. rewrite Hb in Hin.
      discriminate Hin. simpl. auto.
Defined.

End LookupMethods.

Section SystemAndCopy.
Import cmdset samples.

Lemma is_system_key_shape k :
  is_system_key k = true <->
  exists rest, rest <> EmptyString /\ k = String.append "__" rest.
Proof.
  unfold is_system_key. split.
  - intros H. apply andb_true_iff in H as [H1 H2].
    apply Nat.ltb_lt in H1. apply String.eqb_eq in H2.
    destruct k as [|c1 [|c2 [|c3 r]]]; simpl in H1; try lia.
    simpl in H2. inversion H2; subst.
    exists (String c3 r). split; [discriminate | reflexivity].
  - intros (rest & Hne & ->). destruct rest as [|c3 r]; [congruence|].
    reflexivity.
Qed.

(** The system commands.  [get_system_cmds] returns, in their order and
    without changing the store, the stored commands whose key is two
    underscores followed by at least one more character; a key that is
    just the two underscores is not a system key. *)
Theorem system_commands_listed st c s l :
  holds st c s l ->
  exists r,
    runs (get_system_cmds c) st r st /\
    sublist r l /\
    (forall cmd, In cmd r <->
       In cmd l /\
       exists rest, rest <> EmptyString /\ cmd_key cmd = String.append "__" rest) /\
    (forall cmd, In cmd r -> cmd_key cmd <> "__").
Proof.
  intros H. exists (List.filter is_system l). split; [|split; [|split]].
  - unfold get_system_cmds.
    eapply runs_bind; [apply (runs_commands_of H) | apply runs_ret].
  - clear H. induction l as [|y l IH]; simpl; [constructor|].
    destruct (is_system y); [apply sublist_skip | apply sublist_cons]; exact IH.
  - intros cmd. rewrite filter_In. unfold is_system.
    rewrite is_system_key_shape. reflexivity.
  - intros cmd Hin E. apply filter_In in Hin as [_ Hin].
    unfold is_system in Hin. rewrite E in Hin. discriminate Hin.
Qed.

Lemma system_commands_listed_witness :
  exists r,
    runs (get_system_cmds 1) st_union r st_union /\
    (In noinput_a r /\ ~ In look_a r).
Proof.
  destruct (system_commands_listed st_union 1 union_A [look_a; noinput_a])
    as (r & H1 & _ & H2 & _).
  - split; reflexivity.
  - exists r. split; [exact H1|]. split.
    + apply H2. split; [simpl; auto|].
      exists "noinput". split; [discriminate | reflexivity].
    + intros Hin. apply H2 in Hin as [_ (rest & _ & E)]. discriminate E.
Defined.

Lemma meta_settings s s' :
  meta s = meta s' ->
  settings s = settings s' /\ actual_mergetype s = actual_mergetype s'.
Proof.
  unfold meta, with_commands, settings. intros H. inversion H. auto.
Qed.

(** Computations that leave the [obj] attributes of descriptors alone. *)
Lemma keeps_obj_bind {A B} (m : M A) (f : A -> M B) :
  (forall st x st', runs m st x st' -> cmd_obj st' = cmd_obj st) ->
  (forall x st y st', runs (f x) st y st' -> cmd_obj st' = cmd_obj st) ->
  forall st y st', runs (bind m f) st y st' -> cmd_obj st' = cmd_obj st.
Proof.
  intros Hm Hf st y st'. unfold runs, bind.
  destruct (m st) as [[x st1]|] eqn:E; [|discriminate].
  intros H. rewrite (Hf _ _ _ _ H). apply (Hm _ _ _ E).
Qed.

Lemma keeps_obj_alloc c st x st' : runs (alloc c) st x st' -> cmd_obj st' = cmd_obj st.
Proof. unfold runs, alloc. intros H. inversion H. reflexivity. Qed.

Lemma keeps_obj_read_set r st x st' :
  runs (read_set r) st x st' -> cmd_obj st' = cmd_obj st.
Proof.
  unfold runs, read_set. destruct (cells st !! r) as [[]|]; try discriminate.
  intros H. inversion H. reflexivity.
Qed.

Lemma keeps_obj_read_list r st x st' :
  runs (read_list r) st x st' -> cmd_obj st' = cmd_obj st.
Proof.
  unfold runs, read_list. destruct (cells st !! r) as [[]|]; try discriminate.
  intros H. inversion H. reflexivity.
Qed.

Lemma keeps_obj_write r c st x st' :
  runs (write r c) st x st' -> cmd_obj st' = cmd_obj st.
Proof.
  unfold runs, write. destruct (cells st !! r); [|discriminate].
  intros H. inversion H. reflexivity.
Qed.

Lemma keeps_obj_ret {A} (v : A) st x st' : runs (ret v) st x st' -> cmd_obj st' = cmd_obj st.
Proof. unfold runs, ret. intros H. inversion H. reflexivity. Qed.

Lemma copy_this_obj a st c st' : runs (copy_this a) st c st' -> cmd_obj st' = cmd_obj st.
Proof.
  unfold copy_this, CmdSet_init.
  apply keeps_obj_bind.
  { apply keeps_obj_bind; [apply keeps_obj_alloc | intros; eapply keeps_obj_alloc; eauto]. }
  intros cmdset. apply keeps_obj_bind; [apply keeps_obj_read_set|].
  intros s. apply keeps_obj_bind; [apply keeps_obj_read_set|].
  intros c0. apply keeps_obj_bind; [apply keeps_obj_write|].
  intros _. apply keeps_obj_ret.
Qed.

(** [copy_this] returns a new set, with a new empty list, that has the
    settings of the original; its [actual_mergetype] is "Union" whatever
    the original's is.  No object that existed is changed and no
    descriptor is touched. *)
Theorem copy_this_settings st a A la :
  holds st a A la ->
  exists c st' C,
    runs (copy_this a) st c st' /\ holds st' c C [] /\
    settings C = settings A /\ actual_mergetype C = "Union" /\
    cells st !! c = None /\ cells st !! commands C = None /\
    holds st' a A la /\
    (forall r, r < length (cells st) -> cells st' !! r = cells st !! r) /\
    cmd_obj st' = cmd_obj st.
Proof.
  intros Ha. pose proof Ha as [Hs Hl].
  destruct (copy_this_spec st a A Hs) as (c & st' & C & Hr & Ho & Hm).
  exists c, st', C. split; [exact Hr|]. split; [apply (owns_holds Ho)|].
  apply meta_settings in Hm as [Hm1 Hm2].
  split; [exact Hm1|]. split; [exact Hm2|].
  split; [apply lookup_ge_None, (owns_set_fresh Ho)|].
  split; [apply lookup_ge_None, (owns_list_fresh Ho)|].
  split; [apply (owns_old Ho Ha)|]. split; [apply (owns_frame Ho)|].
  apply (copy_this_obj _ _ _ _ Hr).
Qed.

End SystemAndCopy.

Section RemoveMethodFacts.
Import cmdset samples.

Lemma copy_this_settings_witness :
  exists c st' C,
    runs (copy_this 3) st_remove c st' /\ holds st' c C [] /\
    mergetype C = "Remove" /\ actual_mergetype C = "Union".
Proof.
  destruct (copy_this_settings st_remove 3 high_remove_B [get_b])
    as (c & st' & C & H1 & H2 & H3 & H4 & _).
  - split; reflexivity.
  - exists c, st', C. split; [exact H1|]. split; [exact H2|].
    split; [|exact H4].
    unfold settings in H3. injection H3 as _ Hm _ _ _ _ _ _ _. exact Hm.
Defined.

Lemma set_commands_run st c s l xs :
  holds st c s l ->
  exists st',
    runs (set_commands c xs) st tt st' /\
    cells st' = <[c := PyCmdSet (with_commands s (length (cells st)))]>
                  (cells st ++ [PyList xs]) /\
    cmd_obj st' = cmd_obj st.
Proof.
  intros [Hs Hl]. pose proof (lookup_lt_Some _ _ _ Hs) as Hclt.
  eexists. split; [|split].
  - unfold set_commands. eapply runs_bind; [apply runs_alloc|].
    eapply runs_bind.
    { apply runs_read_set. simpl. rewrite lookup_app_l by exact Hclt. exact Hs. }
    apply runs_write. simpl. rewrite length_app. lia.
  - reflexivity.
  - reflexivity.
Qed.

Lemma filter_sublist {A} (f : A -> bool) l : sublist (List.filter f l) l.
Proof.
  induction l as [|y l IH]; simpl; [constructor|].
  destruct (f y); [apply sublist_skip | apply sublist_cons]; exact IH.
Qed.

Lemma filter_filter_same {A} (f : A -> bool) l :
  List.filter f (List.filter f l) = List.filter f l.
Proof.
  induction l as [|y l IH]; simpl; [reflexivity|].
  destruct (f y) eqn:E; simpl; [rewrite E, IH; reflexivity | exact IH].
Qed.

(** The method [remove], whatever [!=] is on descriptors.  It binds
    [commands] to a new list holding, in their order, the stored commands
    that differ from the one given; the settings stay, the old list
    object and every other object are as they were, no descriptor is
    touched; a second [remove] of the same descriptor changes the
    commands no further. *)
Theorem remove_method (cmd_ne : Command -> Command -> bool) st c s l x :
  holds st c s l ->
  exists st1 s1 l1 st2 s2,
    runs (CmdSet_remove cmd_ne c x) st tt st1 /\ holds st1 c s1 l1 /\
    meta s1 = meta s /\
    sublist l1 l /\
    (forall y, In y l1 <-> In y l /\ cmd_ne y (instantiate x) = true) /\
    cells st !! commands s1 = None /\
    (forall r, r <> c -> r < length (cells st) -> cells st1 !! r = cells st !! r) /\
    cmd_obj st1 = cmd_obj st /\
    runs (CmdSet_remove cmd_ne c x) st1 tt st2 /\ holds st2 c s2 l1.
Proof.
  intros H. pose proof H as [Hs Hl].
  pose proof (lookup_lt_Some _ _ _ Hs) as Hclt.
  set (f := fun oldcmd => cmd_ne oldcmd (instantiate x)).
  destruct (set_commands_run st c s l (List.filter f l) H) as (st1 & Hr1 & Hc1 & Ho1).
  assert (H1 : holds st1 c (with_commands s (length (cells st))) (List.filter f l)).
  { split; rewrite Hc1; simpl.
    - apply list_lookup_insert_eq. rewrite length_app. simpl. lia.
    - rewrite list_lookup_insert_ne by lia. apply list_lookup_middle. reflexivity. }
  destruct (set_commands_run st1 c _ _ (List.filter f (List.filter f l)) H1)
    as (st2 & Hr2 & Hc2 & Ho2).
  assert (H2 : holds st2 c (with_commands (with_commands s (length (cells st)))
                                          (length (cells st1)))
                     (List.filter f (List.filter f l))).
  { pose proof (lookup_lt_Some _ _ _ (proj1 H1)) as Hclt1.
    split; rewrite Hc2; simpl.
    - apply list_lookup_insert_eq. rewrite length_app. simpl. lia.
    - rewrite list_lookup_insert_ne by lia. apply list_lookup_middle. reflexivity. }
  rewrite filter_filter_same in H2.
  eexists st1, _, _, st2, _.
  split; [|split; [exact H1|]].
  { unfold CmdSet_remove.
    eapply runs_bind; [apply (runs_commands_of H) | exact Hr1]. }
  split; [reflexivity|]. split; [apply filter_sublist|].
  split; [intros y; apply (filter_In f)|].
  split; [apply lookup_ge_None; simpl; lia|].
  split; [|split; [exact Ho1|split; [|exact H2]]].
  - intros r Hne Hr. rewrite Hc1. rewrite list_lookup_insert_ne by auto.
    apply lookup_app_l. exact Hr.
  - unfold CmdSet_remove.
    eapply runs_bind; [apply (runs_commands_of H1)|].
    exact Hr2.
Qed.

Lemma remove_method_witness :
  exists st1 s1,
    runs (CmdSet_remove (fun a b => negb (cmd_eq a b)) 3 (Instance look_a))
         st_union tt st1 /\
    holds st1 3 s1 [get_b; nomatch_b] /\
    cells st1 !! 2 = Some (PyList [look_b; get_b; nomatch_b]).
Proof.
  destruct (remove_method (fun a b => negb (cmd_eq a b)) st_union 3 union_B
              [look_b; get_b; nomatch_b] (Instance look_a))
    as (st1 & s1 & l1 & st2 & s2 & H1 & H2 & _ & _ & _ & _ & H3 & _).
  - split; reflexivity.
  - exists st1, s1. split; [exact H1|]. split.
    + destruct (set_commands_run st_union 3 union_B [look_b; get_b; nomatch_b]
                  [get_b; nomatch_b]) as (st1' & Hr & Hc & _); [split; reflexivity|].
      assert (Hr' : runs (CmdSet_remove (fun a b => negb (cmd_eq a b)) 3
                            (Instance look_a)) st_union tt st1').
      { unfold CmdSet_remove.
        eapply runs_bind;
          [apply (runs_commands_of (conj eq_refl eq_refl :
                    holds st_union 3 union_B [look_b; get_b; nomatch_b]))
          | exact Hr]. }
      destruct (runs_det H1 Hr') as [_ ->].
      assert (Hh : holds st1' 3 (with_commands union_B 4) [get_b; nomatch_b]).
      { split; rewrite Hc; reflexivity. }
      destruct (holds_det H2 Hh) as [-> ->]. exact Hh.
    + rewrite (H3 2); [reflexivity | discriminate | simpl; lia].
Defined.

End RemoveMethodFacts.

(** ** More on the merge *)

Section MergeLists.
Import cmdset.

Lemma intersect_step_in lb acc cmd y :
  In y (intersect_step lb acc cmd) -> In y acc \/ y = cmd \/ In y lb.
Proof.
  unfold intersect_step.
  destruct (find (fun thiscmd => cmd_eq thiscmd cmd) lb) as [f|] eqn:E.
  - intros H. apply add_cmd_in in H as [H| ->].
    + apply add_cmd_in in H. tauto.
    + apply find_some in E as [E _]. auto.
  - intros H. apply add_cmd_in in H. tauto.
Qed.

Lemma intersect_loop_in lb cmds : forall acc y,
  In y (fold_left (intersect_step lb) cmds acc) ->
  In y acc \/ In y cmds \/ In y lb.
Proof.
  induction cmds as [|x cmds IH]; simpl; intros acc y H; [auto|].
  apply IH in H as [H|[H|H]]; [|auto|auto].
  apply intersect_step_in in H. intuition auto.
Qed.

Lemma union_cmds_in la lb dup tie y :
  In y (union_cmds la lb dup tie) -> In y la \/ In y lb.
Proof.
  unfold union_cmds. rewrite in_app_iff. intros [H|H]; [auto|].
  destruct (dup && tie); [auto|]. apply filter_In in H as [H _]. auto.
Qed.

Lemma intersect_cmds_in la lb dup tie y :
  In y (intersect_cmds la lb dup tie) -> In y la \/ In y lb.
Proof.
  unfold intersect_cmds. destruct (dup && tie).
  - intros H. apply intersect_loop_in in H as [[]|[H|H]]; [|auto].
    apply filter_In in H as [H _]. auto.
  - intros H. apply filter_In in H as [H _]. auto.
Qed.

Lemma policy_cmds_in A B la lb y :
  In y (policy_cmds A B la lb) -> In y la \/ In y lb.
Proof.
  unfold policy_cmds, remove_cmds.
  repeat match goal with
         | |- context [if ?b then _ else _] => destruct b
         end;
    intros H;
    try (apply intersect_cmds_in in H); try (apply union_cmds_in in H);
    try (apply filter_In in H as [H _]); tauto.
Qed.

Lemma merged_cmds_in A B la lb y :
  In y (merged_cmds A B la lb) -> In y la \/ In y lb.
Proof.
  unfold merged_cmds. intros H. apply add_all_in in H as [H|H].
  - apply (policy_cmds_in _ _ _ _ _ H).
  - apply in_app_iff in H as [H|H]; apply filter_In in H as [H _]; auto.
Qed.

Lemma add_all_NoDup all cmds : forall l,
  hash_by_key all ->
  (forall y, In y l -> In y all) -> (forall y, In y cmds -> In y all) ->
  List.NoDup (keys l) -> List.NoDup (keys (fold_left add_cmd cmds l)).
Proof.
  induction cmds as [|x cmds IH]; simpl; intros l Hh Hl Hc Hn; [exact Hn|].
  apply IH; [exact Hh | | auto |].
  - intros y Hy. apply add_cmd_in in Hy as [Hy| ->]; auto.
  - apply add_cmd_NoDup. apply (hash_by_key_incl all); [|exact Hh].
    intros y Hy. apply in_app_iff in Hy as [Hy|[<-|[]]]; auto.
Qed.

Lemma union_cmds_NoDup la lb :
  List.NoDup (keys la) -> List.NoDup (keys lb) ->
  List.NoDup (keys (la ++ List.filter (fun cmd => negb (contains_cmd la cmd)) lb)).
Proof.
  intros Ha Hb. unfold keys. rewrite map_app.
  apply List.NoDup_app; [exact Ha | apply (keys_filter_NoDup _ _ Hb) |].
  intros k Hk Hk'. apply keys_filter_out in Hk' as [_ Hk']. contradiction.
Qed.

Lemma policy_cmds_NoDup A B la lb :
  dup_tie A B = false ->
  List.NoDup (keys la) -> List.NoDup (keys lb) ->
  List.NoDup (keys (policy_cmds A B la lb)).
Proof.
  intros Hd Ha Hb. unfold dup_tie in Hd. rewrite andb_comm in Hd.
  unfold policy_cmds, remove_cmds, intersect_cmds, union_cmds.
  destruct (priority B <=? priority A)%Z eqn:Hp.
  - rewrite Hd.
    repeat match goal with
           | |- context [if ?b then _ else _] => destruct b
           end;
      try (apply keys_filter_NoDup; assumption); try assumption.
    apply union_cmds_NoDup; assumption.
  - replace (priority B =? priority A)%Z with false by lia.
    rewrite andb_false_r.
    repeat match goal with
           | |- context [if ?b then _ else _] => destruct b
           end;
      try (apply keys_filter_NoDup; assumption); try assumption.
    apply union_cmds_NoDup; assumption.
Qed.

Lemma filter_own_keys_out la :
  List.filter (fun cmd => negb (contains_cmd la cmd)) la = [].
Proof.
  assert (H : forall l, (forall y, In y l -> In y la) ->
                        List.filter (fun cmd => negb (contains_cmd la cmd)) l = []).
  { induction l as [|y l IH]; simpl; intros Hin; [reflexivity|].
    replace (contains_cmd la y) with true.
    - simpl. apply IH. intros z Hz. apply Hin. auto.
    - symmetry. apply contains_cmd_iff, in_keys. exists y. split; [|reflexivity].
      apply Hin. auto. }
  apply H. auto.
Qed.

Lemma filter_own_keys_in la :
  List.filter (fun cmd => contains_cmd la cmd) la = la.
Proof.
  assert (H : forall l, (forall y, In y l -> In y la) ->
                        List.filter (fun cmd => contains_cmd la cmd) l = l).
  { induction l as [|y l IH]; simpl; intros Hin; [reflexivity|].
    replace (contains_cmd la y) with true.
    - f_equal. apply IH. intros z Hz. apply Hin. auto.
    - symmetry. apply contains_cmd_iff, in_keys. exists y. split; [|reflexivity].
      apply Hin. auto. }
  apply H. auto.
Qed.

End MergeLists.

Section MergeMore.
Import cmdset samples.

(** The settings of a merged set.  [actual_mergetype] is the merge type
    applied: the entry of [key_mergetypes] of the operand with the higher
    priority (the left one on a tie) for the key of the other operand or,
    when there is none, its [mergetype].  The other settings are those of
    that operand, except when the right operand has the higher priority
    and the merge type applied is Remove: then they are those of the left
    operand. *)
Theorem merge_settings st a b A B la lb :
  holds st a A la -> holds st b B lb ->
  exists c st' C lc,
    runs (__add__ a (Some b)) st c st' /\ holds st' c C lc /\
    actual_mergetype C = applied_mergetype A B /\
    ((priority B <= priority A)%Z ->
       settings C = settings A /\
       applied_mergetype A B = default (mergetype A) (key_mergetypes A !! key B)) /\
    ((priority A < priority B)%Z ->
       applied_mergetype A B = default (mergetype B) (key_mergetypes B !! key A) /\
       settings C =
         settings (if String.eqb (applied_mergetype A B) "Remove" then A else B)).
Proof.
  intros Ha Hb.
  destruct (add_operator_spec st a b A B la lb Ha Hb)
    as (c & st' & C & Hrun & Hown & Hm).
  exists c, st', C, (merged_cmds A B la lb).
  split; [exact Hrun|]. split; [apply (owns_holds Hown)|].
  apply meta_settings in Hm as [Hs Hm]. simpl in Hm.
  split; [exact Hm|].
  unfold settings_from, applied_mergetype, effective_mergetype in *.
  split.
  - intros Hle. replace (priority B <=? priority A)%Z with true in * by lia.
    split; [exact Hs | reflexivity].
  - intros Hlt. replace (priority B <=? priority A)%Z with false in * by lia.
    split; [reflexivity | exact Hs].
Qed.

Lemma merge_settings_witness :
  exists c st' C lc,
    runs (__add__ 1 (Some 3)) st_remove c st' /\ holds st' c C lc /\
    key C = "A" /\ priority C = 0%Z /\ actual_mergetype C = "Remove".
Proof.
  destruct (merge_settings st_remove 1 3 low_A high_remove_B [look_a] [get_b])
    as (c & st' & C & lc & H1 & H2 & H3 & _ & H4).
  - split; reflexivity.
  - split; reflexivity.
  - exists c, st', C, lc. split; [exact H1|]. split; [exact H2|].
    destruct H4 as [_ H4]; [simpl; lia|].
    unfold settings in H4. simpl in H4. injection H4 as Hk _ Hp _ _ _ _ _ _.
    split; [exact Hk|]. split; [exact Hp | exact H3].
Defined.

(** Every command of a merged set is a descriptor of one of the two
    operands, and so every key of it is a key of one of them. *)
Theorem merge_invents_nothing st a b A B la lb :
  holds st a A la -> holds st b B lb ->
  exists c st' C lc,
    runs (__add__ a (Some b)) st c st' /\ holds st' c C lc /\
    (forall cmd, In cmd lc -> In cmd la \/ In cmd lb) /\
    (forall k, In k (keys lc) -> In k (keys la) \/ In k (keys lb)).
Proof.
  intros Ha Hb.
  destruct (add_operator_spec st a b A B la lb Ha Hb)
    as (c & st' & C & Hrun & Hown & _).
  exists c, st', C, (merged_cmds A B la lb).
  split; [exact Hrun|]. split; [apply (owns_holds Hown)|]. split.
  - intros cmd. apply merged_cmds_in.
  - intros k Hk. apply in_keys in Hk as (y & Hy & <-).
    apply merged_cmds_in in Hy as [Hy|Hy]; [left|right];
      apply in_keys; exists y; auto.
Qed.

Lemma merge_invents_nothing_witness :
  exists c st' C lc,
    runs (__add__ 1 (Some 3)) st_union c st' /\ holds st' c C lc /\
    forall cmd, In cmd lc ->
      In cmd [look_a; noinput_a] \/ In cmd [look_b; get_b; nomatch_b].
Proof.
  destruct (merge_invents_nothing st_union 1 3 union_A union_B
              [look_a; noinput_a] [look_b; get_b; nomatch_b])
    as (c & st' & C & lc & H1 & H2 & H3 & _).
  - split; reflexivity.
  - split; reflexivity.
  - exists c, st', C, lc. split; [exact H1|]. split; [exact H2 | exact H3].
Defined.

(** Distinct keys stay distinct.  When neither operand holds a key
    twice, descriptors with the same key hash alike, and it is not so
    that the priorities are equal and the right operand allows
    duplicates, the merged set holds no key twice, whatever the policy. *)
Theorem merge_keeps_keys_distinct st a b A B la lb :
  holds st a A la -> holds st b B lb ->
  List.NoDup (keys la) -> List.NoDup (keys lb) ->
  hash_by_key (la ++ lb) -> dup_tie A B = false ->
  exists c st' C lc,
    runs (__add__ a (Some b)) st c st' /\ holds st' c C lc /\
    List.NoDup (keys lc).
Proof.
  intros Ha Hb Hna Hnb Hh Hd.
  destruct (add_operator_spec st a b A B la lb Ha Hb)
    as (c & st' & C & Hrun & Hown & _).
  exists c, st', C, (merged_cmds A B la lb).
  split; [exact Hrun|]. split; [apply (owns_holds Hown)|].
  unfold merged_cmds. apply (add_all_NoDup (la ++ lb)); [exact Hh | | |].
  - intros y Hy. apply in_app_iff. apply (policy_cmds_in _ _ _ _ _ Hy).
  - intros y Hy. apply in_app_iff.
    apply in_app_iff in Hy as [Hy|Hy]; apply filter_In in Hy as [Hy _]; auto.
  - apply (policy_cmds_NoDup _ _ _ _ Hd Hna Hnb).
Qed.

Lemma merge_keeps_keys_distinct_witness :
  exists c st' C lc,
    runs (__add__ 1 (Some 3)) st_union c st' /\ holds st' c C lc /\
    List.NoDup (keys lc).
Proof.
  apply (merge_keeps_keys_distinct st_union 1 3 union_A union_B
           [look_a; noinput_a] [look_b; get_b; nomatch_b]).
  - split; reflexivity.
  - split; reflexivity.
  - repeat constructor; simpl; intuition discriminate.
  - repeat constructor; simpl; intuition discriminate.
  - intros x y Hx Hy Hk. simpl in Hx, Hy.
    destruct Hx as [<-|[<-|[<-|[<-|[<-|[]]]]]];
      destruct Hy as [<-|[<-|[<-|[<-|[<-|[]]]]]];
      try reflexivity; discriminate Hk.
  - reflexivity.
Defined.

(** A set merged with itself (both operands the same object) yields a
    new set and leaves the set as it was.  The keys are its own, unless
    the policy is Remove: then only the keys of its system commands are
    left.  Under Union, when it holds no system command, the commands are
    its own, and twice its own when it allows duplicates. *)
Theorem merge_with_itself st a A la :
  holds st a A la ->
  exists c st' C lc,
    runs (__add__ a (Some a)) st c st' /\ holds st' c C lc /\
    c <> a /\ holds st' a A la /\
    (policy_of (applied_mergetype A A) <> PolicyRemove ->
     forall k, In k (keys lc) <-> In k (keys la)) /\
    (policy_of (applied_mergetype A A) = PolicyRemove ->
     forall k, In k (keys lc) <-> In k (keys (List.filter is_system la))) /\
    (policy_of (applied_mergetype A A) = PolicyUnion ->
     List.filter is_system la = [] ->
     lc = if duplicates A then la ++ la else la).
Proof.
  intros Ha.
  destruct (add_operator_spec st a a A A la la Ha Ha)
    as (c & st' & C & Hrun & Hown & _).
  exists c, st', C, (merged_cmds A A la la).
  split; [exact Hrun|]. split; [apply (owns_holds Hown)|].
  split.
  { pose proof (owns_set_fresh Hown). pose proof (lookup_lt_Some _ _ _ (proj1 Ha)). lia. }
  split; [apply (owns_old Hown Ha)|].
  pose proof (fun k => merged_cmds_keys A A la la k) as Hk.
  pose proof (fun k => policy_cmds_keys A A la la k) as Hp.
  unfold policy_keys in Hp.
  split; [|split].
  - intros Hne k. rewrite Hk, Hp, keys_system.
    destruct (policy_of (applied_mergetype A A)); try congruence;
      try destruct (priority A <=? priority A)%Z; tauto.
  - intros He k. rewrite Hk, Hp, He, keys_system. tauto.
  - intros Hu Hs. unfold merged_cmds. rewrite Hs. simpl.
    rewrite (policy_cmds_union _ _ _ _ Hu).
    rewrite Z.leb_refl, Z.eqb_refl. unfold union_cmds.
    rewrite andb_true_r. destruct (duplicates A); [reflexivity|].
    rewrite filter_own_keys_out. apply app_nil_r.
Qed.

Lemma merge_with_itself_witness :
  exists c st' C lc,
    runs (__add__ 3 (Some 3)) st_tie c st' /\ holds st' c C lc /\
    lc = [look_b; look_b].
Proof.
  destruct (merge_with_itself st_tie 3 dup_B [look_b])
    as (c & st' & C & lc & H1 & H2 & _ & _ & _ & _ & H3).
  - split; reflexivity.
  - exists c, st', C, lc. split; [exact H1|]. split; [exact H2|].
    apply H3; reflexivity.
Defined.

End MergeMore.

Section MergeCompose.
Import cmdset samples.

Lemma settings_applied_mergetype C A B :
  settings C = settings A -> applied_mergetype C B = applied_mergetype A B.
Proof.
  unfold settings. intros H. injection H as Hk Hm Hp _ Hkm _ _ _ _.
  unfold applied_mergetype, effective_mergetype.
  rewrite Hk, Hm, Hp, Hkm. reflexivity.
Qed.

(** Merging the same set again.  When the left operand has the higher
    or the same priority and the policy is not Remove, merging the result
    with the right operand once more applies the same merge type and
    yields the same keys and the same settings. *)
Theorem merge_again_same_keys st a b A B la lb :
  holds st a A la -> holds st b B lb ->
  (priority B <= priority A)%Z ->
  policy_of (applied_mergetype A B) <> PolicyRemove ->
  exists c st1 C lc d st2 D ld,
    runs (__add__ a (Some b)) st c st1 /\ holds st1 c C lc /\
    runs (__add__ c (Some b)) st1 d st2 /\ holds st2 d D ld /\
    settings D = settings C /\ actual_mergetype D = actual_mergetype C /\
    (forall k, In k (keys ld) <-> In k (keys lc)).
Proof.
  intros Ha Hb Hle Hne.
  destruct (add_operator_spec st a b A B la lb Ha Hb)
    as (c & st1 & C & Hr1 & Ho1 & Hm1).
  pose proof (owns_holds Ho1) as Hc. pose proof (owns_old Ho1 Hb) as Hb1.
  destruct (add_operator_spec st1 c b C B _ lb Hc Hb1)
    as (d & st2 & D & Hr2 & Ho2 & Hm2).
  apply meta_settings in Hm1 as [Hs1 Hm1]. simpl in Hm1.
  apply meta_settings in Hm2 as [Hs2 Hm2]. simpl in Hm2.
  assert (HsA : settings C = settings A).
  { rewrite Hs1. unfold settings_from.
    replace (priority B <=? priority A)%Z with true by lia. reflexivity. }
  pose proof (settings_applied_mergetype C A B HsA) as Hap.
  assert (HpC : priority C = priority A).
  { unfold settings in HsA. injection HsA as _ _ Hp _ _ _ _ _ _. exact Hp. }
  exists c, st1, C, (merged_cmds A B la lb), d, st2, D,
         (merged_cmds C B (merged_cmds A B la lb) lb).
  split; [exact Hr1|]. split; [exact Hc|]. split; [exact Hr2|].
  split; [apply (owns_holds Ho2)|].
  split; [|split].
  - rewrite Hs2. unfold settings_from. rewrite HpC.
    replace (priority B <=? priority A)%Z with true by lia. reflexivity.
  - rewrite Hm2, Hm1. exact Hap.
  - intros k.
    pose proof (merged_cmds_keys C B (merged_cmds A B la lb) lb k) as K2.
    pose proof (policy_cmds_keys C B (merged_cmds A B la lb) lb k) as P2.
    pose proof (merged_cmds_keys A B la lb k) as K1.
    pose proof (policy_cmds_keys A B la lb k) as P1.
    rewrite !keys_system in K1, K2.
    unfold policy_keys in P1, P2. rewrite Hap, HpC in P2.
    replace (priority B <=? priority A)%Z with true in P1, P2 by lia.
    destruct (policy_of (applied_mergetype A B)); try congruence; tauto.
Qed.

Lemma merge_again_same_keys_witness :
  exists c st1 C lc d st2 D ld,
    runs (__add__ 1 (Some 3)) st_union c st1 /\ holds st1 c C lc /\
    runs (__add__ c (Some 3)) st1 d st2 /\ holds st2 d D ld /\
    forall k, In k (keys ld) <-> In k (keys lc).
Proof.
  destruct (merge_again_same_keys st_union 1 3 union_A union_B
              [look_a; noinput_a] [look_b; get_b; nomatch_b])
    as (c & st1 & C & lc & d & st2 & D & ld & H1 & H2 & H3 & H4 & _ & _ & H5).
  - split; reflexivity.
  - split; reflexivity.
  - simpl. lia.
  - discriminate.
  - exists c, st1, C, lc, d, st2, D, ld. auto 10.
Defined.

(** The order of the operands.  When the priorities differ and the
    policy is not Remove, [A + B] and [B + A] have the same keys, the
    same settings and the same [actual_mergetype]. *)
Theorem merge_commutes_on_keys st a b A B la lb :
  holds st a A la -> holds st b B lb ->
  priority A <> priority B ->
  policy_of (applied_mergetype A B) <> PolicyRemove ->
  exists c1 st1 C1 l1 c2 st2 C2 l2,
    runs (__add__ a (Some b)) st c1 st1 /\ holds st1 c1 C1 l1 /\
    runs (__add__ b (Some a)) st c2 st2 /\ holds st2 c2 C2 l2 /\
    settings C1 = settings C2 /\ actual_mergetype C1 = actual_mergetype C2 /\
    (forall k, In k (keys l1) <-> In k (keys l2)).
Proof.
  intros Ha Hb Hp Hne.
  destruct (add_operator_spec st a b A B la lb Ha Hb)
    as (c1 & st1 & C1 & Hr1 & Ho1 & Hm1).
  destruct (add_operator_spec st b a B A lb la Hb Ha)
    as (c2 & st2 & C2 & Hr2 & Ho2 & Hm2).
  apply meta_settings in Hm1 as [Hs1 Hm1]. simpl in Hm1.
  apply meta_settings in Hm2 as [Hs2 Hm2]. simpl in Hm2.
  pose proof (applied_mergetype_swap A B Hp) as Hsw.
  assert (Hrm : String.eqb (applied_mergetype A B) "Remove" = false).
  { unfold policy_of in Hne.
    destruct (String.eqb (applied_mergetype A B) "Intersect") eqn:E1.
    - apply String.eqb_eq in E1. rewrite E1. reflexivity.
    - destruct (String.eqb (applied_mergetype A B) "Replace") eqn:E2.
      + apply String.eqb_eq in E2. rewrite E2. reflexivity.
      + destruct (String.eqb (applied_mergetype A B) "Remove"); congruence. }
  exists c1, st1, C1, (merged_cmds A B la lb), c2, st2, C2, (merged_cmds B A lb la).
  split; [exact Hr1|]. split; [apply (owns_holds Ho1)|].
  split; [exact Hr2|]. split; [apply (owns_holds Ho2)|].
  split; [|split].
  - rewrite Hs1, Hs2. unfold settings_from. rewrite Hsw, Hrm.
    destruct (priority B <=? priority A)%Z eqn:E1;
      destruct (priority A <=? priority B)%Z eqn:E2; try reflexivity; lia.
  - rewrite Hm1, Hm2, Hsw. reflexivity.
  - intros k.
    pose proof (merged_cmds_keys A B la lb k) as K1.
    pose proof (policy_cmds_keys A B la lb k) as P1.
    pose proof (merged_cmds_keys B A lb la k) as K2.
    pose proof (policy_cmds_keys B A lb la k) as P2.
    unfold policy_keys in P1, P2. rewrite Hsw in P2.
    destruct (policy_of (applied_mergetype A B)); try congruence;
      destruct (priority B <=? priority A)%Z eqn:E1;
      destruct (priority A <=? priority B)%Z eqn:E2; try lia; tauto.
Qed.

Lemma merge_commutes_on_keys_witness :
  exists c1 st1 C1 l1 c2 st2 C2 l2,
    runs (__add__ 1 (Some 3)) st_union c1 st1 /\ holds st1 c1 C1 l1 /\
    runs (__add__ 3 (Some 1)) st_union c2 st2 /\ holds st2 c2 C2 l2 /\
    (forall k, In k (keys l1) <-> In k (keys l2)).
Proof.
  destruct (merge_commutes_on_keys st_union 1 3 union_A union_B
              [look_a; noinput_a] [look_b; get_b; nomatch_b])
    as (c1 & st1 & C1 & l1 & c2 & st2 & C2 & l2 & H1 & H2 & H3 & H4 & _ & _ & H5).
  - split; reflexivity.
  - split; reflexivity.
  - discriminate.
  - discriminate.
  - exists c1, st1, C1, l1, c2, st2, C2, l2. auto 10.
Defined.

End MergeCompose.

Section IntersectTie.
Import cmdset samples.

Lemma add_cmd_repr l x y :
  In y (l ++ [x]) -> exists z, In z (add_cmd l x) /\ same_elem y z = true.
Proof. apply list_of_set_repr. Qed.

Lemma intersect_step_repr lb acc x y :
  (exists y0, In y0 acc /\ same_elem y y0 = true) \/ y = x \/
  find (fun thiscmd => cmd_eq thiscmd x) lb = Some y ->
  exists z, In z (intersect_step lb acc x) /\ same_elem y z = true.
Proof.
  intros H. unfold intersect_step.
  assert (H1 : (exists y0, In y0 acc /\ same_elem y y0 = true) \/ y = x ->
               exists z, In z (add_cmd acc x) /\ same_elem y z = true).
  { intros [(y0 & Hy0 & Hs)| ->].
    - destruct (add_cmd_repr acc x y0) as (z & Hz & Hz'); [apply in_app_iff; auto|].
      exists z. split; [exact Hz | apply (same_elem_trans y y0 z); assumption].
    - apply add_cmd_repr, in_app_iff. simpl. auto. }
  destruct (find (fun thiscmd => cmd_eq thiscmd x) lb) as [f|] eqn:E.
  - destruct H as [H|[H|H]].
    + destruct (H1 (or_introl H)) as (z & Hz & Hs).
      destruct (add_cmd_repr (add_cmd acc x) f z) as (z' & Hz' & Hs');
        [apply in_app_iff; auto|].
      exists z'. split; [exact Hz' | apply (same_elem_trans y z z'); assumption].
    + destruct (H1 (or_intror H)) as (z & Hz & Hs).
      destruct (add_cmd_repr (add_cmd acc x) f z) as (z' & Hz' & Hs');
        [apply in_app_iff; auto|].
      exists z'. split; [exact Hz' | apply (same_elem_trans y z z'); assumption].
    + inversion H; subst. apply add_cmd_repr, in_app_iff. simpl. auto.
  - destruct H as [H|[H|H]]; [apply H1; auto | apply H1; auto | discriminate].
Qed.

Lemma intersect_loop_repr lb cmds : forall acc y,
  (exists y0, In y0 acc /\ same_elem y y0 = true) \/
  (exists x, In x cmds /\
             (y = x \/ find (fun thiscmd => cmd_eq thiscmd x) lb = Some y)) ->
  exists z, In z (fold_left (intersect_step lb) cmds acc) /\ same_elem y z = true.
Proof.
  induction cmds as [|x cmds IH]; simpl; intros acc y H.
  - destruct H as [H|(x & [] & _)]. exact H.
  - apply IH. destruct H as [H|(x' & [<-|Hin] & Hx)].
    + left. apply intersect_step_repr. auto.
    + left. apply intersect_step_repr. tauto.
    + right. exists x'. auto.
Qed.

Lemma intersect_loop_left la lb cmds :
  hash_by_key (la ++ lb) -> (forall x, In x cmds -> In x la) ->
  forall acc, (forall y, In y acc -> In y la) ->
  forall y, In y (fold_left (intersect_step lb) cmds acc) -> In y la.
Proof.
  intros Hh. induction cmds as [|x cmds IH]; simpl; intros Hc acc Ha y Hy.
  - apply Ha, Hy.
  - apply (IH (fun z Hz => Hc z (or_intror Hz)) _) in Hy; [exact Hy|].
    intros z Hz. unfold intersect_step in Hz.
    assert (Hx : In x la) by (apply Hc; auto).
    assert (H1 : forall w, In w (add_cmd acc x) -> In w la).
    { intros w Hw. apply add_cmd_in in Hw as [Hw| ->]; auto. }
    destruct (find (fun thiscmd => cmd_eq thiscmd x) lb) as [f|] eqn:E;
      [|apply H1, Hz].
    apply find_some in E as [Ef Ek]. apply cmd_eq_iff in Ek.
    assert (Hfx : same_elem f x = true).
    { apply same_elem_hash; [exact Ek|].
      apply Hh; [apply in_app_iff; auto | apply in_app_iff; auto | exact Ek]. }
    pose proof (add_cmd_present acc x) as Hp.
    apply existsb_exists in Hp as (r & Hr & Hs).
    rewrite add_cmd_known in Hz.
    + apply list_of_set_in in Hz. apply H1, Hz.
    + exists r. split; [exact Hr | apply (same_elem_trans f x r); assumption].
Qed.

(** Intersect on a tie with duplicates allowed.  What the Intersect step
    (lines 304-327) keeps then depends on how descriptors hash.  When
    descriptors with the same key hash alike, it keeps descriptors of the
    left operand only: the flag brings in none of the right operand's.
    When no descriptor of the left operand hashes like one of the right
    operand, it keeps, for every shared key, a descriptor of each. *)
Theorem intersect_tie_duplicates st a b A B la lb :
  holds st a A la -> holds st b B lb ->
  policy_of (applied_mergetype A B) = PolicyIntersect ->
  dup_tie A B = true ->
  exists c st' C l,
    runs (merge_by_priority a b) st (c, applied_mergetype A B) st' /\
    holds st' c C l /\
    (forall cmd, In cmd l -> In cmd la \/ In cmd lb) /\
    (hash_by_key (la ++ lb) -> forall cmd, In cmd l -> In cmd la) /\
    ((forall x y, In x la -> In y lb -> cmd_hash x <> cmd_hash y) ->
     forall k, In k (keys la) -> In k (keys lb) ->
       (exists ca, In ca la /\ cmd_key ca = k /\ In ca l) /\
       (exists cb, In cb lb /\ cmd_key cb = k /\ In cb l)).
Proof.
  intros Ha Hb Hi Hd.
  destruct (merge_by_priority_spec st a b A B la lb Ha Hb)
    as (c & st' & C & Hr & Ho & _).
  exists c, st', C, (policy_cmds A B la lb).
  split; [exact Hr|]. split; [apply (owns_holds Ho)|].
  split; [intros cmd; apply policy_cmds_in|].
  rewrite (policy_cmds_intersect _ _ _ _ Hi).
  unfold dup_tie in Hd. apply andb_true_iff in Hd as [Hp Hdup].
  replace (priority B <=? priority A)%Z with true by lia.
  unfold intersect_cmds. rewrite Hdup, Hp. simpl.
  set (shared := List.filter (fun cmd => contains_cmd lb cmd) la).
  split.
  - intros Hh cmd Hin.
    apply (intersect_loop_left la lb shared Hh) with (acc := []) in Hin;
      [exact Hin | | intros y []].
    intros x Hx. apply filter_In in Hx as [Hx _]. exact Hx.
  - intros Hx k Hka Hkb.
    apply in_keys in Hka as (ca & Hca & Hk).
    assert (Hsh : In ca shared).
    { apply filter_In. split; [exact Hca|]. apply contains_cmd_iff.
      rewrite Hk. exact Hkb. }
    destruct (find_key lb ca) as (f & Hf); [rewrite Hk; exact Hkb|].
    pose proof (find_some _ _ Hf) as [Hfin Hfk]. apply cmd_eq_iff in Hfk.
    destruct (intersect_loop_repr lb shared [] ca) as (z & Hz & Hs);
      [right; exists ca; auto|].
    destruct (intersect_loop_repr lb shared [] f) as (z' & Hz' & Hs');
      [right; exists ca; auto|].
    pose proof (same_elem_key _ _ Hs) as Hkz.
    pose proof (same_elem_key _ _ Hs') as Hkz'.
    unfold same_elem in Hs, Hs'.
    apply andb_true_iff in Hs as [Hs _]. apply andb_true_iff in Hs' as [Hs' _].
    apply Z.eqb_eq in Hs, Hs'.
    split.
    + exists z. 
      destruct (intersect_loop_in lb shared [] z Hz) as [[]|[H|H]].
      * apply filter_In in H as [H _]. split; [exact H|]. split; [congruence | exact Hz].
      * exfalso. apply (Hx ca z Hca H Hs).
    + exists z'.
      destruct (intersect_loop_in lb shared [] z' Hz') as [[]|[H|H]].
      * apply filter_In in H as [H _]. exfalso. apply (Hx z' f H Hfin). congruence.
      * split; [exact H|]. split; [congruence | exact Hz'].
Qed.

Lemma intersect_tie_duplicates_witness :
  exists c st' C l,
    runs (merge_by_priority 1 3) st_tie (c, "Intersect") st' /\
    holds st' c C l /\ forall cmd, In cmd l -> In cmd [look_a].
Proof.
  destruct (intersect_tie_duplicates st_tie 1 3 intersect_A dup_B [look_a] [look_b])
    as (c & st' & C & l & H1 & H2 & _ & H3 & _).
  - split; reflexivity.
  - split; reflexivity.
  - reflexivity.
  - reflexivity.
  - exists c, st', C, l. split; [exact H1|]. split; [exact H2|].
    apply H3. intros x y Hx Hy Hk. simpl in Hx, Hy.
    destruct Hx as [<-|[<-|[]]]; destruct Hy as [<-|[<-|[]]]; reflexivity.
Defined.

End IntersectTie.

(* ================================================================== *)
(** * Part III: the command parser                                      *)
(* ================================================================== *)

Section ParserFacts.
Import cmdparser.

(** *** Strings *)

Lemma lstrip_length s : length (lstrip s) <= length s.
Proof.
  induction s as [|c s IH]; simpl; [lia|].
  destruct (is_space c); simpl; lia.
Qed.

Lemma strip_length s : length (strip s) <= length s.
Proof.
  unfold strip, rstrip. rewrite length_rev.
  etransitivity; [apply lstrip_length|]. rewrite length_rev. apply lstrip_length.
Qed.

Lemma lstrip_in s c : In c (lstrip s) -> In c s.
Proof.
  induction s as [|d s IH]; simpl; [auto|].
  destruct (is_space d); simpl; intuition auto.
Qed.

Lemma strip_in s c : In c (strip s) -> In c s.
Proof.
  unfold strip, rstrip. intros H.
  apply in_rev, lstrip_in, in_rev, lstrip_in in H. exact H.
Qed.

Lemma lstrip_blank s : (forall c, In c s -> is_space c = true) -> lstrip s = [].
Proof.
  induction s as [|c s IH]; simpl; intros H; [reflexivity|].
  rewrite (H c) by auto. apply IH. intros d Hd. apply H. auto.
Qed.

Lemma strip_blank s : (forall c, In c s -> is_space c = true) -> strip s = [].
Proof. intros H. unfold strip. rewrite (lstrip_blank s H). reflexivity. Qed.

(** *** The pattern *)

Lemma REGEX_class_members :
  REGEX_class =
  [dquote; "/"; "'"; dquote; ":"; ";"; "-"; "#"; "="; "!"; dquote]%char.
Proof. reflexivity. Qed.

Lemma backslash_not_matched :
  listed_special backslash = true /\ is_special backslash = false.
Proof. split; reflexivity. Qed.

Lemma regex_search_head c s : is_special c = true -> regex_search (c :: s) = Some 0.
Proof. simpl. intros ->. reflexivity. Qed.

Lemma regex_search_Some s : forall p,
  regex_search s = Some p ->
  clean (firstn p s) /\
  exists c, nth_error s p = Some c /\ is_special c = true.
Proof.
  induction s as [|d s IH]; simpl; intros p H; [discriminate|].
  destruct (is_special d) eqn:E.
  - inversion H; subst. split; [intros c []|]. exists d. auto.
  - destruct (regex_search s) as [q|]; [|discriminate].
    inversion H; subst. destruct (IH q eq_refl) as [Hc Hn].
    split; [|exact Hn].
    intros c [<-|Hin]; [exact E | apply Hc, Hin].
Qed.

Lemma regex_search_None s : regex_search s = None -> clean s.
Proof.
  induction s as [|d s IH]; simpl; intros H c Hin; [destruct Hin|].
  destruct (is_special d) eqn:E; [discriminate|].
  destruct (regex_search s); [discriminate|].
  destruct Hin as [<-|Hin]; [exact E | apply IH; auto].
Qed.

Lemma regex_search_not_head c s :
  is_special c = false -> regex_search (c :: s) <> Some 0.
Proof.
  simpl. intros ->. destruct (regex_search s); simpl; congruence.
Qed.

(** *** [produce_candidates] *)

Lemma produce_loop_spec wl n : forall i acc,
  i + n <= length wl ->
  produce_loop (seq i n) (firstn i wl) (skipn i wl) acc
  = Ok (acc ++ map (nth_candidate wl) (seq i n)).
Proof.
  induction n as [|n IH]; intros i acc Hle; simpl.
  - rewrite app_nil_r. reflexivity.
  - destruct (lookup_lt_is_Some_2 wl i) as [w Hw]; [lia|].
    rewrite (drop_S _ _ _ Hw).
    rewrite <- (take_S_r _ _ _ Hw).
    rewrite IH by lia.
    rewrite <- app_assoc. reflexivity.
Qed.

Lemma produce_loop_short wl n : forall i acc,
  i <= length wl -> length wl < i + n ->
  produce_loop (seq i n) (firstn i wl) (skipn i wl) acc = IndexError.
Proof.
  induction n as [|n IH]; intros i acc Hi Hlt; simpl; [lia|].
  destruct (decide (i = length wl)) as [->|Hne].
  - rewrite skipn_all. reflexivity.
  - destruct (lookup_lt_is_Some_2 wl i) as [w Hw]; [lia|].
    rewrite (drop_S _ _ _ Hw).
    rewrite <- (take_S_r _ _ _ Hw).
    apply IH; lia.
Qed.

Lemma produce_candidates_ok k wl :
  Z.to_nat k <= length wl ->
  produce_candidates k wl = Ok (map (nth_candidate wl) (seq 0 (Z.to_nat k))).
Proof.
  intros H. unfold produce_candidates.
  apply (produce_loop_spec wl (Z.to_nat k) 0 []). simpl. exact H.
Qed.

Lemma produce_candidates_short k wl :
  length wl < Z.to_nat k -> produce_candidates k wl = IndexError.
Proof.
  intros H. unfold produce_candidates.
  apply (produce_loop_short wl (Z.to_nat k) 0 []); simpl; lia.
Qed.


(** *** The recursion *)

Lemma produce_candidates_fuel k wl : produce_candidates k wl <> OutOfFuel.
Proof.
  destruct (le_lt_dec (Z.to_nat k) (length wl)) as [H|H].
  - rewrite (produce_candidates_ok _ _ H). discriminate.
  - rewrite (produce_candidates_short _ _ H). discriminate.
Qed.

Lemma is_obj_form_length s e ch :
  is_obj_form s e ch = true -> e + 2 <= length s.
Proof.
  unfold is_obj_form. intros H.
  apply andb_true_iff in H as [H _]. apply andb_true_iff in H as [_ H].
  apply Nat.ltb_lt in H. lia.
Qed.

Lemma cmdparser_body_ext maxlen f g raw :
  (forall x, length x < length raw -> f x = g x) ->
  cmdparser_body maxlen f raw = cmdparser_body maxlen g raw.
Proof.
  intros H. unfold cmdparser_body.
  destruct (regex_search (strip raw)) as [e|]; [|reflexivity].
  destruct (nth_error (strip raw) e) as [ch|]; [|reflexivity].
  destruct (e =? 0)%nat; [reflexivity|].
  destruct (is_obj_form (strip raw) e ch) eqn:E; [|reflexivity].
  rewrite H; [reflexivity|].
  apply is_obj_form_length in E. pose proof (strip_length raw).
  rewrite length_skipn. lia.
Qed.

Lemma cmdparser_fuel_enough maxlen n : forall m raw,
  length raw < n -> length raw < m ->
  cmdparser_fuel maxlen n raw = cmdparser_fuel maxlen m raw.
Proof.
  induction n as [|n IH]; intros m raw Hn Hm; [lia|].
  destruct m as [|m]; [lia|]. simpl.
  apply cmdparser_body_ext. intros x Hx. apply IH; lia.
Qed.

(** [cmdparser] satisfies the recursive equation of the source. *)
Lemma cmdparser_unfold maxlen raw :
  cmdparser maxlen raw = cmdparser_body maxlen (cmdparser maxlen) raw.
Proof.
  unfold cmdparser at 1. simpl.
  apply cmdparser_body_ext. intros x Hx. unfold cmdparser.
  apply cmdparser_fuel_enough; lia.
Qed.

Lemma run_normally_fuel maxlen cands s : run_normally maxlen cands s <> OutOfFuel.
Proof.
  unfold run_normally.
  pose proof (produce_candidates_fuel
                (Z.min maxlen (Z.of_nat (length (split_ws s)))) (split_sp s)).
  destruct (produce_candidates _ _); simpl; congruence.
Qed.

Lemma run_to_end_char_fuel maxlen cands s e :
  run_to_end_char maxlen cands s e <> OutOfFuel.
Proof.
  unfold run_to_end_char.
  destruct (_ <=? maxlen)%Z; [|apply run_normally_fuel].
  pose proof (produce_candidates_fuel
                (Z.of_nat (length (split_ws (firstn e s))))
                (split_sp (firstn e s) ++ split_sp (skipn e s))).
  destruct (produce_candidates _ _); simpl; congruence.
Qed.

(** The fuel [cmdparser] starts with is never used up. *)
Lemma cmdparser_fuel_suffices maxlen n : forall raw,
  length raw < n -> cmdparser_fuel maxlen n raw <> OutOfFuel.
Proof.
  induction n as [|n IH]; intros raw Hn; [lia|]. simpl.
  unfold cmdparser_body.
  destruct (regex_search (strip raw)) as [e|]; [|apply run_normally_fuel].
  destruct (nth_error (strip raw) e) as [ch|]; [|discriminate].
  destruct (e =? 0)%nat; [discriminate|].
  destruct (is_obj_form (strip raw) e ch) eqn:E.
  - assert (Hlen : length (skipn (e + 2) (strip raw)) < n).
    { apply is_obj_form_length in E. pose proof (strip_length raw).
      rewrite length_skipn. lia. }
    pose proof (IH _ Hlen) as Hrec.
    destruct (cmdparser_fuel maxlen n (skipn (e + 2) (strip raw)));
      simpl; [apply run_to_end_char_fuel | discriminate | congruence].
  - simpl. apply run_to_end_char_fuel.
Qed.

Lemma cmdparser_terminates maxlen raw : cmdparser maxlen raw <> OutOfFuel.
Proof. apply cmdparser_fuel_suffices. lia. Qed.


(** *** Splitting *)

Lemma split_sp_not_nil s : split_sp s <> [].
Proof.
  destruct s as [|c s]; simpl; [discriminate|].
  destruct (Ascii.eqb c " "); [discriminate|].
  destruct (split_sp s); discriminate.
Qed.

Lemma split_sp_length_pos s : 1 <= length (split_sp s).
Proof.
  pose proof (split_sp_not_nil s). destruct (split_sp s); simpl; [congruence|lia].
Qed.

Lemma split_sp_in s : forall w c, In w (split_sp s) -> In c w -> In c s.
Proof.
  induction s as [|d s IH]; simpl; intros w c Hw Hc.
  - destruct Hw as [<-|[]]. destruct Hc.
  - destruct (Ascii.eqb d " ").
    + destruct Hw as [<-|Hw]; [destruct Hc|]. right. eapply IH; eauto.
    + destruct (split_sp s) as [|w0 ws] eqn:E.
      * destruct Hw as [<-|[]]. destruct Hc as [<-|[]]. auto.
      * destruct Hw as [<-|Hw].
        -- destruct Hc as [<-|Hc]; [auto|]. right. apply (IH w0); simpl; auto.
        -- right. apply (IH w); simpl; auto.
Qed.

Lemma split_sp_app_firstn p q : forall n,
  n < length (split_sp p) ->
  firstn n (split_sp (p ++ q)) = firstn n (split_sp p).
Proof.
  induction p as [|d p IH]; simpl; intros n Hn.
  - replace n with 0 by lia. reflexivity.
  - destruct (Ascii.eqb d " ").
    + destruct n as [|n]; [reflexivity|]. simpl in *.
      f_equal. apply IH. lia.
    + pose proof (split_sp_not_nil p) as Hp.
      pose proof (split_sp_not_nil (p ++ q)) as Hpq.
      destruct (split_sp p) as [|w ws] eqn:E1; [congruence|].
      destruct (split_sp (p ++ q)) as [|w' ws'] eqn:E2; [congruence|].
      destruct n as [|n]; [reflexivity|]. simpl in *.
      specialize (IH (S n) ltac:(lia)). simpl in IH.
      inversion IH; subst. reflexivity.
Qed.

Lemma is_space_space : is_space " " = true.
Proof. reflexivity. Qed.

Lemma plain_spaces_eqb s c :
  plain_spaces s -> In c s -> Ascii.eqb c " " = is_space c.
Proof.
  intros H Hin. destruct (is_space c) eqn:E.
  - rewrite (H c Hin E). reflexivity.
  - apply Ascii.eqb_neq. intros ->. rewrite is_space_space in E. discriminate.
Qed.

Lemma plain_spaces_cons c s : plain_spaces (c :: s) -> plain_spaces s.
Proof. intros H d Hd. apply H. right. exact Hd. Qed.

(** With spaces as the only blanks there are at most as many words as
    pieces between spaces. *)
Lemma split_ws_le_split_sp s :
  plain_spaces s ->
  length (split_ws s) <= length (split_sp s) /\
  (match s with
   | [] => True
   | c :: _ => is_space c = true
   end -> S (length (split_ws s)) <= length (split_sp s)).
Proof.
  induction s as [|c s IH]; intros Hp.
  - simpl. split; lia.
  - destruct (IH (plain_spaces_cons _ _ Hp)) as [IH1 IH2].
    simpl split_sp. simpl split_ws.
    rewrite (plain_spaces_eqb _ _ Hp) by (left; reflexivity).
    destruct (is_space c) eqn:Ec.
    + simpl. split; [lia|]. intros _. lia.
    + split; [|discriminate].
      pose proof (split_sp_length_pos s) as Hpos.
      destruct (split_sp s) as [|w0 ws0] eqn:Esp; [simpl in Hpos; lia|].
      simpl length in *.
      destruct s as [|c' s']; [simpl; lia|].
      destruct (is_space c') eqn:Ec'.
      * simpl length at 1. apply IH2. reflexivity.
      * destruct (split_ws (c' :: s')); simpl in *; lia.
Qed.

Lemma plain_spaces_firstn n s : plain_spaces s -> plain_spaces (firstn n s).
Proof.
  intros H c Hc. apply H. rewrite <- (firstn_skipn n s). apply in_app_iff. auto.
Qed.

Lemma plain_spaces_skipn n s : plain_spaces s -> plain_spaces (skipn n s).
Proof.
  intros H c Hc. apply H. rewrite <- (firstn_skipn n s). apply in_app_iff. auto.
Qed.

Lemma plain_spaces_strip s : plain_spaces s -> plain_spaces (strip s).
Proof. intros H c Hc. apply H, strip_in, Hc. Qed.

(** *** Names made of clean words *)

Lemma is_special_lower c : is_special c = false -> is_special (lower_char c) = false.
Proof.
  destruct c as [[] [] [] [] [] [] [] []]; vm_compute; congruence.
Qed.

Lemma is_special_listed c : is_special c = true -> listed_special c = true.
Proof.
  destruct c as [[] [] [] [] [] [] [] []]; vm_compute; congruence.
Qed.

Lemma clean_lower w : clean w -> clean (lower w).
Proof.
  intros H c Hc. unfold lower in Hc. apply in_map_iff in Hc as (d & <- & Hd).
  apply is_special_lower, H, Hd.
Qed.

Lemma clean_strip w : clean w -> clean (strip w).
Proof. intros H c Hc. apply H, strip_in, Hc. Qed.

Lemma clean_app a b : clean a -> clean b -> clean (a ++ b).
Proof. intros Ha Hb c Hc. apply in_app_iff in Hc as [Hc|Hc]; auto. Qed.

Lemma clean_join sep ws :
  clean sep -> (forall w, In w ws -> clean w) -> clean (join sep ws).
Proof.
  intros Hs. induction ws as [|w ws IH]; intros H.
  - intros c [].
  - destruct ws as [|w' ws'].
    + simpl. apply H. left. reflexivity.
    + change (join sep (w :: w' :: ws')) with (w ++ sep ++ join sep (w' :: ws')).
      apply clean_app; [apply H; left; reflexivity|].
      apply clean_app; [exact Hs|].
      apply IH. intros x Hx. apply H. right. exact Hx.
Qed.

Lemma clean_space : clean (lit " ").
Proof. intros c [<-|[]]. reflexivity. Qed.

Lemma firstn_in {A} (l : list A) n x : In x (firstn n l) -> In x l.
Proof.
  intros H. rewrite <- (firstn_skipn n l). apply in_app_iff. auto.
Qed.

Lemma firstn_in_le {A} (l : list A) n m x :
  n <= m -> In x (firstn n l) -> In x (firstn m l).
Proof.
  intros Hle Hx. replace m with (n + (m - n)) by lia.
  rewrite <- take_take_drop. apply in_app_iff. auto.
Qed.

Lemma nth_candidate_clean wl K i :
  i < K -> (forall w, In w (firstn K wl) -> clean w) ->
  clean (cmdname (nth_candidate wl i)).
Proof.
  intros Hi H. simpl. apply clean_join; [apply clean_space|].
  intros w Hw. apply in_map_iff in Hw as (x & <- & Hx).
  apply clean_lower, clean_strip, H.
  apply (firstn_in_le wl (S i) K); [lia | exact Hx].
Qed.

(** What [produce_candidates] returns when the words it turns into
    names are clean. *)
Lemma produce_candidates_clean k wl :
  Z.to_nat k <= length wl ->
  (forall w, In w (firstn (Z.to_nat k) wl) -> clean w) ->
  exists cs,
    produce_candidates k wl = Ok cs /\ length cs = Z.to_nat k /\
    forall cand, In cand cs -> clean (cmdname cand) /\ obj_key cand = None.
Proof.
  intros Hle Hcl. eexists. split; [apply (produce_candidates_ok _ _ Hle)|].
  split; [rewrite length_map, length_seq; reflexivity|].
  intros cand Hin. apply in_map_iff in Hin as (i & <- & Hi).
  apply in_seq in Hi. split; [|reflexivity].
  apply (nth_candidate_clean wl (Z.to_nat k)); [lia | exact Hcl].
Qed.

End ParserFacts.

(** ** Inputs whose blanks are spaces *)

Section ParserRuns.
Import cmdparser.

Lemma lstrip_head s c t : lstrip s = c :: t -> is_space c = false.
Proof.
  induction s as [|d s IH]; simpl; [discriminate|].
  destruct (is_space d) eqn:E; [exact IH|].
  intros H. inversion H; subst. exact E.
Qed.

Lemma lstrip_snoc l c :
  is_space c = false -> exists l', lstrip (l ++ [c]) = l' ++ [c].
Proof.
  intros Hc. induction l as [|d l IH]; simpl.
  - rewrite Hc. exists []. reflexivity.
  - destruct (is_space d); [exact IH|]. exists (d :: l). reflexivity.
Qed.

Lemma strip_head raw c t : strip raw = c :: t -> is_space c = false.
Proof.
  unfold strip, rstrip.
  destruct (lstrip raw) as [|d s] eqn:E; [discriminate|].
  pose proof (lstrip_head _ _ _ E) as Hd.
  simpl rev. destruct (lstrip_snoc (rev s) d Hd) as [l' ->].
  rewrite rev_app_distr. simpl. intros H. inversion H; subst. exact Hd.
Qed.

Lemma split_ws_not_nil c s : is_space c = false -> split_ws (c :: s) <> [].
Proof.
  intros Hc. simpl. rewrite Hc.
  destruct s as [|c' s']; [discriminate|].
  destruct (is_space c'); [discriminate|].
  destruct (split_ws (c' :: s')); discriminate.
Qed.

(** Lines 168-174 on a string without special characters whose blanks
    are spaces. *)
Lemma run_normally_clean maxlen cands s :
  clean s -> plain_spaces s ->
  exists rest,
    run_normally maxlen cands s = Ok (cands ++ rest) /\
    length rest = Z.to_nat (Z.min maxlen (Z.of_nat (length (split_ws s)))) /\
    forall cand, In cand rest -> clean (cmdname cand) /\ obj_key cand = None.
Proof.
  intros Hc Hp. unfold run_normally.
  destruct (produce_candidates_clean
              (Z.min maxlen (Z.of_nat (length (split_ws s)))) (split_sp s))
    as (cs & Hrun & Hlen & Hcs).
  - pose proof (proj1 (split_ws_le_split_sp s Hp)). lia.
  - intros w Hw c Hin. apply firstn_in in Hw.
    apply Hc. eapply split_sp_in; eauto.
  - exists cs. rewrite Hrun. simpl. auto.
Qed.

(** Lines 159-174 for the first special character at [e], on a string
    whose blanks are spaces. *)
Lemma run_to_end_char_clean maxlen cands s e :
  regex_search s = Some e -> plain_spaces s ->
  exists rest,
    run_to_end_char maxlen cands s e = Ok (cands ++ rest) /\
    (forall cand, In cand rest -> clean (cmdname cand) /\ obj_key cand = None) /\
    ((1 <= maxlen)%Z -> (forall c t, s = c :: t -> is_space c = false) ->
     e <> 0 -> rest <> []).
Proof.
  intros He Hp.
  destruct (regex_search_Some _ _ He) as (Hcl & ch & Hch & Hsp).
  pose proof (proj1 (split_ws_le_split_sp _ (plain_spaces_firstn e s Hp))) as Hle.
  pose proof (proj1 (split_ws_le_split_sp _ Hp)) as Hle'.
  assert (Hpos : (forall c t, s = c :: t -> is_space c = false) -> e <> 0 ->
                 1 <= length (split_ws (firstn e s)) /\
                 1 <= length (split_ws s)).
  { intros Hhd Hne. destruct s as [|c t]; [destruct e; discriminate|].
    pose proof (Hhd c t eq_refl) as Hc.
    destruct e as [|e]; [congruence|]. simpl firstn.
    pose proof (split_ws_not_nil c (firstn e t) Hc).
    pose proof (split_ws_not_nil c t Hc).
    destruct (split_ws (c :: firstn e t)); [congruence|].
    destruct (split_ws (c :: t)); [congruence|]. simpl. lia. }
  unfold run_to_end_char.
  destruct (Z.of_nat (length (split_ws (firstn e s))) <=? maxlen)%Z eqn:E.
  - destruct (produce_candidates_clean
                (Z.of_nat (length (split_ws (firstn e s))))
                (split_sp (firstn e s) ++ split_sp (skipn e s)))
      as (cs & Hrun & Hlen & Hcs).
    + rewrite Nat2Z.id, length_app. lia.
    + rewrite Nat2Z.id. intros w Hw c Hin.
      rewrite take_app_le in Hw by lia. apply firstn_in in Hw.
      apply Hcl. eapply split_sp_in; eauto.
    + exists cs. rewrite Hrun. simpl. split; [reflexivity|]. split; [exact Hcs|].
      intros _ Hhd Hne Hnil. subst cs. simpl in Hlen.
      rewrite Nat2Z.id in Hlen. destruct (Hpos Hhd Hne). lia.
  - unfold run_normally.
    set (k := Z.min maxlen (Z.of_nat (length (split_ws s)))).
    destruct (produce_candidates_clean k (split_sp s))
      as (cs & Hrun & Hlen & Hcs).
    + unfold k. lia.
    + intros w Hw c Hin.
      assert (Hk : Z.to_nat k < length (split_sp (firstn e s))).
      { pose proof (split_sp_length_pos (firstn e s)). unfold k. lia. }
      rewrite <- (firstn_skipn e s) in Hw at 1.
      rewrite (split_sp_app_firstn _ _ _ Hk) in Hw.
      apply firstn_in in Hw. apply Hcl. eapply split_sp_in; eauto.
    + exists cs. rewrite Hrun. simpl. split; [reflexivity|]. split; [exact Hcs|].
      intros Hm Hhd Hne Hnil. subst cs. simpl in Hlen.
      destruct (Hpos Hhd Hne). unfold k in Hlen. lia.
Qed.

Lemma cmdparser_names maxlen n : forall raw,
  length raw < n -> plain_spaces (strip raw) ->
  exists cs,
    cmdparser maxlen raw = Ok cs /\
    forall cand, In cand cs ->
      name_ok cand /\
      ((forall c t, strip raw = c :: t -> is_special c = false) ->
       obj_key cand = None -> clean (cmdname cand)).
Proof.
  induction n as [|n IH]; intros raw Hn Hp; [lia|].
  rewrite cmdparser_unfold. unfold cmdparser_body.
  destruct (regex_search (strip raw)) as [e|] eqn:He.
  - destruct (regex_search_Some _ _ He) as (Hcl & ch & Hch & Hsp).
    rewrite Hch.
    destruct (e =? 0)%nat eqn:E0.
    + apply Nat.eqb_eq in E0. subst e.
      eexists. split; [reflexivity|].
      intros cand [<-|[]]. split.
      * right. exists ch. auto.
      * intros Hhd _. destruct (strip raw) as [|c t]; [discriminate|].
        simpl in Hch. inversion Hch; subst.
        rewrite (Hhd ch t eq_refl) in Hsp. discriminate.
    + apply Nat.eqb_neq in E0.
      destruct (is_obj_form (strip raw) e ch) eqn:Eo.
      * assert (Hlen : length (skipn (e + 2) (strip raw)) < n).
        { apply is_obj_form_length in Eo. pose proof (strip_length raw).
          rewrite length_skipn. lia. }
        destruct (IH _ Hlen) as (alt & Halt & Hgood).
        { apply plain_spaces_strip, plain_spaces_skipn, Hp. }
        rewrite Halt. simpl.
        destruct (run_to_end_char_clean maxlen
                    (map (set_obj_key (firstn e (strip raw))) alt)
                    (strip raw) e He Hp) as (rest & Hrun & Hrest & _).
        rewrite Hrun. eexists. split; [reflexivity|].
        intros cand Hin. apply in_app_iff in Hin as [Hin|Hin].
        -- apply in_map_iff in Hin as (a & <- & Ha).
           split; [apply (proj1 (Hgood a Ha)) | discriminate].
        -- destruct (Hrest cand Hin) as [H1 H2]. split; [left; exact H1 | auto].
      * simpl.
        destruct (run_to_end_char_clean maxlen [] (strip raw) e He Hp)
          as (rest & Hrun & Hrest & _).
        rewrite Hrun. eexists. split; [reflexivity|].
        intros cand Hin. destruct (Hrest cand Hin) as [H1 H2].
        split; [left; exact H1 | auto].
  - destruct (run_normally_clean maxlen [] (strip raw)
                (regex_search_None _ He) Hp) as (rest & Hrun & _ & Hrest).
    rewrite Hrun. eexists. split; [reflexivity|].
    intros cand Hin. destruct (Hrest cand Hin) as [H1 H2].
    split; [left; exact H1 | auto].
Qed.

End ParserRuns.

(** ** Where the characters of a name come from *)

Section ParserNameChars.
Import cmdparser.

Lemma produce_candidates_inv k wl cs :
  produce_candidates k wl = Ok cs ->
  Z.to_nat k <= length wl /\ cs = map (nth_candidate wl) (seq 0 (Z.to_nat k)).
Proof.
  intros H. destruct (le_lt_dec (Z.to_nat k) (length wl)) as [Hle|Hlt].
  - rewrite (produce_candidates_ok _ _ Hle) in H. inversion H. auto.
  - rewrite (produce_candidates_short _ _ Hlt) in H. discriminate.
Qed.

Lemma listed_special_cases c :
  listed_special c = is_special c || Ascii.eqb c backslash.
Proof. destruct c as [[] [] [] [] [] [] [] []]; reflexivity. Qed.

Lemma lower_char_backslash c : lower_char c = backslash -> c = backslash.
Proof. destruct c as [[] [] [] [] [] [] [] []]; vm_compute; congruence. Qed.

Lemma skipn_in {A} (l : list A) n x : In x (skipn n l) -> In x l.
Proof.
  intros H. rewrite <- (firstn_skipn n l). apply in_app_iff. auto.
Qed.

Lemma in_join sep (ws : list str) c :
  In c (join sep ws) -> In c sep \/ exists w, In w ws /\ In c w.
Proof.
  induction ws as [|w ws IH]; [intros []|].
  destruct ws as [|w' ws'].
  - simpl. intros H. right. exists w. auto.
  - change (join sep (w :: w' :: ws')) with (w ++ sep ++ join sep (w' :: ws')).
    intros H. apply in_app_iff in H as [H|H].
    + right. exists w. split; [left; reflexivity | exact H].
    + apply in_app_iff in H as [H|H]; [auto|].
      destruct (IH H) as [Hs|(x & Hx & Hc)]; [auto|].
      right. exists x. split; [right; exact Hx | exact Hc].
Qed.

(** A clean string without backslash holds no listed character. *)
Lemma clean_unlisted s : clean s -> ~ In backslash s -> unlisted s.
Proof.
  intros Hc Hb c Hin. rewrite listed_special_cases, (Hc c Hin). simpl.
  apply Ascii.eqb_neq. intros ->. exact (Hb Hin).
Qed.

Lemma nth_candidate_no_backslash wl i :
  (forall w, In w wl -> ~ In backslash w) ->
  ~ In backslash (cmdname (nth_candidate wl i)).
Proof.
  intros H Hin. simpl in Hin. apply in_join in Hin as [Hs|(w & Hw & Hc)].
  - destruct Hs as [Hs|[]]. discriminate Hs.
  - apply in_map_iff in Hw as (x & <- & Hx).
    unfold lower in Hc. apply in_map_iff in Hc as (d & Hd & Hin).
    apply lower_char_backslash in Hd. subst d.
    apply strip_in in Hin. apply (H x); [eapply firstn_in; exact Hx | exact Hin].
Qed.

(** Lines 168-174 make no name with a backslash from a string without
    one. *)
Lemma run_normally_no_backslash maxlen cands s cs :
  run_normally maxlen cands s = Ok cs -> ~ In backslash s ->
  forall cand, In cand cs -> In cand cands \/ ~ In backslash (cmdname cand).
Proof.
  unfold run_normally. intros H Hs cand Hin.
  destruct (produce_candidates _ _) as [p| |] eqn:E; try discriminate.
  simpl in H. inversion H; subst.
  apply produce_candidates_inv in E as [_ ->].
  apply in_app_iff in Hin as [Hin|Hin]; [auto|]. right.
  apply in_map_iff in Hin as (i & <- & _).
  apply nth_candidate_no_backslash. intros w Hw Hc.
  apply Hs. eapply split_sp_in; eauto.
Qed.

Lemma run_to_end_char_no_backslash maxlen cands s e cs :
  run_to_end_char maxlen cands s e = Ok cs -> ~ In backslash s ->
  forall cand, In cand cs -> In cand cands \/ ~ In backslash (cmdname cand).
Proof.
  unfold run_to_end_char.
  destruct (_ <=? maxlen)%Z; [|apply run_normally_no_backslash].
  intros H Hs cand Hin.
  destruct (produce_candidates _ _) as [p| |] eqn:E; try discriminate.
  simpl in H. inversion H; subst.
  apply produce_candidates_inv in E as [_ ->].
  apply in_app_iff in Hin as [Hin|Hin]; [auto|]. right.
  apply in_map_iff in Hin as (i & <- & _).
  apply nth_candidate_no_backslash. intros w Hw Hc. apply Hs.
  apply in_app_iff in Hw as [Hw|Hw].
  - apply (firstn_in s e). eapply split_sp_in; eauto.
  - apply (skipn_in s e). eapply split_sp_in; eauto.
Qed.

(** The parser makes no name with a backslash from an input without
    one. *)
Lemma cmdparser_no_backslash maxlen n : forall raw cs,
  length raw < n -> ~ In backslash (strip raw) ->
  cmdparser maxlen raw = Ok cs ->
  forall cand, In cand cs -> ~ In backslash (cmdname cand).
Proof.
  induction n as [|n IH]; intros raw cs Hn Hb; [lia|].
  rewrite cmdparser_unfold. unfold cmdparser_body.
  destruct (regex_search (strip raw)) as [e|] eqn:He.
  - destruct (regex_search_Some _ _ He) as (Hcl & ch & Hch & Hsp).
    rewrite Hch.
    destruct (e =? 0)%nat eqn:E0.
    + intros Hr. inversion Hr; subst. intros cand [<-|[]]. simpl.
      intros [Hq|[]]. subst ch. discriminate Hsp.
    + destruct (is_obj_form (strip raw) e ch) eqn:Eo.
      * destruct (cmdparser maxlen (skipn (e + 2) (strip raw))) as [alt| |] eqn:Ea;
          simpl; try discriminate.
        intros Hr cand Hin.
        destruct (run_to_end_char_no_backslash _ _ _ _ _ Hr Hb cand Hin)
          as [Hc|Hc]; [|exact Hc].
        apply in_map_iff in Hc as (a & <- & Ha). simpl.
        apply (IH (skipn (e + 2) (strip raw)) alt); [| |exact Ea|exact Ha].
        -- apply is_obj_form_length in Eo. pose proof (strip_length raw).
           rewrite length_skipn. lia.
        -- intros Hin'. apply Hb. eapply skipn_in, strip_in, Hin'.
      * simpl. intros Hr cand Hin.
        destruct (run_to_end_char_no_backslash _ _ _ _ _ Hr Hb cand Hin)
          as [[]|Hc]; exact Hc.
  - intros Hr cand Hin.
    destruct (run_normally_no_backslash _ _ _ _ Hr Hb cand Hin) as [[]|Hc]; exact Hc.
Qed.

End ParserNameChars.

(** ** Properties of the parser *)

Section ParserClaims.
Import cmdparser.

(** C10.  For every input that is empty or made of blanks only, whatever
    the word limit, the parser returns the empty sequence of candidates,
    and raises nothing. *)
Theorem blank_input_no_candidates maxlen raw :
  (forall c, In c raw -> is_space c = true) ->
  cmdparser maxlen raw = Ok [].
Proof.
  intros H. rewrite cmdparser_unfold. unfold cmdparser_body.
  rewrite (strip_blank raw H). simpl regex_search. cbv iota.
  unfold run_normally. simpl split_ws. simpl split_sp.
  rewrite produce_candidates_ok by (simpl; lia).
  replace (Z.to_nat (Z.min maxlen (Z.of_nat (length (@nil str))))) with 0
    by (simpl; lia).
  reflexivity.
Qed.

Lemma blank_input_no_candidates_witness :
  cmdparser 3 (lit "   ") = Ok [] /\ cmdparser 3 [tab; " "%char] = Ok [].
Proof.
  split.
  - apply (blank_input_no_candidates 3 (lit "   ")).
    intros c [<-|[<-|[<-|[]]]]; reflexivity.
  - apply (blank_input_no_candidates 3 [tab; " "%char]).
    intros c [<-|[<-|[]]]; reflexivity.
Defined.

(** C8, as stated, fails: with a word budget of two and a list of one
    word, [produce_candidates] raises [IndexError] (the second [pop]
    finds the list empty) and produces no candidate. *)
Lemma produce_candidates_needs_words :
  produce_candidates 2 [lit "a"] = IndexError /\
  ~ exists cs, produce_candidates 2 [lit "a"] = Ok cs /\ length cs = 2.
Proof.
  split; [reflexivity|]. intros (cs & H & _). discriminate H.
Qed.

(** C8, amended.  For every word list and every word budget [k] that
    does not exceed the length of the list, candidate generation
    produces exactly [k] candidates; candidate [i] (from 0) has as name
    the first [i+1] words, each stripped of surrounding blanks and
    lowercased, joined by single spaces, as argument text the remaining
    words, and [i] as priority.  With a limit of three words, "hit orc
    with sword" parses to the candidates "hit", "hit orc" and "hit orc
    with", in this order, with "orc with sword", "with sword" and
    "sword" as argument texts. *)
Theorem produce_candidates_within_words :
  (forall (k : nat) (wordlist : list str),
     k <= length wordlist ->
     exists cs,
       produce_candidates (Z.of_nat k) wordlist = Ok cs /\ length cs = k /\
       forall i, i < k -> nth_error cs i = Some (nth_candidate wordlist i)) /\
  cmdparser 3 (lit "hit orc with sword") =
  Ok [ mkCandidate (lit "hit") (lit "orc with sword") 0 None;
       mkCandidate (lit "hit orc") (lit "with sword") 1 None;
       mkCandidate (lit "hit orc with") (lit "sword") 2 None ].
Proof.
  split; [|reflexivity].
  intros k wl Hk. eexists. split; [|split].
  - apply produce_candidates_ok. rewrite Nat2Z.id. exact Hk.
  - rewrite length_map, length_seq. apply Nat2Z.id.
  - intros i Hi. rewrite Nat2Z.id, nth_error_map, nth_error_seq.
    replace (i <? k)%nat with true by (symmetry; apply Nat.ltb_lt, Hi).
    reflexivity.
Qed.

Lemma produce_candidates_within_words_witness :
  exists cs,
    produce_candidates 2 [lit "Hit"; lit "orc"; lit "hard"] = Ok cs /\
    length cs = 2 /\
    nth_error cs 1 = Some (mkCandidate (lit "hit orc") (lit "hard") 1 None).
Proof.
  destruct (proj1 produce_candidates_within_words 2
              [lit "Hit"; lit "orc"; lit "hard"]) as (cs & H1 & H2 & H3).
  - simpl. lia.
  - exists cs. split; [exact H1|]. split; [exact H2|]. apply (H3 1). lia.
Defined.

(** C7, as stated, fails.  The input "bob's :wave" does not begin with a
    special character, yet one of its candidates is named ":": the text
    after the possessive is parsed as a line of its own, and that line
    begins with a special character. *)
Lemma reparse_names_special_character :
  hd_error (strip (lit "bob's :wave")) = Some "b"%char /\
  listed_special "b" = false /\
  cmdparser 3 (lit "bob's :wave") =
    Ok [ mkCandidate (lit ":") (lit "wave") 0 (Some (lit "bob"));
         mkCandidate (lit "bob") (lit "'s:wave") 0 None ] /\
  ~ names_without_special (cmdparser 3 (lit "bob's :wave")).
Proof.
  split; [reflexivity|]. split; [reflexivity|]. split; [reflexivity|].
  intros H.
  specialize (H _ eq_refl _ (or_introl eq_refl) ":"%char (or_introl eq_refl)).
  discriminate H.
Qed.

(** The source lists the backslash among the special characters, but
    the pattern compiled from the list does not match it: there the
    backslash escapes the quote that follows.  A leading backslash is
    thus no command name of its own. *)
Example leading_backslash :
  listed_special backslash = true /\ is_special backslash = false /\
  cmdparser 3 (backslash :: lit "look") =
    Ok [mkCandidate (backslash :: lit "look") [] 0 None].
Proof. repeat split. Qed.

(** The characters the compiled pattern does match. *)
Lemma is_special_iff c :
  is_special c = true <->
  In c [dquote; "/"; "'"; ":"; ";"; "-"; "#"; "="; "!"]%char.
Proof.
  unfold is_special. rewrite REGEX_class_members, existsb_exists. split.
  - intros (x & Hin & Heq). apply Ascii.eqb_eq in Heq. subst x.
    simpl in *. intuition auto.
  - intros Hin. exists c. split; [|apply Ascii.eqb_refl].
    simpl in *. intuition auto.
Qed.

(** C7, amended.  The boundary characters are the ten the source lists.
    If the trimmed input begins with one of them other than the
    backslash, the parser returns exactly one candidate: its name is
    that character, its argument text all that follows, unchanged.  If
    the trimmed input holds no backslash, begins with none of the ten
    and has spaces as its only blanks, the parser returns candidates of
    which each one without object key has a name free of the ten
    characters, and each one with an object key (a candidate of the text
    after the possessive, parsed as a line of its own) has a name free
    of them or made of one of them alone.  Inputs with a backslash are
    left out: there the compiled pattern departs from the list it is
    built from, see [leading_backslash]. *)
Theorem leading_special_or_clean_names maxlen raw :
  (forall c rest, strip raw = c :: rest ->
     listed_special c = true -> c <> backslash ->
     cmdparser maxlen raw = Ok [mkCandidate [c] rest 0 None]) /\
  (plain_spaces (strip raw) -> ~ In backslash (strip raw) ->
   (forall c rest, strip raw = c :: rest -> listed_special c = false) ->
   exists cs,
     cmdparser maxlen raw = Ok cs /\
     forall cand, In cand cs ->
       (obj_key cand = None -> unlisted (cmdname cand)) /\
       (unlisted (cmdname cand) \/
        exists c, cmdname cand = [c] /\ listed_special c = true)).
Proof.
  split.
  - intros c rest Hs Hl Hb.
    assert (Hc : is_special c = true).
    { rewrite listed_special_cases in Hl.
      apply orb_true_iff in Hl as [Hl|Hl]; [exact Hl|].
      apply Ascii.eqb_eq in Hl. contradiction. }
    rewrite cmdparser_unfold. unfold cmdparser_body.
    rewrite Hs, (regex_search_head c rest Hc). simpl.
    destruct rest; reflexivity.
  - intros Hp Hb Hhd.
    destruct (cmdparser_names maxlen (S (length raw)) raw (Nat.lt_succ_diag_r _) Hp)
      as (cs & Hrun & Hcs).
    exists cs. split; [exact Hrun|].
    intros cand Hin. destruct (Hcs cand Hin) as [H1 H2].
    pose proof (cmdparser_no_backslash maxlen (S (length raw)) raw cs
                  (Nat.lt_succ_diag_r _) Hb Hrun cand Hin) as Hnb.
    split.
    + intros Hk. apply clean_unlisted; [|exact Hnb]. apply H2; [|exact Hk].
      intros c t Hs. specialize (Hhd c t Hs).
      destruct (is_special c) eqn:E; [|reflexivity].
      apply is_special_listed in E. congruence.
    + destruct H1 as [H1|(c & Hn & Hc)].
      * left. apply clean_unlisted; assumption.
      * right. exists c. split; [exact Hn | apply is_special_listed, Hc].
Qed.

Lemma leading_special_or_clean_names_witness :
  cmdparser 3 (lit ":") = Ok [mkCandidate (lit ":") [] 0 None] /\
  cmdparser 3 (lit "!hello there") =
    Ok [mkCandidate (lit "!") (lit "hello there") 0 None] /\
  exists cs,
    cmdparser 3 (lit "red door's /open now") = Ok cs /\
    List.Forall
      (fun cand =>
         (obj_key cand = None -> unlisted (cmdname cand)) /\
         (unlisted (cmdname cand) \/
          exists c, cmdname cand = [c] /\ listed_special c = true)) cs.
Proof.
  split; [|split].
  - apply (proj1 (leading_special_or_clean_names 3 (lit ":")) ":"%char []);
      [reflexivity | reflexivity | discriminate].
  - apply (proj1 (leading_special_or_clean_names 3 (lit "!hello there"))
             "!"%char (lit "hello there"));
      [reflexivity | reflexivity | discriminate].
  - destruct (proj2 (leading_special_or_clean_names 3 (lit "red door's /open now")))
      as (cs & H1 & H2).
    + intros c Hc Hs. vm_compute in Hc.
      repeat (destruct Hc as [<-|Hc]; [try discriminate Hs; try reflexivity|]).
      destruct Hc.
    + intros Hc. vm_compute in Hc.
      repeat (destruct Hc as [Hc|Hc]; [discriminate Hc|]). destruct Hc.
    + intros c rest Hs. vm_compute in Hs. inversion Hs. reflexivity.
    + exists cs. split; [exact H1|]. apply List.Forall_forall. exact H2.
Defined.

End ParserClaims.

(** ** The possessive form *)

Section PossessiveForm.
Import cmdparser.

Lemma run_to_end_char_prepend maxlen cands s e :
  run_to_end_char maxlen cands s e =
  obind (run_to_end_char maxlen [] s e) (fun rest => Ok (cands ++ rest)).
Proof.
  unfold run_to_end_char, run_normally.
  destruct (_ <=? maxlen)%Z;
    destruct (produce_candidates _ _); reflexivity.
Qed.

Lemma str_eqb_refl s : str_eqb s s = true.
Proof.
  induction s as [|c s IH]; simpl; [reflexivity|].
  rewrite Ascii.eqb_refl. exact IH.
Qed.

(** C9 (the code departs from the claim).  The input is of the form
    [<word>'s <rest>]: its first special character is the apostrophe at
    position 3, followed by "s ".  The text after the possessive holds a
    tab between two words; its reparse counts two words
    ([split(None)]) but cuts the text at spaces only ([split(" ")]),
    into one piece, and the second [pop] of [produce_candidates] raises
    [IndexError].  No candidate is returned, with or without object
    key. *)
Theorem possessive_reparse_raises_on_tab :
  regex_search (strip (lit "bob's kick" ++ [tab] ++ lit "ball")) = Some 3 /\
  is_obj_form (strip (lit "bob's kick" ++ [tab] ++ lit "ball")) 3 "'" = true /\
  cmdparser 3 (lit "bob's kick" ++ [tab] ++ lit "ball") = IndexError.
Proof. repeat split. Qed.

(** The possessive form on inputs whose blanks are all spaces.  When the
    first special character of the trimmed input is an apostrophe at a
    position [e > 0] followed by "s ", the parser succeeds; it returns
    the candidates of the text after the possessive, parsed as a line of
    its own, each with the text before the apostrophe as object key,
    followed by the candidates of the whole line, which have no object
    key and, for a word limit of at least one, are there. *)
Theorem possessive_form_parse maxlen raw e :
  regex_search (strip raw) = Some e -> e <> 0 ->
  nth_error (strip raw) e = Some "'"%char ->
  firstn 2 (skipn (e + 1) (strip raw)) = lit "s " ->
  plain_spaces (strip raw) ->
  exists alt rest,
    cmdparser maxlen (skipn (e + 2) (strip raw)) = Ok alt /\
    run_to_end_char maxlen [] (strip raw) e = Ok rest /\
    cmdparser maxlen raw =
      Ok (map (set_obj_key (firstn e (strip raw))) alt ++ rest) /\
    (forall cand, In cand rest -> obj_key cand = None) /\
    ((1 <= maxlen)%Z -> rest <> []).
Proof.
  intros He Hne Hch Hs Hp.
  assert (Hform : is_obj_form (strip raw) e "'" = true).
  { unfold is_obj_form. rewrite Hs, str_eqb_refl, Ascii.eqb_refl. simpl.
    rewrite andb_true_r. apply Nat.ltb_lt.
    apply (f_equal (@length ascii)) in Hs.
    rewrite length_firstn, length_skipn in Hs.
    change (length (lit "s ")) with 2 in Hs. lia. }
  destruct (cmdparser_names maxlen (S (length (skipn (e + 2) (strip raw))))
              (skipn (e + 2) (strip raw)) (Nat.lt_succ_diag_r _))
    as (alt & Halt & _).
  { apply plain_spaces_strip, plain_spaces_skipn, Hp. }
  destruct (run_to_end_char_clean maxlen [] (strip raw) e He Hp)
    as (rest & Hrest & Hnone & Hpos).
  simpl in Hrest.
  exists alt, rest. split; [exact Halt|]. split; [exact Hrest|].
  split; [|split].
  - rewrite cmdparser_unfold. unfold cmdparser_body.
    rewrite He, Hch.
    replace (e =? 0)%nat with false by (symmetry; apply Nat.eqb_neq, Hne).
    rewrite Hform, Halt. simpl.
    rewrite run_to_end_char_prepend, Hrest. reflexivity.
  - intros cand Hin. apply (Hnone cand Hin).
  - intros Hm. apply Hpos; [exact Hm | | exact Hne].
    intros c t Hc. apply (strip_head raw c t Hc).
Qed.

Lemma possessive_form_parse_witness :
  cmdparser 3 (lit "red door's push hard") =
  Ok [ mkCandidate (lit "push") (lit "hard") 0 (Some (lit "red door"));
       mkCandidate (lit "push hard") [] 1 (Some (lit "red door"));
       mkCandidate (lit "red") (lit "door's push hard") 0 None;
       mkCandidate (lit "red door") (lit "'s push hard") 1 None ].
Proof.
  destruct (possessive_form_parse 3 (lit "red door's push hard") 8)
    as (alt & rest & H1 & H2 & H3 & _).
  - reflexivity.
  - discriminate.
  - reflexivity.
  - reflexivity.
  - intros c Hc Hs. vm_compute in Hc.
    repeat (destruct Hc as [<-|Hc]; [try discriminate Hs; try reflexivity|]).
    destruct Hc.
  - rewrite H3. vm_compute in H1. vm_compute in H2.
    inversion H1. inversion H2. reflexivity.
Defined.

End PossessiveForm.

(** ** The shape of every result *)

Section ParserShape.
Import cmdparser.

Lemma split_sp_no_space s : forall w, In w (split_sp s) -> ~ In " "%char w.
Proof.
  induction s as [|d s IH]; simpl; intros w Hw.
  - destruct Hw as [<-|[]]. intros [].
  - destruct (Ascii.eqb d " ") eqn:E.
    + destruct Hw as [<-|Hw]; [intros [] | apply IH, Hw].
    + apply Ascii.eqb_neq in E.
      destruct (split_sp s) as [|w0 ws] eqn:Es.
      * destruct Hw as [<-|[]]. intros [H|[]]. congruence.
      * destruct Hw as [<-|Hw].
        -- intros [H|H]; [congruence|]. apply (IH w0); simpl; auto.
        -- apply IH. simpl. auto.
Qed.

Lemma in_app_no_space (l1 l2 : list str) :
  (forall w, In w l1 -> ~ In " "%char w) -> (forall w, In w l2 -> ~ In " "%char w) ->
  forall w, In w (l1 ++ l2) -> ~ In " "%char w.
Proof. intros H1 H2 w Hw. apply in_app_iff in Hw as [Hw|Hw]; auto. Qed.

(** What lines 159-174 add to the candidates collected before: the
    first [k] candidates of some list of space-free words, [k] within
    the word limit. *)
Lemma run_normally_inv maxlen cands s cs :
  run_normally maxlen cands s = Ok cs ->
  exists k wl,
    cs = cands ++ map (nth_candidate wl) (seq 0 k) /\ k <= length wl /\
    (Z.of_nat k <= Z.max 0 maxlen)%Z /\
    (forall w, In w wl -> ~ In " "%char w).
Proof.
  unfold run_normally. intros H.
  destruct (produce_candidates _ _) as [p| |] eqn:E; try discriminate.
  simpl in H. inversion H; subst.
  apply produce_candidates_inv in E as [Hle ->].
  eexists _, _. split; [reflexivity|]. split; [exact Hle|].
  split; [lia | apply split_sp_no_space].
Qed.

Lemma run_to_end_char_inv maxlen cands s e cs :
  run_to_end_char maxlen cands s e = Ok cs ->
  exists k wl,
    cs = cands ++ map (nth_candidate wl) (seq 0 k) /\ k <= length wl /\
    (Z.of_nat k <= Z.max 0 maxlen)%Z /\
    (forall w, In w wl -> ~ In " "%char w).
Proof.
  unfold run_to_end_char.
  destruct (_ <=? maxlen)%Z eqn:Hle; [|apply run_normally_inv].
  intros H.
  destruct (produce_candidates _ _) as [p| |] eqn:E; try discriminate.
  simpl in H. inversion H; subst.
  apply produce_candidates_inv in E as [Hk ->].
  eexists _, _. split; [reflexivity|]. split; [exact Hk|].
  split; [lia|].
  apply in_app_no_space; apply split_sp_no_space.
Qed.

(** Every result of the parser is of one of three shapes; a property of
    the three holds of every result. *)
Lemma cmdparser_cases maxlen (P : str -> list CommandCandidate -> Prop) :
  (forall raw c rest,
     strip raw = c :: rest -> is_special c = true ->
     P raw [mkCandidate [c] rest 0 None]) ->
  (forall raw k wl,
     k <= length wl -> (Z.of_nat k <= Z.max 0 maxlen)%Z ->
     (forall w, In w wl -> ~ In " "%char w) ->
     P raw (map (nth_candidate wl) (seq 0 k))) ->
  (forall raw e alt k wl,
     regex_search (strip raw) = Some e -> e <> 0 ->
     nth_error (strip raw) e = Some "'"%char ->
     is_obj_form (strip raw) e "'" = true ->
     cmdparser maxlen (skipn (e + 2) (strip raw)) = Ok alt ->
     P (skipn (e + 2) (strip raw)) alt ->
     k <= length wl -> (Z.of_nat k <= Z.max 0 maxlen)%Z ->
     (forall w, In w wl -> ~ In " "%char w) ->
     P raw (map (set_obj_key (firstn e (strip raw))) alt
            ++ map (nth_candidate wl) (seq 0 k))) ->
  forall raw cs, cmdparser maxlen raw = Ok cs -> P raw cs.
Proof.
  intros H1 H2 H3.
  assert (H : forall n raw cs, length raw < n ->
                               cmdparser maxlen raw = Ok cs -> P raw cs).
  { induction n as [|n IH]; intros raw cs Hn; [lia|].
    rewrite cmdparser_unfold. unfold cmdparser_body.
    destruct (regex_search (strip raw)) as [e|] eqn:He.
    - destruct (regex_search_Some _ _ He) as (Hcl & ch & Hch & Hsp).
      rewrite Hch.
      destruct (e =? 0)%nat eqn:E0.
      + apply Nat.eqb_eq in E0. subst e. intros Hr. inversion Hr; subst.
        destruct (strip raw) as [|c rest] eqn:Es; [discriminate|].
        simpl in Hch. inversion Hch; subst.
        replace (if (1 <? length (ch :: rest))%nat then skipn 1 (ch :: rest) else [])
          with rest by (destruct rest; reflexivity).
        apply (H1 raw ch rest Es Hsp).
      + apply Nat.eqb_neq in E0.
        destruct (is_obj_form (strip raw) e ch) eqn:Eo.
        * assert (Hq : ch = "'"%char).
          { unfold is_obj_form in Eo. apply andb_true_iff in Eo as [Eo _].
            apply andb_true_iff in Eo as [Eo _]. apply Ascii.eqb_eq, Eo. }
          subst ch.
          destruct (cmdparser maxlen (skipn (e + 2) (strip raw))) as [alt| |] eqn:Ea;
            simpl; try discriminate.
          intros Hr. apply run_to_end_char_inv in Hr as (k & wl & -> & Hk & Hm & Hw).
          apply (H3 raw e alt k wl He E0 Hch Eo Ea); [|exact Hk|exact Hm|exact Hw].
          apply (IH _ _) in Ea; [exact Ea|].
          apply is_obj_form_length in Eo. pose proof (strip_length raw).
          rewrite length_skipn. lia.
        * simpl. intros Hr.
          apply run_to_end_char_inv in Hr as (k & wl & -> & Hk & Hm & Hw).
          apply (H2 raw k wl Hk Hm Hw).
    - intros Hr. apply run_normally_inv in Hr as (k & wl & -> & Hk & Hm & Hw).
      apply (H2 raw k wl Hk Hm Hw). }
  intros raw cs. apply (H (S (length raw))). lia.
Qed.

End ParserShape.

Section ParserInvariants.
Import cmdparser.

Lemma lower_char_idem c : lower_char (lower_char c) = lower_char c.
Proof. destruct c as [[] [] [] [] [] [] [] []]; reflexivity. Qed.

Lemma lower_char_special c : is_special c = true -> lower_char c = c.
Proof. destruct c as [[] [] [] [] [] [] [] []]; vm_compute; congruence. Qed.

Lemma lower_char_space c : lower_char c = " "%char -> c = " "%char.
Proof. destruct c as [[] [] [] [] [] [] [] []]; vm_compute; congruence. Qed.

Lemma lower_idem s : lower (lower s) = lower s.
Proof.
  unfold lower. rewrite map_map. apply map_ext. intros c. apply lower_char_idem.
Qed.

Lemma lower_app a b : lower (a ++ b) = lower a ++ lower b.
Proof. apply map_app. Qed.

Lemma lower_join sep ws : lower (join sep ws) = join (lower sep) (map lower ws).
Proof.
  induction ws as [|w ws IH]; [reflexivity|].
  destruct ws as [|w' ws']; [reflexivity|].
  change (join sep (w :: w' :: ws')) with (w ++ sep ++ join sep (w' :: ws')).
  rewrite !lower_app, IH. reflexivity.
Qed.

Lemma nth_candidate_lower wl i :
  lower (cmdname (nth_candidate wl i)) = cmdname (nth_candidate wl i).
Proof.
  simpl. rewrite lower_join. f_equal.
  rewrite map_map. apply map_ext. intros w. apply lower_idem.
Qed.

(** Names are lowercase.  Whatever the input and the word limit, every
    candidate the parser returns has a name that [lower] leaves as it is:
    a name holds no uppercase ASCII letter. *)
Theorem names_are_lowercase maxlen raw cs :
  cmdparser maxlen raw = Ok cs ->
  forall cand, In cand cs -> lower (cmdname cand) = cmdname cand.
Proof.
  revert raw cs.
  apply (cmdparser_cases maxlen
           (fun _ cs => forall cand, In cand cs ->
                                     lower (cmdname cand) = cmdname cand)).
  - intros raw c rest _ Hc cand [<-|[]]. simpl. rewrite (lower_char_special c Hc).
    reflexivity.
  - intros raw k wl _ _ _ cand Hin.
    apply in_map_iff in Hin as (i & <- & _). apply nth_candidate_lower.
  - intros raw e alt k wl _ _ _ _ _ IH _ _ _ cand Hin.
    apply in_app_iff in Hin as [Hin|Hin].
    + apply in_map_iff in Hin as (a & <- & Ha). simpl. apply IH, Ha.
    + apply in_map_iff in Hin as (i & <- & _). apply nth_candidate_lower.
Qed.

Lemma names_are_lowercase_witness :
  cmdparser 2 (lit "LOOK AT Bob") =
    Ok [ mkCandidate (lit "look") (lit "AT Bob") 0 None;
         mkCandidate (lit "look at") (lit "Bob") 1 None ] /\
  List.Forall (fun cand => lower (cmdname cand) = cmdname cand)
    [ mkCandidate (lit "look") (lit "AT Bob") 0 None;
      mkCandidate (lit "look at") (lit "Bob") 1 None ].
Proof.
  split; [reflexivity|]. apply List.Forall_forall. intros cand Hin.
  apply (names_are_lowercase 2 (lit "LOOK AT Bob") _ eq_refl cand Hin).
Defined.

End ParserInvariants.

Section ParserLimits.
Import cmdparser.

Lemma spaces_app a b : spaces (a ++ b) = spaces a + spaces b.
Proof. unfold spaces. rewrite List.filter_app, length_app. reflexivity. Qed.

Lemma spaces_none w : ~ In " "%char w -> spaces w = 0.
Proof.
  unfold spaces. induction w as [|c w IH]; simpl; intros H; [reflexivity|].
  destruct (Ascii.eqb c " ") eqn:E.
  - apply Ascii.eqb_eq in E. exfalso. apply H. auto.
  - apply IH. intros Hin. apply H. auto.
Qed.

Lemma lower_strip_no_space w : ~ In " "%char w -> ~ In " "%char (lower (strip w)).
Proof.
  intros H Hin. unfold lower in Hin. apply in_map_iff in Hin as (c & Hc & Hin).
  apply lower_char_space in Hc. subst c. apply H, strip_in, Hin.
Qed.

Lemma spaces_join ws :
  (forall w, In w ws -> ~ In " "%char w) ->
  spaces (join (lit " ") ws) = length ws - 1.
Proof.
  induction ws as [|w ws IH]; intros H; [reflexivity|].
  destruct ws as [|w' ws'].
  - simpl. apply spaces_none, H. simpl. auto.
  - change (join (lit " ") (w :: w' :: ws'))
      with (w ++ lit " " ++ join (lit " ") (w' :: ws')).
    rewrite !spaces_app, IH by (intros x Hx; apply H; simpl; auto).
    rewrite (spaces_none w) by (apply H; simpl; auto).
    simpl. lia.
Qed.

Lemma nth_candidate_spaces wl i :
  i < length wl -> (forall w, In w wl -> ~ In " "%char w) ->
  spaces (cmdname (nth_candidate wl i)) = i.
Proof.
  intros Hi Hw. unfold nth_candidate. cbn [cmdname]. rewrite spaces_join.
  - rewrite length_map, length_firstn. unfold str in *. lia.
  - intros w Hin. apply in_map_iff in Hin as (x & <- & Hx).
    apply lower_strip_no_space, Hw. apply (firstn_in _ _ _ Hx).
Qed.

Lemma special_not_space c : is_special c = true -> c <> " "%char.
Proof. intros H ->. discriminate H. Qed.

Lemma unkeyed_keyed k alt : List.filter unkeyed (map (set_obj_key k) alt) = [].
Proof. induction alt as [|a alt IH]; simpl; [reflexivity | exact IH]. Qed.

Lemma unkeyed_nth wl l : List.filter unkeyed (map (nth_candidate wl) l) = map (nth_candidate wl) l.
Proof. induction l as [|a l IH]; simpl; [reflexivity | rewrite IH; reflexivity]. Qed.

(** Within the word limit.  In every result, the priority of a candidate
    is the number of spaces in its name; it is at least 0 and below the
    word limit (below 1 when the limit is less than 1: a lone special
    character is a name whatever the limit).  At most as many candidates
    without object key are returned as the limit says, one being always
    allowed. *)
Theorem candidates_within_limit maxlen raw cs :
  cmdparser maxlen raw = Ok cs ->
  (forall cand, In cand cs ->
     Z.of_nat (spaces (cmdname cand)) = priority cand /\
     (0 <= priority cand < Z.max 1 maxlen)%Z) /\
  (Z.of_nat (length (List.filter unkeyed cs)) <= Z.max 1 maxlen)%Z.
Proof.
  revert raw cs.
  apply (cmdparser_cases maxlen
           (fun _ cs =>
              (forall cand, In cand cs ->
                 Z.of_nat (spaces (cmdname cand)) = priority cand /\
                 (0 <= priority cand < Z.max 1 maxlen)%Z) /\
              (Z.of_nat (length (List.filter unkeyed cs)) <= Z.max 1 maxlen)%Z)).
  - intros raw c rest _ Hc. split; [|simpl; lia].
    intros cand [<-|[]]. simpl.
    rewrite (spaces_none [c]); [lia|].
    intros [H|[]]. apply (special_not_space c Hc). auto.
  - intros raw k wl Hk Hm Hw. split.
    + intros cand Hin. apply in_map_iff in Hin as (i & <- & Hi).
      apply in_seq in Hi. rewrite (nth_candidate_spaces wl i) by (auto; lia).
      simpl. lia.
    + rewrite unkeyed_nth, length_map, length_seq. lia.
  - intros raw e alt k wl _ _ _ _ _ [IH _] Hk Hm Hw. split.
    + intros cand Hin. apply in_app_iff in Hin as [Hin|Hin].
      * apply in_map_iff in Hin as (a & <- & Ha). simpl. apply IH, Ha.
      * apply in_map_iff in Hin as (i & <- & Hi).
        apply in_seq in Hi. rewrite (nth_candidate_spaces wl i) by (auto; lia).
        simpl. lia.
    + rewrite List.filter_app, unkeyed_keyed, unkeyed_nth. simpl.
      rewrite length_map, length_seq. lia.
Qed.

Lemma candidates_within_limit_witness :
  cmdparser 2 (lit "hit orc with sword") =
    Ok [ mkCandidate (lit "hit") (lit "orc with sword") 0 None;
         mkCandidate (lit "hit orc") (lit "with sword") 1 None ] /\
  List.Forall (fun cand => (0 <= priority cand < 2)%Z)
    [ mkCandidate (lit "hit") (lit "orc with sword") 0 None;
      mkCandidate (lit "hit orc") (lit "with sword") 1 None ].
Proof.
  split; [reflexivity|]. apply List.Forall_forall. intros cand Hin.
  apply (proj1 (candidates_within_limit 2 (lit "hit orc with sword") _ eq_refl)
           cand Hin).
Defined.

Lemma str_eqb_eq a : forall b, str_eqb a b = true -> a = b.
Proof.
  induction a as [|x a IH]; intros [|y b]; simpl; intros H;
    try discriminate; [reflexivity|].
  apply andb_true_iff in H as [H1 H2]. apply Ascii.eqb_eq in H1.
  rewrite H1, (IH b H2). reflexivity.
Qed.

(** Object keys.  In every result the candidates with an object key come
    first and those without follow.  A candidate has an object key only
    when the first special character of the trimmed input is an
    apostrophe followed by "s" and a space; its key is then the text
    before that apostrophe, also when the reparse of the rest had given
    it another key.  An input without apostrophe yields no object key. *)
Theorem object_keys maxlen raw cs :
  cmdparser maxlen raw = Ok cs ->
  (exists keyed rest,
     cs = keyed ++ rest /\
     (forall cand, In cand rest -> obj_key cand = None) /\
     (forall cand, In cand keyed ->
        exists e, regex_search (strip raw) = Some e /\
                  nth_error (strip raw) e = Some "'"%char /\
                  firstn 2 (skipn (e + 1) (strip raw)) = lit "s " /\
                  obj_key cand = Some (firstn e (strip raw)))) /\
  (~ In "'"%char raw -> forall cand, In cand cs -> obj_key cand = None).
Proof.
  intros Hr.
  assert (H : exists keyed rest,
     cs = keyed ++ rest /\
     (forall cand, In cand rest -> obj_key cand = None) /\
     (forall cand, In cand keyed ->
        exists e, regex_search (strip raw) = Some e /\
                  nth_error (strip raw) e = Some "'"%char /\
                  firstn 2 (skipn (e + 1) (strip raw)) = lit "s " /\
                  obj_key cand = Some (firstn e (strip raw)))).
  { revert raw cs Hr.
    apply (cmdparser_cases maxlen
             (fun raw cs => exists keyed rest,
                cs = keyed ++ rest /\
                (forall cand, In cand rest -> obj_key cand = None) /\
                (forall cand, In cand keyed ->
                   exists e, regex_search (strip raw) = Some e /\
                             nth_error (strip raw) e = Some "'"%char /\
                             firstn 2 (skipn (e + 1) (strip raw)) = lit "s " /\
                             obj_key cand = Some (firstn e (strip raw))))).
    - intros raw c rest _ _. exists [], [mkCandidate [c] rest 0 None].
      split; [reflexivity|]. split; [intros cand [<-|[]]; reflexivity | intros cand []].
    - intros raw k wl _ _ _. exists [], (map (nth_candidate wl) (seq 0 k)).
      split; [reflexivity|]. split; [|intros cand []].
      intros cand Hin. apply in_map_iff in Hin as (i & <- & _). reflexivity.
    - intros raw e alt k wl He _ Hch Ho _ _ _ _ _.
      exists (map (set_obj_key (firstn e (strip raw))) alt),
             (map (nth_candidate wl) (seq 0 k)).
      split; [reflexivity|]. split.
      + intros cand Hin. apply in_map_iff in Hin as (i & <- & _). reflexivity.
      + intros cand Hin. apply in_map_iff in Hin as (a & <- & _).
        exists e. split; [exact He|]. split; [exact Hch|]. split; [|reflexivity].
        unfold is_obj_form in Ho. apply andb_true_iff in Ho as [_ Ho].
        apply str_eqb_eq, Ho. }
  split; [exact H|].
  intros Hq cand Hin. destruct H as (keyed & rest & -> & Hrest & Hkeyed).
  apply in_app_iff in Hin as [Hin|Hin]; [|apply Hrest, Hin].
  destruct (Hkeyed cand Hin) as (e & _ & Hch & _).
  exfalso. apply Hq. apply strip_in. apply (nth_error_In _ _ Hch).
Qed.

Lemma object_keys_witness :
  cmdparser 2 (lit "hit orc") =
    Ok [ mkCandidate (lit "hit") (lit "orc") 0 None;
         mkCandidate (lit "hit orc") [] 1 None ] /\
  List.Forall (fun cand => obj_key cand = None)
    [ mkCandidate (lit "hit") (lit "orc") 0 None;
      mkCandidate (lit "hit orc") [] 1 None ].
Proof.
  split; [reflexivity|]. apply List.Forall_forall.
  apply (proj2 (object_keys 2 (lit "hit orc") _ eq_refl)).
  intros H. vm_compute in H. intuition discriminate.
Defined.

End ParserLimits.

(** ** Blanks, words and argument text *)

Section ParserStrings.
Import cmdparser.

Lemma lstrip_fixed c s : is_space c = false -> lstrip (c :: s) = c :: s.
Proof. simpl. intros ->. reflexivity. Qed.

Lemma lstrip_app_blank pre s :
  (forall c, In c pre -> is_space c = true) -> lstrip (pre ++ s) = lstrip s.
Proof.
  induction pre as [|c pre IH]; simpl; intros H; [reflexivity|].
  rewrite (H c) by auto. apply IH. intros d Hd. apply H. auto.
Qed.

Lemma lstrip_app s post :
  lstrip s <> [] -> lstrip (s ++ post) = lstrip s ++ post.
Proof.
  induction s as [|c s IH]; simpl; intros H; [congruence|].
  destruct (is_space c); [apply IH, H | reflexivity].
Qed.

Lemma lstrip_idem s : lstrip (lstrip s) = lstrip s.
Proof.
  induction s as [|c s IH]; simpl; [reflexivity|].
  destruct (is_space c) eqn:E; [exact IH|]. simpl. rewrite E. reflexivity.
Qed.

Lemma rstrip_app_blank s post :
  (forall c, In c post -> is_space c = true) -> rstrip (s ++ post) = rstrip s.
Proof.
  intros H. unfold rstrip. rewrite rev_app_distr, lstrip_app_blank; [reflexivity|].
  intros c Hc. apply H, in_rev, Hc.
Qed.

Lemma rstrip_nil : rstrip [] = [].
Proof. reflexivity. Qed.

Lemma rstrip_blank s : (forall c, In c s -> is_space c = true) -> rstrip s = [].
Proof.
  intros H. unfold rstrip. rewrite lstrip_blank; [reflexivity|].
  intros c Hc. apply H, in_rev, Hc.
Qed.

Lemma strip_app_blank pre s post :
  (forall c, In c pre -> is_space c = true) ->
  (forall c, In c post -> is_space c = true) ->
  strip (pre ++ s ++ post) = strip s.
Proof.
  intros Hpre Hpost. unfold strip. rewrite (lstrip_app_blank pre _ Hpre).
  destruct (lstrip s) as [|c t] eqn:E.
  - assert (Hb : forall c, In c (lstrip (s ++ post)) -> is_space c = true).
    { clear Hpre. induction s as [|d s IH]; simpl in *.
      - intros c Hc. apply Hpost, lstrip_in, Hc.
      - destruct (is_space d); [apply IH, E | discriminate]. }
    rewrite (rstrip_blank _ Hb). reflexivity.
  - rewrite lstrip_app by (rewrite E; discriminate).
    rewrite E. apply rstrip_app_blank, Hpost.
Qed.

Lemma strip_idem s : strip (strip s) = strip s.
Proof.
  destruct (strip s) as [|c t] eqn:E; [reflexivity|].
  rewrite <- E. unfold strip at 1.
  rewrite E, (lstrip_fixed c t (strip_head s c t E)), <- E.
  unfold strip, rstrip. rewrite rev_involutive, lstrip_idem. reflexivity.
Qed.

Lemma no_blank_lstrip w : no_blank w -> lstrip w = w.
Proof.
  destruct w as [|c w]; [reflexivity|]. intros H.
  apply lstrip_fixed, H. simpl. auto.
Qed.

Lemma no_blank_strip w : no_blank w -> strip w = w.
Proof.
  intros H. unfold strip, rstrip. rewrite (no_blank_lstrip w H).
  rewrite no_blank_lstrip; [apply rev_involutive|].
  intros c Hc. apply H, in_rev, Hc.
Qed.

Lemma blank_not_special c : is_space c = true -> is_special c = false.
Proof. destruct c as [[] [] [] [] [] [] [] []]; vm_compute; congruence. Qed.

Lemma clean_regex_search s : clean s -> regex_search s = None.
Proof.
  induction s as [|c s IH]; simpl; intros H; [reflexivity|].
  rewrite (H c) by (simpl; auto). rewrite IH; [reflexivity|].
  intros d Hd. apply H. simpl. auto.
Qed.

Lemma regex_search_app w c rest :
  clean w -> is_special c = true -> regex_search (w ++ c :: rest) = Some (length w).
Proof.
  induction w as [|d w IH]; simpl; intros Hw Hc.
  - rewrite Hc. reflexivity.
  - rewrite (Hw d) by (simpl; auto).
    rewrite IH; [reflexivity | | exact Hc].
    intros x Hx. apply Hw. simpl. auto.
Qed.

Lemma no_blank_no_space w : no_blank w -> ~ In " "%char w.
Proof. intros H Hin. specialize (H _ Hin). discriminate H. Qed.

Lemma split_sp_word w : ~ In " "%char w -> split_sp w = [w].
Proof.
  induction w as [|c w IH]; simpl; intros H; [reflexivity|].
  destruct (Ascii.eqb c " ") eqn:E.
  - apply Ascii.eqb_eq in E. exfalso. apply H. auto.
  - rewrite IH; [reflexivity|]. intros Hin. apply H. auto.
Qed.

Lemma split_sp_cut w rest :
  ~ In " "%char w -> split_sp (w ++ " "%char :: rest) = w :: split_sp rest.
Proof.
  induction w as [|c w IH]; simpl; intros H; [reflexivity|].
  destruct (Ascii.eqb c " ") eqn:E.
  - apply Ascii.eqb_eq in E. exfalso. apply H. auto.
  - rewrite IH; [reflexivity|]. intros Hin. apply H. auto.
Qed.

Lemma split_ws_word w : no_blank w -> w <> [] -> split_ws w = [w].
Proof.
  induction w as [|c w IH]; intros H Hne; [congruence|].
  destruct w as [|c' w'].
  - simpl. rewrite (H c) by (simpl; auto). reflexivity.
  - change (split_ws (c :: c' :: w')) with
      (if is_space c then split_ws (c' :: w')
       else if is_space c' then [c] :: split_ws (c' :: w')
            else match split_ws (c' :: w') with
                 | w :: ws => (c :: w) :: ws
                 | [] => [[c]]
                 end).
    rewrite (H c), (H c') by (simpl; auto).
    rewrite IH; [reflexivity | | discriminate].
    intros x Hx. apply H. simpl. auto.
Qed.

Lemma split_ws_cut w t rest :
  no_blank w -> w <> [] -> is_space t = true ->
  split_ws (w ++ t :: rest) = w :: split_ws rest.
Proof.
  induction w as [|c w IH]; intros H Hne Ht; [congruence|].
  destruct w as [|c' w'].
  - simpl. rewrite (H c) by (simpl; auto). rewrite Ht. reflexivity.
  - change (split_ws ((c :: c' :: w') ++ t :: rest)) with
      (if is_space c then split_ws ((c' :: w') ++ t :: rest)
       else if is_space c' then [c] :: split_ws ((c' :: w') ++ t :: rest)
            else match split_ws ((c' :: w') ++ t :: rest) with
                 | w :: ws => (c :: w) :: ws
                 | [] => [[c]]
                 end).
    rewrite (H c), (H c') by (simpl; auto).
    rewrite IH; [reflexivity | | discriminate | exact Ht].
    intros x Hx. apply H. simpl. auto.
Qed.
(** *** The argument text *)

Lemma add_arg_glue acc w : acc <> [] -> add_arg acc w = acc ++ glue w.
Proof.
  intros H. unfold add_arg, glue. destruct acc as [|a acc]; [congruence|].
  destruct w as [|c w]; [reflexivity|]. destruct (is_special c); reflexivity.
Qed.

Lemma fold_add_arg ws : forall acc,
  acc <> [] -> fold_left add_arg ws acc = acc ++ concat (map glue ws).
Proof.
  induction ws as [|w ws IH]; simpl; intros acc Hne.
  - rewrite app_nil_r. reflexivity.
  - rewrite IH, (add_arg_glue acc w Hne).
    + rewrite <- app_assoc. reflexivity.
    + rewrite (add_arg_glue acc w Hne). destruct acc; [congruence | discriminate].
Qed.

Lemma squeeze_split s :
  squeeze s = match split_sp s with
              | w :: ws => w ++ concat (map glue ws)
              | [] => []
              end.
Proof.
  induction s as [|c s IH]; [reflexivity|].
  simpl squeeze. simpl split_sp.
  destruct (Ascii.eqb c " ") eqn:E.
  - apply Ascii.eqb_eq in E. subst c.
    pose proof (split_sp_not_nil s) as Hn.
    destruct (split_sp s) as [|w ws] eqn:Es; [congruence|].
    simpl. rewrite IH.
    destruct s as [|d s'].
    + simpl in Es. inversion Es; subst. reflexivity.
    + simpl in Es. destruct (Ascii.eqb d " ") eqn:Ed.
      * apply Ascii.eqb_eq in Ed. subst d. inversion Es; subst.
        reflexivity.
      * destruct (split_sp s') as [|w0 ws0]; inversion Es; subst;
          simpl; destruct (is_special d); reflexivity.
  - destruct (split_sp s) as [|w ws] eqn:Es.
    + exfalso. apply (split_sp_not_nil s Es).
    + rewrite IH. reflexivity.
Qed.

(** The argument text built from a text cut at spaces: the text without
    its leading spaces and without the spaces right before a special
    character. *)
Lemma build_args_split s : build_args (split_sp s) = squeeze (drop_spaces s).
Proof.
  induction s as [|c s IH]; [reflexivity|].
  simpl split_sp. simpl drop_spaces.
  destruct (Ascii.eqb c " ") eqn:E.
  - unfold build_args in *. simpl. exact IH.
  - rewrite squeeze_split. simpl split_sp. rewrite E.
    pose proof (split_sp_not_nil s) as Hn.
    destruct (split_sp s) as [|w ws]; [congruence|].
    unfold build_args. simpl. apply fold_add_arg. discriminate.
Qed.

Lemma squeeze_fixed s :
  (forall s1 d s2, s = s1 ++ " "%char :: d :: s2 -> is_special d = false) ->
  squeeze s = s.
Proof.
  induction s as [|c s IH]; intros H; [reflexivity|].
  assert (IH' : squeeze s = s).
  { apply IH. intros s1 d s2 E. apply (H (c :: s1) d s2). rewrite E. reflexivity. }
  simpl. destruct (Ascii.eqb c " ") eqn:E; [|rewrite IH'; reflexivity].
  apply Ascii.eqb_eq in E. subst c.
  destruct s as [|d s']; [reflexivity|].
  rewrite (H [] d s' eq_refl), IH'. reflexivity.
Qed.

Lemma squeeze_clean s : clean s -> squeeze s = s.
Proof.
  intros H. apply squeeze_fixed. intros s1 d s2 E. apply H. rewrite E.
  apply in_app_iff. simpl. auto.
Qed.

Lemma drop_spaces_in s c : In c (drop_spaces s) -> In c s.
Proof.
  induction s as [|d s IH]; simpl; [auto|].
  destruct (Ascii.eqb d " "); simpl; intuition auto.
Qed.

Lemma drop_spaces_lstrip s : plain_spaces s -> drop_spaces s = lstrip s.
Proof.
  induction s as [|c s IH]; intros H; [reflexivity|].
  simpl. rewrite (plain_spaces_eqb _ _ H) by (simpl; auto).
  destruct (is_space c); [|reflexivity].
  apply IH, (plain_spaces_cons _ _ H).
Qed.

End ParserStrings.

(** ** Errors, blanks and the first candidate *)

Section ParserMore.
Import cmdparser.

Lemma produce_candidates_none k wl : (k <= 0)%Z -> produce_candidates k wl = Ok [].
Proof.
  intros H. unfold produce_candidates.
  replace (Z.to_nat k) with 0 by lia. reflexivity.
Qed.

Lemma run_normally_none maxlen cands s :
  (maxlen <= 0)%Z -> run_normally maxlen cands s = Ok cands.
Proof.
  intros H. unfold run_normally.
  rewrite produce_candidates_none by lia. simpl. rewrite app_nil_r. reflexivity.
Qed.

Lemma run_to_end_char_none maxlen cands s e :
  (maxlen <= 0)%Z -> run_to_end_char maxlen cands s e = Ok cands.
Proof.
  intros H. unfold run_to_end_char.
  destruct (_ <=? maxlen)%Z eqn:E; [|apply run_normally_none, H].
  rewrite produce_candidates_none by lia. simpl. rewrite app_nil_r. reflexivity.
Qed.

Lemma cmdparser_no_words maxlen :
  (maxlen <= 0)%Z ->
  forall n raw, length raw < n -> exists cs, cmdparser maxlen raw = Ok cs.
Proof.
  intros Hm. induction n as [|n IH]; intros raw Hn; [lia|].
  rewrite cmdparser_unfold. unfold cmdparser_body.
  destruct (regex_search (strip raw)) as [e|] eqn:He.
  - destruct (regex_search_Some _ _ He) as (_ & ch & Hch & _). rewrite Hch.
    destruct (e =? 0)%nat; [eauto|].
    destruct (is_obj_form (strip raw) e ch) eqn:Eo.
    + destruct (IH (skipn (e + 2) (strip raw))) as (alt & Halt).
      { apply is_obj_form_length in Eo. pose proof (strip_length raw).
        rewrite length_skipn. lia. }
      rewrite Halt. simpl. rewrite run_to_end_char_none by exact Hm. eauto.
    + simpl. rewrite run_to_end_char_none by exact Hm. eauto.
  - rewrite run_normally_none by exact Hm. eauto.
Qed.

(** When nothing is raised.  The parser returns candidates, and raises
    no [IndexError], on every input whose trimmed text has only spaces
    as blanks, and on every input at all when the word limit is 0 or
    less. *)
Theorem parser_never_raises maxlen raw :
  plain_spaces (strip raw) \/ (maxlen <= 0)%Z ->
  exists cs, cmdparser maxlen raw = Ok cs.
Proof.
  intros [Hp|Hm].
  - destruct (cmdparser_names maxlen (S (length raw)) raw (Nat.lt_succ_diag_r _) Hp)
      as (cs & Hcs & _). eauto.
  - apply (cmdparser_no_words maxlen Hm (S (length raw))). lia.
Qed.

Lemma parser_never_raises_witness :
  exists cs, cmdparser 0 (lit "kick" ++ [tab] ++ lit "ball") = Ok cs.
Proof.
  apply (parser_never_raises 0 (lit "kick" ++ [tab] ++ lit "ball")).
  right. lia.
Defined.

Lemma rstrip_fixed s c : is_space c = false -> rstrip (s ++ [c]) = s ++ [c].
Proof.
  intros H. unfold rstrip. rewrite rev_app_distr. simpl rev at 2. simpl app.
  rewrite (lstrip_fixed c (rev s) H). simpl. rewrite rev_involutive. reflexivity.
Qed.

Lemma strip_words w1 t w2 :
  w1 <> [] -> w2 <> [] -> no_blank w1 -> no_blank w2 ->
  strip (w1 ++ t :: w2) = w1 ++ t :: w2.
Proof.
  intros Hn1 Hn2 Hb1 Hb2. unfold strip.
  destruct w1 as [|c1 w1']; [congruence|].
  change ((c1 :: w1') ++ t :: w2) with (c1 :: (w1' ++ t :: w2)).
  rewrite lstrip_fixed by (apply Hb1; simpl; auto).
  destruct (exists_last Hn2) as (init & c2 & ->).
  replace (c1 :: w1' ++ t :: init ++ [c2]) with ((c1 :: w1' ++ t :: init) ++ [c2])
    by (simpl; rewrite <- app_assoc; reflexivity).
  apply rstrip_fixed. apply Hb2. apply in_app_iff. simpl. auto.
Qed.

(** Words separated by a blank that is no space.  Two words free of
    blanks and special characters with a tab (or a line feed, or any
    blank other than a space) between them: for every word limit of 2 or
    more the parser raises [IndexError].  The words are counted at
    blanks of any kind and cut at spaces only. *)
Theorem blank_separated_words_raise maxlen w1 t w2 :
  w1 <> [] -> w2 <> [] -> no_blank w1 -> no_blank w2 ->
  clean w1 -> clean w2 ->
  is_space t = true -> t <> " "%char -> (2 <= maxlen)%Z ->
  cmdparser maxlen (w1 ++ t :: w2) = IndexError.
Proof.
  intros Hn1 Hn2 Hb1 Hb2 Hc1 Hc2 Ht Hts Hm.
  pose proof (strip_words w1 t w2 Hn1 Hn2 Hb1 Hb2) as Hstrip.
  rewrite cmdparser_unfold. unfold cmdparser_body. rewrite Hstrip.
  rewrite clean_regex_search.
  - unfold run_normally.
    rewrite (split_ws_cut w1 t w2 Hb1 Hn1 Ht), (split_ws_word w2 Hb2 Hn2).
    rewrite split_sp_word.
    + rewrite produce_candidates_short; [reflexivity|]. simpl. lia.
    + intros Hin. apply in_app_iff in Hin as [Hin|[Hin|Hin]].
      * apply (no_blank_no_space w1 Hb1 Hin).
      * congruence.
      * apply (no_blank_no_space w2 Hb2 Hin).
  - intros c Hc. apply in_app_iff in Hc as [Hc|[<-|Hc]];
      [apply Hc1, Hc | apply blank_not_special, Ht | apply Hc2, Hc].
Qed.

Lemma blank_separated_words_raise_witness :
  cmdparser 2 (lit "kick" ++ tab :: lit "ball") = IndexError.
Proof.
  apply (blank_separated_words_raise 2 (lit "kick") tab (lit "ball"));
    try discriminate; try reflexivity; try lia;
    intros c Hc; vm_compute in Hc;
    repeat (destruct Hc as [<-|Hc]; [reflexivity|]); destruct Hc.
Defined.

(** Only the trimmed input matters.  Two inputs with the same trimmed
    text parse alike; so an input parses as its trimmed text does, and
    blanks of any kind put before and after an input change nothing. *)
Theorem parser_ignores_outer_blanks maxlen raw :
  (forall raw', strip raw' = strip raw ->
                cmdparser maxlen raw' = cmdparser maxlen raw) /\
  cmdparser maxlen (strip raw) = cmdparser maxlen raw /\
  (forall pre post,
     (forall c, In c pre -> is_space c = true) ->
     (forall c, In c post -> is_space c = true) ->
     cmdparser maxlen (pre ++ raw ++ post) = cmdparser maxlen raw).
Proof.
  assert (H : forall raw', strip raw' = strip raw ->
                           cmdparser maxlen raw' = cmdparser maxlen raw).
  { intros raw' E. rewrite !cmdparser_unfold. unfold cmdparser_body.
    rewrite E. reflexivity. }
  split; [exact H|]. split.
  - apply H, strip_idem.
  - intros pre post Hpre Hpost. apply H, strip_app_blank; assumption.
Qed.

(** The first word.  When the trimmed input holds no special character,
    has only spaces as blanks and begins with a word followed by a space,
    then for every word limit of 1 or more the first candidate has that
    word, lowercased, as name, priority 0, no object key and, as argument
    text, all that follows the space, without its leading spaces and
    otherwise unchanged. *)
Theorem first_word_candidate maxlen raw w rest :
  strip raw = w ++ " "%char :: rest ->
  w <> [] -> no_blank w ->
  clean (strip raw) -> plain_spaces (strip raw) -> (1 <= maxlen)%Z ->
  exists cs,
    cmdparser maxlen raw = Ok (mkCandidate (lower w) (lstrip rest) 0 None :: cs).
Proof.
  intros Hs Hne Hb Hc Hp Hm.
  rewrite cmdparser_unfold. unfold cmdparser_body.
  rewrite Hs in *.
  rewrite (clean_regex_search _ Hc). unfold run_normally.
  set (k := Z.min maxlen (Z.of_nat (length (split_ws (w ++ " "%char :: rest))))).
  assert (Hk1 : 1 <= Z.to_nat k).
  { unfold k. destruct w as [|c w']; [congruence|].
    pose proof (split_ws_not_nil c (w' ++ " "%char :: rest)
                  (Hb c (or_introl eq_refl))) as Hnn.
    change ((c :: w') ++ " "%char :: rest) with (c :: (w' ++ " "%char :: rest)).
    destruct (split_ws (c :: w' ++ " "%char :: rest)); [congruence|].
    simpl length. lia. }
  pose proof (proj1 (split_ws_le_split_sp _ Hp)) as Hle.
  rewrite produce_candidates_ok by (unfold k; lia).
  rewrite (split_sp_cut w rest (no_blank_no_space w Hb)).
  destruct (Z.to_nat k) as [|k'] eqn:Ek; [lia|].
  simpl seq. simpl map. simpl obind.
  eexists. f_equal. f_equal.
  unfold nth_candidate. simpl firstn. simpl skipn. simpl map. simpl join.
  change (drop 0 (split_sp rest)) with (split_sp rest).
  rewrite (no_blank_strip w Hb), build_args_split.
  assert (Hpr : plain_spaces rest).
  { intros c Hin. apply Hp. apply in_app_iff. simpl. auto. }
  assert (Hcr : clean rest).
  { intros c Hin. apply Hc. apply in_app_iff. simpl. auto. }
  rewrite squeeze_clean.
  - rewrite (drop_spaces_lstrip rest Hpr). reflexivity.
  - intros c Hin. apply Hcr, drop_spaces_in, Hin.
Qed.

Lemma first_word_candidate_witness :
  exists cs,
    cmdparser 2 (lit "Say  Hello World") =
    Ok (mkCandidate (lit "say") (lit "Hello World") 0 None :: cs).
Proof.
  apply (first_word_candidate 2 (lit "Say  Hello World") (lit "Say")
           (lit " Hello World")); try reflexivity; try discriminate; try lia.
  - intros c Hc; vm_compute in Hc;
      repeat (destruct Hc as [<-|Hc]; [reflexivity|]); destruct Hc.
  - intros c Hc; vm_compute in Hc;
      repeat (destruct Hc as [<-|Hc]; [reflexivity|]); destruct Hc.
  - intros c Hc Hsp; vm_compute in Hc;
      repeat (destruct Hc as [<-|Hc]; [try discriminate Hsp; try reflexivity|]);
      destruct Hc.
Defined.

(** A word and a switch.  When the trimmed input is one word directly
    followed by a special character, and the possessive form does not
    apply, then for every word limit of 1 or more there is exactly one
    candidate: the word, lowercased, as name and, as argument text, the
    input from the special character on, in which every space that
    stands right before a special character is dropped.  When there is
    no such space the argument text is the input from the special
    character on, unchanged. *)
Theorem switch_candidate maxlen raw w c rest :
  strip raw = w ++ c :: rest ->
  w <> [] -> no_blank w -> clean w -> is_special c = true ->
  is_obj_form (strip raw) (length w) c = false -> (1 <= maxlen)%Z ->
  cmdparser maxlen raw =
    Ok [mkCandidate (lower w) (squeeze (c :: rest)) 0 None] /\
  ((forall s1 d s2, rest = s1 ++ " "%char :: d :: s2 -> is_special d = false) ->
   squeeze (c :: rest) = c :: rest).
Proof.
  intros Hs Hne Hb Hw Hc Ho Hm. split.
  - rewrite cmdparser_unfold. unfold cmdparser_body.
    rewrite Hs in *. rewrite (regex_search_app w c rest Hw Hc).
    rewrite nth_error_app2, Nat.sub_diag by lia. simpl nth_error.
    replace (length w =? 0)%nat with false
      by (symmetry; apply Nat.eqb_neq; destruct w; [congruence | discriminate]).
    rewrite Ho. simpl obind. unfold run_to_end_char.
    rewrite take_app_length, drop_app_length.
    rewrite (split_ws_word w Hb Hne), (split_sp_word w (no_blank_no_space w Hb)).
    simpl length. change (Z.of_nat 1) with 1%Z.
    destruct (Z.leb_spec 1 maxlen) as [_|Hlt]; [|lia].
    remember (split_sp (c :: rest)) as wl2 eqn:Ewl.
    rewrite produce_candidates_ok
      by (rewrite length_app; simpl length at 1; simpl Z.to_nat; lia).
    simpl Z.to_nat. simpl seq. simpl map. simpl obind.
    f_equal. f_equal. unfold nth_candidate.
    simpl firstn. simpl skipn. simpl map. simpl join.
    change (drop 0 wl2) with wl2. subst wl2.
    rewrite (no_blank_strip w Hb). f_equal.
    rewrite build_args_split. simpl drop_spaces.
    replace (Ascii.eqb c " ") with false; [reflexivity|].
    symmetry. apply Ascii.eqb_neq. apply (special_not_space c Hc).
  - intros H. apply squeeze_fixed. intros s1 d s2 E.
    destruct s1 as [|x s1].
    + simpl in E. inversion E; subst. discriminate Hc.
    + simpl in E. inversion E; subst. apply (H s1 d s2 eq_refl).
Qed.

Lemma switch_candidate_witness :
  cmdparser 3 (lit "@create/drop ball") =
  Ok [mkCandidate (lit "@create") (lit "/drop ball") 0 None].
Proof.
  refine (proj1 (switch_candidate 3 (lit "@create/drop ball") (lit "@create")
                   "/"%char (lit "drop ball") _ _ _ _ _ _ _)).
  - reflexivity.
  - discriminate.
  - intros c Hc; vm_compute in Hc;
      repeat (destruct Hc as [<-|Hc]; [reflexivity|]); destruct Hc.
  - intros c Hc; vm_compute in Hc;
      repeat (destruct Hc as [<-|Hc]; [reflexivity|]); destruct Hc.
  - reflexivity.
  - reflexivity.
  - lia.
Defined.

End ParserMore.

(** ** Lines of words separated by single spaces *)

Section SingleSpaced.
Import cmdparser.

Lemma join_cons (w w' : str) (ws : list str) :
  join (lit " ") (w :: w' :: ws) = w ++ " "%char :: join (lit " ") (w' :: ws).
Proof. reflexivity. Qed.

Lemma split_sp_join (ws : list str) :
  ws <> [] -> (forall w, In w ws -> ~ In " "%char w) ->
  split_sp (join (lit " ") ws) = ws.
Proof.
  induction ws as [|w ws IH]; intros Hne H; [congruence|].
  destruct ws as [|w' ws'].
  - simpl. apply split_sp_word, H. simpl. auto.
  - rewrite join_cons, split_sp_cut by (apply H; simpl; auto).
    f_equal. apply IH; [discriminate|].
    intros x Hx. apply H. simpl. auto.
Qed.

Lemma split_ws_join (ws : list str) :
  (forall w, In w ws -> w <> [] /\ no_blank w) ->
  split_ws (join (lit " ") ws) = ws.
Proof.
  induction ws as [|w ws IH]; intros H; [reflexivity|].
  destruct (H w (or_introl eq_refl)) as [Hne Hb].
  destruct ws as [|w' ws'].
  - simpl. apply split_ws_word; assumption.
  - rewrite join_cons, split_ws_cut by (auto; reflexivity).
    f_equal. apply IH. intros x Hx. apply H. simpl. auto.
Qed.

Lemma join_last (ws : list str) : forall (w init : str) d,
  List.last ws w = init ++ [d] -> ws <> [] ->
  exists init', join (lit " ") ws = init' ++ [d].
Proof.
  induction ws as [|x ws IH]; intros w init d Hl Hne; [congruence|].
  destruct ws as [|x' ws'].
  - simpl in *. eauto.
  - destruct (IH w init d Hl) as (i' & Hi'); [discriminate|].
    rewrite join_cons, Hi'. exists (x ++ " "%char :: i').
    rewrite <- app_assoc. reflexivity.
Qed.

Lemma strip_join (ws : list str) :
  ws <> [] -> (forall w, In w ws -> w <> [] /\ no_blank w) ->
  strip (join (lit " ") ws) = join (lit " ") ws.
Proof.
  intros Hne H. unfold strip.
  assert (Hhd : exists c t, join (lit " ") ws = c :: t /\ is_space c = false).
  { destruct ws as [|w ws']; [congruence|].
    destruct (H w (or_introl eq_refl)) as [Hw Hb].
    destruct w as [|c w0]; [congruence|].
    destruct ws' as [|w' ws''].
    - exists c, w0. split; [reflexivity | apply Hb; simpl; auto].
    - rewrite join_cons. eexists c, _. split; [reflexivity | apply Hb; simpl; auto]. }
  destruct Hhd as (c & t & Hj & Hc).
  rewrite Hj, (lstrip_fixed c t Hc), <- Hj.
  assert (Hlast : In (List.last ws []) ws).
  { clear -Hne. induction ws as [|x ws IH]; [congruence|].
    destruct ws as [|y ws']; [simpl; auto|].
    right. apply IH. discriminate. }
  destruct (H _ Hlast) as [Hl Hb].
  destruct (exists_last Hl) as (init & d & Hd).
  destruct (join_last ws [] init d Hd Hne) as (init' & ->).
  apply rstrip_fixed. apply Hb. rewrite Hd. apply in_app_iff. simpl. auto.
Qed.

Lemma clean_words_join (ws : list str) :
  (forall w, In w ws -> clean w) -> clean (join (lit " ") ws).
Proof. apply clean_join, clean_space. Qed.

Lemma build_args_words (ws : list str) :
  (forall w, In w ws -> w <> [] /\ clean w) ->
  build_args ws = join (lit " ") ws.
Proof.
  destruct ws as [|w ws]; intros H; [reflexivity|].
  destruct (H w (or_introl eq_refl)) as [Hne _].
  unfold build_args. simpl fold_left.
  replace (add_arg [] w) with w by reflexivity.
  rewrite fold_add_arg by exact Hne.
  assert (Hws : forall x, In x ws -> x <> [] /\ clean x)
    by (intros x Hx; apply H; simpl; auto).
  clear H. revert w Hne. induction ws as [|x ws IH]; intros w Hne.
  - simpl. apply app_nil_r.
  - rewrite join_cons. simpl map. simpl concat. f_equal.
    destruct (Hws x (or_introl eq_refl)) as [Hx Hc].
    destruct x as [|c x0]; [congruence|].
    unfold glue at 1. rewrite (Hc c) by (simpl; auto).
    simpl. f_equal.
    apply (IH (fun y Hy => Hws y (or_intror Hy)) (c :: x0)). discriminate.
Qed.

Lemma lower_space : lower (lit " ") = lit " ".
Proof. reflexivity. Qed.

(** A line of words separated by single spaces, the words free of
    blanks and special characters.  For every word limit there are as
    many candidates as the smaller of the limit and the number of words;
    candidate [i] (from 0) has the first [i+1] words, lowercased and
    joined by single spaces, as name, the remaining words joined by
    single spaces as argument text, priority [i] and no object key. *)
Theorem single_spaced_line maxlen (ws : list str) :
  ws <> [] ->
  (forall w, In w ws -> w <> [] /\ no_blank w /\ clean w) ->
  cmdparser maxlen (join (lit " ") ws) =
  Ok (map (fun i =>
             mkCandidate (lower (join (lit " ") (firstn (S i) ws)))
                         (join (lit " ") (skipn (S i) ws))
                         (Z.of_nat i) None)
          (seq 0 (Nat.min (Z.to_nat maxlen) (length ws)))).
Proof.
  intros Hne H.
  assert (H1 : forall w, In w ws -> w <> [] /\ no_blank w)
    by (intros w Hw; destruct (H w Hw) as (? & ? & ?); auto).
  assert (H2 : forall w, In w ws -> ~ In " "%char w)
    by (intros w Hw; apply no_blank_no_space, (H1 w Hw)).
  rewrite cmdparser_unfold. unfold cmdparser_body.
  rewrite (strip_join ws Hne H1).
  rewrite clean_regex_search
    by (apply clean_words_join; intros w Hw; apply (H w Hw)).
  unfold run_normally.
  rewrite (split_ws_join ws H1), (split_sp_join ws Hne H2).
  rewrite produce_candidates_ok by lia. simpl obind.
  replace (Z.to_nat (Z.min maxlen (Z.of_nat (length ws))))
    with (Nat.min (Z.to_nat maxlen) (length ws)) by lia.
  f_equal. apply map_ext_in. intros i Hi. apply in_seq in Hi.
  unfold nth_candidate. f_equal.
  - rewrite lower_join, lower_space. f_equal.
    rewrite <- map_map. f_equal. 
    rewrite <- (map_id (firstn (S i) ws)) at 2.
    apply map_ext_in. intros w Hw. apply no_blank_strip.
    apply (H1 w). apply (firstn_in _ _ _ Hw).
  - apply build_args_words. intros w Hw.
    assert (Hin : In w ws).
    { rewrite <- (firstn_skipn (S i) ws). apply in_app_iff. auto. }
    destruct (H w Hin) as (? & ? & ?). auto.
Qed.

Lemma single_spaced_line_witness :
  cmdparser 2 (lit "Hit orc now") =
  Ok [ mkCandidate (lit "hit") (lit "orc now") 0 None;
       mkCandidate (lit "hit orc") (lit "now") 1 None ].
Proof.
  refine (single_spaced_line 2 [lit "Hit"; lit "orc"; lit "now"] _ _).
  - discriminate.
  - intros w Hw. simpl in Hw.
    destruct Hw as [<-|[<-|[<-|[]]]];
      (split; [discriminate|]; split;
       intros c Hc; vm_compute in Hc;
       repeat (destruct Hc as [<-|Hc]; [reflexivity|]); destruct Hc).
Defined.

End SingleSpaced.
